(** * ocr_extension: the content script (src/content.js)

    A shallow embedding of the content script of the OCR browser extension:
    the image registry (the two WeakSets and the [images] array), the
    [processImage] pipeline with its suspension points, the mutation
    observer callback, the enable/disable session controller and the
    message listener.

    Conventions.
    - DOM nodes are identified by a number ([Elem]); the overlay boxes the
      script creates live in a heap ([textdivs]) keyed by [BoxId], and the
      entries of [images] refer to them by key, as the JS objects refer to
      the DOM nodes.
    - Everything the script only reads from the page (tag names, sizes,
      selector results, the wrapping helper) is gathered in [World], which
      is passed to every turn, since the page can change between turns.
    - The script runs on one thread.  An [async] function is cut at its
      [await]s: each piece is a function on [State] that either completes
      or hands back a [Pending] continuation, resumed by a later event.
    - Calls to collaborators outside the file are recorded in [effects]. *)

From stdpp Require Import gmap strings list pretty sorting.
From Stdlib Require Import ZArith QArith Ascii.

Local Open Scope string_scope.
Local Open Scope list_scope.
Local Open Scope Z_scope.

(** ** Data *)

Definition Elem := nat.
Definition BoxId := nat.
Definition Options := list (string * string).

(** One recognised region, as returned by the recognition service. *)
Record Region := { ocr : string; tsl : string; box : list Q }.

(** The resolved value of [getOcr]. *)
Record OcrResponse := { result : list Region }.

(** The error object a rejected call carries (axios style). *)
Record Response := { status : Z; data_error : string }.
Record JsErr := { code : option string; response : option Response }.

Inductive Settled (A : Type) : Type :=
| Fulfilled (a : A)
| Rejected (err : JsErr).
Arguments Fulfilled {A} a.
Arguments Rejected {A} err.

(** An overlay node: the div returned by [drawBox], with the properties
    content.js sets on it afterwards. *)
Record Textdiv := {
  innerText : string;
  originalText : option string;       (* undefined until applyOcr sets it *)
  translatedText : option string;
  parentNode : option Elem;           (* the wrapper it is attached to *)
  geometry : list Q;
  max_width : Z;
  max_height : Z;
  fontSize : option string;
  lineHeight : option string;
  clickCopies : option string;        (* text the click listener copies *)
  hasContextMenu : bool
}.

(** Modelled from the spec: [drawBox] of utils/textbox is imported by
    content.js but its source is not in the tree.  Section 6 of the
    specification gives [renderBox({text, box, maxWidth, maxHeight}) ->
    OverlayNode]: a new node, not yet in the document, that shows [text]
    in the given box. *)
Definition drawBox (toWrite : string) (b : list Q) (nw nh : Z) : Textdiv :=
  {| innerText := toWrite; originalText := None; translatedText := None;
     parentNode := None; geometry := b; max_width := nw; max_height := nh;
     fontSize := None; lineHeight := None; clickCopies := None;
     hasContextMenu := false |}.

(** An element of the [images] array: [{img, wrapper, boxes}]. *)
Record Entry := { img : Elem; wrapper : Elem; boxes : list BoxId }.

(** The places where [processImage] and the message listener await. *)
Inductive Pending :=
| AwaitLoad (e : Elem)                                  (* line 225 *)
| AwaitBase64 (e : Elem)                                (* line 248 *)
| AwaitOcr (e : Elem)                                   (* line 263 *)
| AwaitTranslation (text : string) (targetElementId : nat). (* line 450 *)

(** Calls that leave the file. *)
Inductive Effect :=
| base64FromAny_call (e : Elem)
| getOcr_call (md5Hash base64data : string) (options : Options)
| wrapImage_call (e : Elem)
| unwrapImage_call (e : Elem)
| observer_observe
| observer_disconnect
| setInterval_call
| clearInterval_call
| destroyDialog_call
| destroyContextMenu_call
| setEndpoint_call (endpoint : string)
| setLogLevel_call (level : string)
| setProperty_call (name value : string)
| textTranslation_call (text : string)
| set_innerText (e : Elem) (text : string)
| log_error_call.

(** What the script reads from the page and from its imports. *)
Record World := {
  nodeType : Elem → nat;
  tagName : Elem → string;
  complete : Elem → bool;
  width : Elem → Z;
  height : Elem → Z;
  (* node.querySelectorAll('img, canvas'); None when the node has no such
     method *)
  querySelectorAll_img_canvas : Elem → option (list Elem);
  document_img : list Elem;            (* document.querySelectorAll('img') *)
  document_canvas : list Elem;         (* document.querySelectorAll('canvas') *)
  document_img_canvas : list Elem;     (* ...('img, canvas') *)
  getSizes : Elem → option (Z * Z);    (* None: the helper throws *)
  wrapImage : Elem → option (Elem * Elem); (* None: the helper throws *)
  md5 : string → string;
  element_innerText : Elem → string;
  getTargetElement : nat → Elem
}.

Definition ELEMENT_NODE : nat := 1.

(** ** The script's state *)

Record State := {
  OCR : bool;
  OPTIONS : Options;
  showTranslated : bool;
  orientation : option string;
  processedImages : gset Elem;
  processingImages : gset Elem;
  images : list Entry;
  textdivs : gmap BoxId Textdiv;
  nextBox : BoxId;
  loadListeners : gset Elem;           (* elements with onImageReload on 'load' *)
  classList : gset (Elem * string);
  observing : bool;                    (* the MutationObserver is connected *)
  intervals : nat;                     (* live periodicCheck timers *)
  pending : list Pending;
  effects : list Effect                (* most recent first *)
}.

Definition initial : State :=
  {| OCR := false; OPTIONS := []; showTranslated := true;
     orientation := Some "horizontal-tb";
     processedImages := ∅; processingImages := ∅; images := [];
     textdivs := ∅; nextBox := 0%nat; loadListeners := ∅; classList := ∅;
     observing := false; intervals := 0%nat; pending := []; effects := [] |}.

Definition set_OCR (b : bool) (s : State) : State :=
  {| OCR := b; OPTIONS := OPTIONS s; showTranslated := showTranslated s;
     orientation := orientation s; processedImages := processedImages s;
     processingImages := processingImages s; images := images s;
     textdivs := textdivs s; nextBox := nextBox s;
     loadListeners := loadListeners s; classList := classList s;
     observing := observing s; intervals := intervals s;
     pending := pending s; effects := effects s |}.

Definition set_OPTIONS (o : Options) (s : State) : State :=
  {| OCR := OCR s; OPTIONS := o; showTranslated := showTranslated s;
     orientation := orientation s; processedImages := processedImages s;
     processingImages := processingImages s; images := images s;
     textdivs := textdivs s; nextBox := nextBox s;
     loadListeners := loadListeners s; classList := classList s;
     observing := observing s; intervals := intervals s;
     pending := pending s; effects := effects s |}.

Definition set_show (b : bool) (o : option string) (s : State) : State :=
  {| OCR := OCR s; OPTIONS := OPTIONS s; showTranslated := b;
     orientation := o; processedImages := processedImages s;
     processingImages := processingImages s; images := images s;
     textdivs := textdivs s; nextBox := nextBox s;
     loadListeners := loadListeners s; classList := classList s;
     observing := observing s; intervals := intervals s;
     pending := pending s; effects := effects s |}.

Definition upd_processed (f : gset Elem → gset Elem) (s : State) : State :=
  {| OCR := OCR s; OPTIONS := OPTIONS s; showTranslated := showTranslated s;
     orientation := orientation s; processedImages := f (processedImages s);
     processingImages := processingImages s; images := images s;
     textdivs := textdivs s; nextBox := nextBox s;
     loadListeners := loadListeners s; classList := classList s;
     observing := observing s; intervals := intervals s;
     pending := pending s; effects := effects s |}.

Definition upd_processing (f : gset Elem → gset Elem) (s : State) : State :=
  {| OCR := OCR s; OPTIONS := OPTIONS s; showTranslated := showTranslated s;
     orientation := orientation s; processedImages := processedImages s;
     processingImages := f (processingImages s); images := images s;
     textdivs := textdivs s; nextBox := nextBox s;
     loadListeners := loadListeners s; classList := classList s;
     observing := observing s; intervals := intervals s;
     pending := pending s; effects := effects s |}.

Definition upd_images (f : list Entry → list Entry) (s : State) : State :=
  {| OCR := OCR s; OPTIONS := OPTIONS s; showTranslated := showTranslated s;
     orientation := orientation s; processedImages := processedImages s;
     processingImages := processingImages s; images := f (images s);
     textdivs := textdivs s; nextBox := nextBox s;
     loadListeners := loadListeners s; classList := classList s;
     observing := observing s; intervals := intervals s;
     pending := pending s; effects := effects s |}.

Definition upd_textdivs (f : gmap BoxId Textdiv → gmap BoxId Textdiv)
    (s : State) : State :=
  {| OCR := OCR s; OPTIONS := OPTIONS s; showTranslated := showTranslated s;
     orientation := orientation s; processedImages := processedImages s;
     processingImages := processingImages s; images := images s;
     textdivs := f (textdivs s); nextBox := nextBox s;
     loadListeners := loadListeners s; classList := classList s;
     observing := observing s; intervals := intervals s;
     pending := pending s; effects := effects s |}.

Definition set_nextBox (n : BoxId) (s : State) : State :=
  {| OCR := OCR s; OPTIONS := OPTIONS s; showTranslated := showTranslated s;
     orientation := orientation s; processedImages := processedImages s;
     processingImages := processingImages s; images := images s;
     textdivs := textdivs s; nextBox := n;
     loadListeners := loadListeners s; classList := classList s;
     observing := observing s; intervals := intervals s;
     pending := pending s; effects := effects s |}.

Definition upd_loadListeners (f : gset Elem → gset Elem) (s : State) : State :=
  {| OCR := OCR s; OPTIONS := OPTIONS s; showTranslated := showTranslated s;
     orientation := orientation s; processedImages := processedImages s;
     processingImages := processingImages s; images := images s;
     textdivs := textdivs s; nextBox := nextBox s;
     loadListeners := f (loadListeners s); classList := classList s;
     observing := observing s; intervals := intervals s;
     pending := pending s; effects := effects s |}.

Definition upd_classList (f : gset (Elem * string) → gset (Elem * string))
    (s : State) : State :=
  {| OCR := OCR s; OPTIONS := OPTIONS s; showTranslated := showTranslated s;
     orientation := orientation s; processedImages := processedImages s;
     processingImages := processingImages s; images := images s;
     textdivs := textdivs s; nextBox := nextBox s;
     loadListeners := loadListeners s; classList := f (classList s);
     observing := observing s; intervals := intervals s;
     pending := pending s; effects := effects s |}.

Definition set_intervals (n : nat) (s : State) : State :=
  {| OCR := OCR s; OPTIONS := OPTIONS s; showTranslated := showTranslated s;
     orientation := orientation s; processedImages := processedImages s;
     processingImages := processingImages s; images := images s;
     textdivs := textdivs s; nextBox := nextBox s;
     loadListeners := loadListeners s; classList := classList s;
     observing := observing s; intervals := n; pending := pending s;
     effects := effects s |}.

Definition set_observing (b : bool) (s : State) : State :=
  {| OCR := OCR s; OPTIONS := OPTIONS s; showTranslated := showTranslated s;
     orientation := orientation s; processedImages := processedImages s;
     processingImages := processingImages s; images := images s;
     textdivs := textdivs s; nextBox := nextBox s;
     loadListeners := loadListeners s; classList := classList s;
     observing := b; intervals := intervals s; pending := pending s;
     effects := effects s |}.

Definition upd_pending (f : list Pending → list Pending) (s : State) : State :=
  {| OCR := OCR s; OPTIONS := OPTIONS s; showTranslated := showTranslated s;
     orientation := orientation s; processedImages := processedImages s;
     processingImages := processingImages s; images := images s;
     textdivs := textdivs s; nextBox := nextBox s;
     loadListeners := loadListeners s; classList := classList s;
     observing := observing s; intervals := intervals s;
     pending := f (pending s); effects := effects s |}.

Definition emit (e : Effect) (s : State) : State :=
  {| OCR := OCR s; OPTIONS := OPTIONS s; showTranslated := showTranslated s;
     orientation := orientation s; processedImages := processedImages s;
     processingImages := processingImages s; images := images s;
     textdivs := textdivs s; nextBox := nextBox s;
     loadListeners := loadListeners s; classList := classList s;
     observing := observing s; intervals := intervals s;
     pending := pending s; effects := e :: effects s |}.

(** ** Synchronous code that may throw

    [M A] is a piece of synchronous JavaScript: it transforms the state and
    completes normally with a value or abruptly with an exception. *)

Inductive Completion (A : Type) : Type :=
| Normal (a : A)
| Throw.
Arguments Normal {A} a.
Arguments Throw {A}.

Definition M (A : Type) : Type := State → Completion A * State.

#[export] Instance M_ret : MRet M := λ A a s, (Normal a, s).
#[export] Instance M_bind : MBind M := λ A B f m s,
  match m s with
  | (Normal a, s') => f a s'
  | (Throw, s') => (Throw, s')
  end.

Definition throw {A} : M A := λ s, (Throw, s).
Definition gets {A} (f : State → A) : M A := λ s, (Normal (f s), s).
Definition modify (f : State → State) : M unit := λ s, (Normal tt, f s).

(** [try { body } finally { fin }] for a body that does not suspend. *)
Definition tryFinally {A} (body : M A) (fin : State → State) : M A := λ s,
  let '(c, s') := body s in (c, fin s').

(** [xs.forEach(f)]: stops at the first exception. *)
Fixpoint forEach {A} (f : A → M unit) (xs : list A) : M unit :=
  match xs with
  | [] => mret tt
  | x :: xs' => f x ;; forEach f xs'
  end.

(** [xs.forEach(f)] for a callback that cannot throw. *)
Definition forEach_ {A} (f : A → State → State) (xs : list A) (s : State)
    : State :=
  foldl (λ acc x, f x acc) s xs.

(** ** The registry *)

Definition processed_has (el : Elem) (s : State) : bool :=
  bool_decide (el ∈ processedImages s).
Definition processing_has (el : Elem) (s : State) : bool :=
  bool_decide (el ∈ processingImages s).
Definition processed_add (el : Elem) : State → State :=
  upd_processed (λ X, {[el]} ∪ X).
Definition processed_delete (el : Elem) : State → State :=
  upd_processed (λ X, X ∖ {[el]}).
Definition processing_add (el : Elem) : State → State :=
  upd_processing (λ X, {[el]} ∪ X).
Definition processing_delete (el : Elem) : State → State :=
  upd_processing (λ X, X ∖ {[el]}).

(** [box.remove()]: detach the node from its parent. *)
Definition detach (t : Textdiv) : Textdiv :=
  {| innerText := innerText t; originalText := originalText t;
     translatedText := translatedText t; parentNode := None;
     geometry := geometry t; max_width := max_width t;
     max_height := max_height t; fontSize := fontSize t;
     lineHeight := lineHeight t; clickCopies := clickCopies t;
     hasContextMenu := hasContextMenu t |}.

Definition box_remove (b : BoxId) : State → State :=
  upd_textdivs (alter detach b).

(** Assigning a JS value to [innerText]: a DOMString attribute converts
    [undefined] to the string "undefined". *)
Definition toDOMString (v : option string) : string :=
  default "undefined" v.

Definition with_innerText (txt : string) (t : Textdiv) : Textdiv :=
  {| innerText := txt; originalText := originalText t;
     translatedText := translatedText t; parentNode := parentNode t;
     geometry := geometry t; max_width := max_width t;
     max_height := max_height t; fontSize := fontSize t;
     lineHeight := lineHeight t; clickCopies := clickCopies t;
     hasContextMenu := hasContextMenu t |}.

(** [isImageNode], lines 54-57. *)
Definition isImageNode (w : World) (node : Elem) : bool :=
  bool_decide (nodeType w node = ELEMENT_NODE) &&
  (bool_decide (tagName w node = "IMG") ||
   bool_decide (tagName w node = "CANVAS")).

(** [images.splice(idx, 1)]. *)
Definition splice1 {A} (idx : nat) (l : list A) : list A :=
  take idx l ++ drop (S idx) l.

(** [images.forEach((ptr, idx) => ...)] collecting the indices of the
    entries of [node], lines 331-338 (the box removal is [destroy_boxes]). *)
Fixpoint topop_from (node : Elem) (idx : nat) (l : list Entry) : list nat :=
  match l with
  | [] => []
  | ptr :: l' =>
      if bool_decide (img ptr = node)
      then idx :: topop_from node (S idx) l'
      else topop_from node (S idx) l'
  end.

Definition remove_boxes (ptr : Entry) : State → State :=
  forEach_ box_remove (boxes ptr).

Definition destroy_boxes (node : Elem) : State → State := λ s,
  forEach_ (λ ptr acc,
              if bool_decide (img ptr = node) then remove_boxes ptr acc
              else acc) (images s) s.

(** [topop.sort((a, b) => b - a)]. *)
Definition before_desc (a b : nat) : Prop := (b ≤ a)%nat.
#[export] Instance before_desc_dec a b : Decision (before_desc a b) :=
  Nat.le_dec b a.

Definition sort_desc (l : list nat) : list nat :=
  merge_sort before_desc l.

(** [destroyTextboxes], lines 322-345. *)
Definition destroyTextboxes (w : World) (node : Elem) (s : State) : State :=
  let tag := tagName w node in
  if bool_decide (tag ∈ ["IMG"; "CANVAS"]) then
    let s1 := processed_delete node s in
    let s2 := processing_delete node s1 in
    let topop := topop_from node 0 (images s2) in
    let s3 := destroy_boxes node s2 in
    forEach_ (λ idx, upd_images (splice1 idx)) (sort_desc topop) s3
  else s.

(** ** Rendering: applyOcr and applyError *)

Definition getSizes_of (w : World) (el : Elem) : M (Z * Z) :=
  match getSizes w el with
  | Some p => mret p
  | None => throw
  end.

(** A call of [drawBox]: a fresh node enters the heap. *)
Definition new_textdiv (t : Textdiv) : M BoxId := λ s,
  let b := nextBox s in
  (Normal b, set_nextBox (S b) (upd_textdivs (<[b := t]>) s)).

(** Lines 153-162: the properties and listeners [applyOcr] puts on the node,
    and [wrapper.appendChild(textdiv)]. *)
Definition decorate_ocr (r : Region) (wr : Elem) (t : Textdiv) : Textdiv :=
  {| innerText := innerText t; originalText := Some (ocr r);
     translatedText := Some (tsl r); parentNode := Some wr;
     geometry := geometry t; max_width := max_width t;
     max_height := max_height t; fontSize := fontSize t;
     lineHeight := lineHeight t; clickCopies := Some (ocr r);
     hasContextMenu := true |}.

(** Lines 187-189. *)
Definition decorate_error (wr : Elem) (t : Textdiv) : Textdiv :=
  {| innerText := innerText t; originalText := originalText t;
     translatedText := translatedText t; parentNode := Some wr;
     geometry := geometry t; max_width := max_width t;
     max_height := max_height t; fontSize := Some "24px";
     lineHeight := Some "26px"; clickCopies := clickCopies t;
     hasContextMenu := hasContextMenu t |}.

(** [ptr.boxes.push(textdiv)].  [ptr] is the object pushed on [images] at
    the start of the same synchronous function; it is addressed by the index
    it was pushed at. *)
Definition ptr_boxes_push (idx : nat) (b : BoxId) : State → State :=
  upd_images (alter (λ ptr, {| img := img ptr; wrapper := wrapper ptr;
                               boxes := boxes ptr ++ [b] |}) idx).

Definition images_push (ptr : Entry) : State → State :=
  upd_images (λ l, l ++ [ptr]).

(** The callback of [ocr.result.forEach], lines 147-164, for the entry
    pushed at index [idx]. *)
Definition applyOcr_region (w : World) (el wr : Elem) (idx : nat) (r : Region)
    : M unit :=
  '(nw, nh) ← getSizes_of w el;
  st ← gets showTranslated;
  let toWrite := if st : bool then tsl r else ocr r in
  b ← new_textdiv (drawBox toWrite (box r) nw nh);
  modify (upd_textdivs (alter (decorate_ocr r wr) b));;
  modify (ptr_boxes_push idx b).

(** [applyOcr], lines 137-165.  [resp] is [None] when the variable [ocr] of
    [processImage] is still undefined: reading [ocr.result] then throws. *)
Definition applyOcr (w : World) (el wr : Elem) (resp : option OcrResponse)
    : M unit :=
  idx ← gets (λ s, length (images s));
  modify (images_push {| img := el; wrapper := wr; boxes := [] |});;
  match resp with
  | None => throw
  | Some resp => forEach (applyOcr_region w el wr idx) (result resp)
  end.

(** The box of the error overlay, line 183: the centre quadrant.  The
    quotients are exact rationals; the source computes them in double
    precision, which gives the same numbers as long as [3 * nw] and
    [3 * nh] stay below 2^53.  No property below reads the geometry of a
    box. *)
Definition quadrant (nw nh : Z) : list Q :=
  [(inject_Z nw / 4)%Q; (inject_Z nh / 4)%Q;
   (3 * inject_Z nw / 4)%Q; (3 * inject_Z nh / 4)%Q].

(** [applyError], lines 172-191. *)
Definition applyError (w : World) (el wr : Elem) (error : string) : M unit :=
  idx ← gets (λ s, length (images s));
  modify (images_push {| img := el; wrapper := wr; boxes := [] |});;
  '(nw, nh) ← getSizes_of w el;
  b ← new_textdiv (drawBox error (quadrant nw nh) nw nh);
  modify (upd_textdivs (alter (decorate_error wr) b));;
  modify (ptr_boxes_push idx b).

(** ** The pipeline: processImage, lines 203-303 *)

(** How a piece of an [async] function ends when it does not throw. *)
Inductive Step :=
| Suspend (p : Pending)   (* reached an await *)
| Return.                 (* the function returned *)

(** The outer [try { ... } finally { processingImages.delete(img) }] of
    lines 221-302, around a piece of the body: the finalizer runs when the
    piece returns or throws, not when it suspends. *)
Definition finally_processing (el : Elem) (body : M Step) : M Step := λ s,
  match body s with
  | (Normal (Suspend p), s') => (Normal (Suspend p), s')
  | (c, s') => (c, processing_delete el s')
  end.

(** Lines 238-248: the size gate and the call of [base64FromAny]. *)
Definition size_gate (w : World) (el : Elem) : M Step :=
  if (width w el * height w el <? 100 * 100)%Z then mret Return
  else modify (emit (base64FromAny_call el));; mret (Suspend (AwaitBase64 el)).

(** Lines 221-236: the load wait. *)
Definition load_wait (w : World) (el : Elem) : M Step :=
  if bool_decide (tagName w el = "IMG") && negb (complete w el)
  then mret (Suspend (AwaitLoad el))
  else size_gate w el.

(** Lines 203-236, up to the first await. *)
Definition processImage_begin (w : World) (el : Elem) : M Step := λ s,
  if processed_has el s then (Normal Return, s)
  else if processing_has el s then (Normal Return, s)
  else finally_processing el (load_wait w el) (processing_add el s).

(** Resumption after the load wait (line 236 onwards). *)
Definition processImage_loaded (w : World) (el : Elem) : M Step :=
  finally_processing el (size_gate w el).

(** Lines 248-263: [base64FromAny] settled. *)
Definition encoded (w : World) (el : Elem) (r : Settled string) : M Step :=
  match r with
  | Rejected _ => modify (emit log_error_call);; mret Return
  | Fulfilled base64data =>
      let md5Hash := md5 w base64data in
      modify (upd_classList (λ X, {[(el, "ocr-loading")]} ∪ X));;
      opts ← gets OPTIONS;
      modify (emit (getOcr_call md5Hash base64data opts));;
      mret (Suspend (AwaitOcr el))
  end.

Definition processImage_encoded (w : World) (el : Elem) (r : Settled string)
    : M Step :=
  finally_processing el (encoded w el r).

(** Lines 264-274: the catch clause around [getOcr]. *)
Definition catch_getOcr (err : JsErr) : M string :=
  modify (emit log_error_call);;
  if bool_decide (code err = Some "ERR_NETWORK") then mret "Network error"
  else if bool_decide (code err = Some "ERR_BAD_RESPONSE") then
    match response err with
    | None => throw        (* err.response is undefined *)
    | Some r =>
        mret ("Error [" +:+ pretty (status r) +:+ "]: " +:+ data_error r)
    end
  else mret "Unknown error".

(** JS truthiness of the variable [error] (undefined or a string). *)
Definition truthy (error : option string) : bool :=
  match error with
  | Some e => negb (bool_decide (e = ""))
  | None => false
  end.

(** Lines 262-277: [getOcr] settled. The pair is the variables [error] and
    [ocr]. *)
Definition recognised (el : Elem) (r : Settled OcrResponse)
    : M (option string * option OcrResponse) :=
  tryFinally
    (match r with
     | Fulfilled resp => mret (None, Some resp)
     | Rejected err => e ← catch_getOcr err; mret (Some e, None)
     end)
    (upd_classList (λ X, X ∖ {[(el, "ocr-loading")]})).

(** Lines 279-297. *)
Definition render (w : World) (el : Elem)
    (error : option string) (resp : option OcrResponse) : M Step :=
  modify (emit (wrapImage_call el));;
  match wrapImage w el with
  | None => modify (emit log_error_call);; mret Return
  | Some (newImg, wr) =>
      (if truthy error then
         applyError w newImg wr (default "" error);;
         modify (upd_classList (λ X, {[(newImg, "ocr-error")]} ∪ X))
       else
         applyOcr w newImg wr resp;;
         modify (processed_add el));;
      modify (upd_loadListeners (λ X, {[newImg]} ∪ X));;
      mret Return
  end.

Definition processImage_recognised (w : World) (el : Elem)
    (r : Settled OcrResponse) : M Step :=
  finally_processing el
    ('(error, resp) ← recognised el r; render w el error resp).

(** Calling an async function: the caller gets a promise it never awaits;
    a suspended run is parked in [pending], a rejection is dropped. *)
Definition spawn (m : M Step) (s : State) : State :=
  match m s with
  | (Normal (Suspend p), s') => upd_pending (λ l, l ++ [p]) s'
  | (_, s') => s'
  end.

Definition processImage (w : World) (el : Elem) : State → State :=
  spawn (processImage_begin w el).

(** ** Reload, mutation observer *)

(** [onImageReload], lines 309-316. *)
Definition onImageReload (w : World) (target : Elem) (s : State) : State :=
  let s1 := processed_delete target s in
  let s2 := processing_delete target s1 in
  let s3 := destroyTextboxes w target s2 in
  processImage w target s3.

(** [if (!processedImages.has(img)) { processImage(img) }], lines 62-65,
    72-75 and 384-387. *)
Definition process_unprocessed (w : World) (el : Elem) (s : State) : State :=
  if negb (processed_has el s) then processImage w el s else s.

(** [processImagesInSubtree], lines 60-77. *)
Definition processImagesInSubtree (w : World) (root : Elem) (s : State)
    : State :=
  if isImageNode w root then process_unprocessed w root s
  else
    let found := default [] (querySelectorAll_img_canvas w root) in
    forEach_ (process_unprocessed w) found s.

Inductive Mutation :=
| childList (addedNodes removedNodes : list Elem)
| attributes (target : Elem) (attributeName : string)
| characterData (target : Elem).

(** The callback of the MutationObserver, lines 79-121, for one record. *)
Definition on_mutation (w : World) (mutation : Mutation) (s : State) : State :=
  match mutation with
  | childList addedNodes removedNodes =>
      let s1 :=
        forEach_ (λ node acc,
          if bool_decide (nodeType w node = ELEMENT_NODE) then
            if isImageNode w node then processImage w node acc
            else processImagesInSubtree w node acc
          else acc) addedNodes s in
      forEach_ (λ node acc,
        if bool_decide (nodeType w node = ELEMENT_NODE) then
          if isImageNode w node then destroyTextboxes w node acc
          else
            let found := default [] (querySelectorAll_img_canvas w node) in
            forEach_ (destroyTextboxes w) found acc
        else acc) removedNodes s1
  | attributes target attributeName =>
      if isImageNode w target &&
         (bool_decide (attributeName = "src") ||
          bool_decide (attributeName = "data-src"))
      then processImage w target (processed_delete target s)
      else s
  | characterData _ => s
  end.

Definition observer_callback (w : World) (mutations : list Mutation)
    : State → State :=
  forEach_ (on_mutation w) mutations.

(** ** Session controller *)

(** [enableOCR], lines 352-390. *)
Definition enableOCR (w : World) (s : State) : State :=
  if OCR s then s
  else
    let s1 := set_OCR true s in
    let s2 := forEach_ (processImage w) (document_img w) s1 in
    let s3 := forEach_ (processImage w) (document_canvas w) s2 in
    let s4 := set_observing true (emit observer_observe s3) in
    set_intervals (S (intervals s4)) (emit setInterval_call s4).

(** The callback of [setInterval], lines 377-389. *)
Definition periodicCheck (w : World) (s : State) : State :=
  if negb (OCR s) then
    set_intervals (pred (intervals s)) (emit clearInterval_call s)
  else forEach_ (process_unprocessed w) (document_img_canvas w) s.

(** One iteration of the loop of lines 408-419, at index [i]. *)
Definition disable_one (i : nat) (s : State) : State :=
  match images s !! i with
  | None => s                       (* not reached: i < images.length *)
  | Some ptr =>
      let s1 := remove_boxes ptr s in
      let s2 := upd_loadListeners (λ X, X ∖ {[img ptr]}) s1 in
      let s3 := processed_delete (img ptr) s2 in
      let s4 := processing_delete (img ptr) s3 in
      let s5 := emit (unwrapImage_call (img ptr)) s4 in
      upd_images (splice1 i) s5
  end.

(** [var i = images.length; while (i--) { ... }]. *)
Fixpoint disable_loop (i : nat) (s : State) : State :=
  match i with
  | O => s
  | S i' => disable_loop i' (disable_one i' s)
  end.

(** [disableOCR], lines 398-423. *)
Definition disableOCR (s : State) : State :=
  if negb (OCR s) then s
  else
    let s1 := set_OCR false s in
    let s2 := set_observing false (emit observer_disconnect s1) in
    let s3 := disable_loop (length (images s2)) s2 in
    emit destroyContextMenu_call (emit destroyDialog_call s3).

(** ** String.prototype.replace with a string pattern

    Strings are sequences of code units; the algorithm below is the one of
    ECMAScript (String.prototype.replace, StringIndexOf, GetSubstitution)
    for a non-callable replacement and no capture groups. *)

(** [StringIndexOf(s, searchString, 0)]. *)
Fixpoint indexOf (s searchString : string) : option nat :=
  if String.prefix searchString s then Some 0%nat
  else match s with
       | EmptyString => None
       | String _ s' => S <$> indexOf s' searchString
       end.

Definition dollar : ascii := "$"%char.

(** [GetSubstitution] with an empty capture list: [$$], [$&], [$`] and [$']
    are expanded, every other code unit is copied. *)
Fixpoint GetSubstitution (matched preceding following template : string)
    : string :=
  match template with
  | EmptyString => EmptyString
  | String c rest =>
      if bool_decide (c = dollar) then
        match rest with
        | String d rest' =>
            if bool_decide (d = dollar) then
              String dollar (GetSubstitution matched preceding following rest')
            else if bool_decide (d = "`"%char) then
              preceding +:+ GetSubstitution matched preceding following rest'
            else if bool_decide (d = "&"%char) then
              matched +:+ GetSubstitution matched preceding following rest'
            else if bool_decide (d = "'"%char) then
              following +:+ GetSubstitution matched preceding following rest'
            else String c (GetSubstitution matched preceding following rest)
        | EmptyString => String c EmptyString
        end
      else String c (GetSubstitution matched preceding following rest)
  end.

(** [str.replace(searchString, replaceValue)]. *)
Definition replace (str searchString replaceValue : string) : string :=
  match indexOf str searchString with
  | None => str
  | Some position =>
      let preceding := String.substring 0 position str in
      let following :=
        String.substring (position + String.length searchString)
          (String.length str - (position + String.length searchString)) str in
      preceding +:+
      GetSubstitution searchString preceding following replaceValue +:+
      following
  end.

(** ** The message listener, lines 428-486 *)

Inductive Msg :=
| enable_ocr
| disable_ocr
| set_endpoint (endpoint : string)
| set_font_scale (fontScale : string)
| set_textbox_linewidth (linewidth : string)
| set_color (color : list string)
| translate_selection (text : string) (targetElementId : nat)
| show_original_text (o : option string)
| show_translated_text (o : option string)
| set_selected_options (options : Options)
| set_log_level (level : string)
| other_message.

(** [orientation || 'horizontal-tb']. *)
Definition or_horizontal (o : option string) : string :=
  match o with
  | Some v => if bool_decide (v = "") then "horizontal-tb" else v
  | None => "horizontal-tb"
  end.

(** [images.forEach(ptr => ptr.boxes.forEach(box => box.innerText = f(box)))],
    lines 460-464 and 470-474. *)
Definition relabel (f : Textdiv → option string) (s : State) : State :=
  forEach_ (λ ptr,
    forEach_ (λ b,
      upd_textdivs (alter (λ t, with_innerText (toDOMString (f t)) t) b))
      (boxes ptr)) (images s) s.

Definition show_original (o : option string) (s : State) : State :=
  let s1 := set_show false o s in
  let s2 := emit (setProperty_call "--ocr-text-writing-mode"
                    (or_horizontal o)) s1 in
  relabel originalText s2.

Definition show_translated (o : option string) (s : State) : State :=
  let s1 := set_show true o s in
  let s2 := emit (setProperty_call "--ocr-text-writing-mode"
                    (or_horizontal o)) s1 in
  relabel translatedText s2.

Definition onMessage (w : World) (msg : Msg) (s : State) : State :=
  match msg with
  | enable_ocr => enableOCR w s
  | disable_ocr => disableOCR s
  | set_endpoint endpoint => emit (setEndpoint_call endpoint) s
  | set_font_scale fontScale =>
      emit (setProperty_call "--ocr-text-font-scale" fontScale) s
  | set_textbox_linewidth linewidth =>
      emit (setProperty_call "--ocr-textbox-linewidth" (linewidth +:+ "px")) s
  | set_color color =>
      emit (setProperty_call "--ocr-text-color"
              ("rgb(" +:+ String.concat "," color +:+ ")")) s
  | translate_selection text targetElementId =>
      upd_pending (λ l, l ++ [AwaitTranslation text targetElementId])
        (emit (textTranslation_call text) s)
  | show_original_text o => show_original o s
  | show_translated_text o => show_translated o s
  | set_selected_options options => set_OPTIONS options s
  | set_log_level level => emit (setLogLevel_call level) s
  | other_message => s
  end.

(** Lines 452-454: the new text of the target element once the translation
    [res_text] has arrived. *)
Definition translated_innerText (old text res_text : string) : string :=
  replace old text res_text.

Definition translation_done (w : World) (text : string) (targetElementId : nat)
    (r : Settled string) (s : State) : State :=
  match r with
  | Rejected _ => s
  | Fulfilled res_text =>
      let element := getTargetElement w targetElementId in
      emit (set_innerText element
              (translated_innerText (element_innerText w element) text res_text))
           s
  end.

(** ** The event loop *)

Inductive Event :=
| storage_loaded (res_showTranslated : option bool)
                 (res_textOrientation : option string)
                 (res_selectedOptions : option Options)  (* lines 123-127 *)
| message (msg : Msg)
| mutation_records (mutations : list Mutation)
| interval_tick
| load_event (target : Elem)
| load_wait_over (i : nat)
| base64_settled (i : nat) (r : Settled string)
| ocr_settled (i : nat) (r : Settled OcrResponse)
| translation_settled (i : nat) (r : Settled string).

Definition unpark (i : nat) : State → State := upd_pending (delete i).

(** One turn of the event loop. [i] names a parked continuation by its
    position in [pending]. *)
Definition step (w : World) (ev : Event) (s : State) : State :=
  match ev with
  | storage_loaded st o opts =>
      set_OPTIONS (default [] opts)
        (set_show (default true st) (Some (or_horizontal o)) s)
  | message msg => onMessage w msg s
  | mutation_records mutations =>
      if observing s then observer_callback w mutations s else s
  | interval_tick =>
      if bool_decide (intervals s = 0%nat) then s else periodicCheck w s
  | load_event target =>
      if bool_decide (target ∈ loadListeners s) then onImageReload w target s
      else s
  | load_wait_over i =>
      match pending s !! i with
      | Some (AwaitLoad el) => spawn (processImage_loaded w el) (unpark i s)
      | _ => s
      end
  | base64_settled i r =>
      match pending s !! i with
      | Some (AwaitBase64 el) =>
          spawn (processImage_encoded w el r) (unpark i s)
      | _ => s
      end
  | ocr_settled i r =>
      match pending s !! i with
      | Some (AwaitOcr el) =>
          spawn (processImage_recognised w el r) (unpark i s)
      | _ => s
      end
  | translation_settled i r =>
      match pending s !! i with
      | Some (AwaitTranslation text id) =>
          translation_done w text id r (unpark i s)
      | _ => s
      end
  end.

Definition run (w : World) (evs : list Event) (s : State) : State :=
  foldl (λ acc ev, step w ev acc) s evs.

(** ** Notions used by the properties *)

(** A piece of [processImage] has ended the run: it returned or threw. *)
Definition finished (c : Completion Step) : Prop :=
  match c with
  | Normal (Suspend _) => False
  | _ => True
  end.

(** The registry entries owned by an element. *)
Definition entries_of (el : Elem) (s : State) : list Entry :=
  filter (λ ptr, img ptr = el) (images s).

Definition at_most_one_entry (s : State) : Prop :=
  ∀ el, (length (entries_of el s) ≤ 1)%nat.

(** The text an overlay box displays. *)
Definition shown (s : State) (b : BoxId) : option string :=
  innerText <$> textdivs s !! b.

(** The overlay box is in the document (it has a parent). *)
Definition attached (s : State) (b : BoxId) : Prop :=
  ∃ t wr, textdivs s !! b = Some t ∧ parentNode t = Some wr.

(** Every overlay box in the document belongs to a registry entry. *)
Definition boxes_owned (s : State) : Prop :=
  ∀ b, attached s b → ∃ ptr, ptr ∈ images s ∧ b ∈ boxes ptr.

(** The node [applyOcr] leaves in the document for a region, and the one
    [applyError] leaves for an error text. *)
Definition ocr_box (st : bool) (wr : Elem) (nw nh : Z) (r : Region) : Textdiv :=
  decorate_ocr r wr (drawBox (if st then tsl r else ocr r) (box r) nw nh).

Definition error_box (wr : Elem) (nw nh : Z) (error : string) : Textdiv :=
  decorate_error wr (drawBox error (quadrant nw nh) nw nh).

(** Two states agree on everything but the registry entries and the overlay
    nodes. *)
Definition same_session (s s' : State) : Prop :=
  OCR s' = OCR s ∧ OPTIONS s' = OPTIONS s ∧
  showTranslated s' = showTranslated s ∧ orientation s' = orientation s ∧
  processedImages s' = processedImages s ∧
  processingImages s' = processingImages s ∧
  loadListeners s' = loadListeners s ∧ classList s' = classList s ∧
  observing s' = observing s ∧ intervals s' = intervals s ∧
  pending s' = pending s ∧ effects s' = effects s.

(** All overlay boxes the registry knows. *)
Definition registry_boxes (l : list Entry) : list BoxId :=
  concat (boxes <$> l).

(** The replacement text contains a dollar sign. *)
Fixpoint has_dollar (t : string) : bool :=
  match t with
  | EmptyString => false
  | String c t' => bool_decide (c = dollar) || has_dollar t'
  end.

(** The states the script can be in: the event loop run from the initial
    state, on a page that may differ at every turn. *)
Inductive reachable : State → Prop :=
| reachable_initial : reachable initial
| reachable_step w ev s : reachable s → reachable (step w ev s).

(** A synchronous piece keeps a property of the state, however it ends. *)
Definition preserves {A} (P : State → Prop) (m : M A) : Prop :=
  ∀ s c s', P s → m s = (c, s') → P s'.

(** The registry operation [invalidate] of the specification (section 4.1):
    clear both flags.  In the source it is the pair of deletions at lines
    312-313 and 327-328. *)
Definition invalidate (el : Elem) (s : State) : State :=
  processing_delete el (processed_delete el s).

(** The watcher's reaction to a source-attribute change as the specification
    words it (section 4.3): invalidate, then resubmit. *)
Definition spec_src_change (w : World) (target : Elem) (s : State) : State :=
  processImage w target (invalidate target s).

(** A synchronous piece relates the state it starts from to the state it
    leaves, however it ends. *)
Definition keeps {A} (R : State → State → Prop) (m : M A) : Prop :=
  ∀ s c s', m s = (c, s') → R s s'.

(** The processed set is left alone or gains the element [el]. *)
Definition processed_step (el : Elem) (s s' : State) : Prop :=
  processedImages s' = processedImages s ∨
  processedImages s' = {[el]} ∪ processedImages s.

(** No class other than [ocr-loading] is taken off an element. *)
Definition classes_kept (s s' : State) : Prop :=
  ∀ (x : Elem) (c : string),
    c ≠ "ocr-loading" → (x, c) ∈ classList s → (x, c) ∈ classList s'.

(** No element is both processed and processing. *)
Definition flags_disjoint (s : State) : Prop :=
  ∀ x, x ∈ processedImages s → x ∉ processingImages s.

(** The two flag sets do not grow. *)
Definition flags_shrink (s s' : State) : Prop :=
  processedImages s' ⊆ processedImages s ∧
  processingImages s' ⊆ processingImages s.


(** The element a parked continuation of [processImage] works on. *)
Definition run_of (p : Pending) : option Elem :=
  match p with
  | AwaitLoad e | AwaitBase64 e | AwaitOcr e => Some e
  | AwaitTranslation _ _ => None
  end.

(** The parked runs of an element. *)
Definition runs_for (el : Elem) (l : list Pending) : list Pending :=
  filter (λ p, run_of p = Some el) l.

(** Two states have the same parked runs and the same processing flags. *)
Definition same_runs (s s' : State) : Prop :=
  pending s' = pending s ∧ processingImages s' = processingImages s.

(** Single flight for [el]: at most one run is parked, and while one is
    parked the element is marked processing. *)
Definition single_run (el : Elem) (s : State) : Prop :=
  (length (runs_for el (pending s)) ≤ 1)%nat ∧
  (runs_for el (pending s) ≠ [] → el ∈ processingImages s).

(** The mutation record removes no node. *)
Definition removes_nothing (mutation : Mutation) : Prop :=
  match mutation with
  | childList _ removedNodes => removedNodes = []
  | _ => True
  end.


(** The events that never take a processing flag from under a parked run:
    all but a reload, a removal of nodes and disabling the session. *)
Definition keeps_runs (ev : Event) : Prop :=
  match ev with
  | load_event _ => False
  | message disable_ocr => False
  | mutation_records mutations => Forall removes_nothing mutations
  | _ => True
  end.

(** Every overlay box an entry lists is a node under the entry's wrapper,
    allocated before [nextBox], and no box is listed twice. *)
Definition registry_sound (s : State) : Prop :=
  (∀ (ptr : Entry) (b : BoxId), ptr ∈ images s → b ∈ boxes ptr →
     (b < nextBox s)%nat ∧
     ∃ t, textdivs s !! b = Some t ∧ parentNode t = Some (wrapper ptr)) ∧
  NoDup (registry_boxes (images s)).

(** Every element marked processed owns a registry entry. *)
Definition processed_registered (s : State) : Prop :=
  ∀ x, x ∈ processedImages s → ∃ ptr, ptr ∈ images s ∧ img ptr = x.

(** Wrapping keeps the element: [wrapImage(img)] returns [img] itself as
    the first component. *)
Definition wraps_in_place (w : World) : Prop :=
  ∀ el newImg wr, wrapImage w el = Some (newImg, wr) → newImg = el.

(** The two messages that switch the displayed language, lines 456-475. *)
Definition is_toggle (msg : Msg) : Prop :=
  match msg with
  | show_original_text _ | show_translated_text _ => True
  | _ => False
  end.

(** ** A small page for the examples

    Element 1 is a loaded 200x200 image, element 2 a 99x99 canvas, element
    3 an image that is still loading, element 4 a loaded 100x100 image;
    wrapping keeps the element and puts it in wrapper [100 + e]. *)
Definition page : World :=
  {| nodeType := λ _, ELEMENT_NODE;
     tagName := λ e, if bool_decide (e = 2%nat) then "CANVAS" else "IMG";
     complete := λ e, negb (bool_decide (e = 3%nat));
     width := λ e, if bool_decide (e = 2%nat) then 99
                   else if bool_decide (e = 4%nat) then 100 else 200;
     height := λ e, if bool_decide (e = 2%nat) then 99
                    else if bool_decide (e = 4%nat) then 100 else 200;
     querySelectorAll_img_canvas := λ _, Some [];
     document_img := [1%nat];
     document_canvas := [];
     document_img_canvas := [1%nat];
     getSizes := λ _, Some (200, 200);
     wrapImage := λ e, Some (e, (100 + e)%nat);
     md5 := λ d, "md5:" +:+ d;
     element_innerText := λ _, "a b a";
     getTargetElement := λ n, n |}.

(** The same page when the sizing helper throws. *)
Definition unsized_page : World :=
  {| nodeType := nodeType page; tagName := tagName page;
     complete := complete page; width := width page; height := height page;
     querySelectorAll_img_canvas := querySelectorAll_img_canvas page;
     document_img := document_img page;
     document_canvas := document_canvas page;
     document_img_canvas := document_img_canvas page;
     getSizes := λ _, None;
     wrapImage := wrapImage page;
     md5 := md5 page;
     element_innerText := element_innerText page;
     getTargetElement := getTargetElement page |}.

(** A page where element 10 is a div that contains the images 1 and 4. *)
Definition nested_page : World :=
  {| nodeType := nodeType page;
     tagName := λ e, if bool_decide (e = 10%nat) then "DIV" else tagName page e;
     complete := complete page; width := width page; height := height page;
     querySelectorAll_img_canvas :=
       λ e, if bool_decide (e = 10%nat) then Some [1%nat; 4%nat] else Some [];
     document_img := [1%nat; 4%nat];
     document_canvas := [];
     document_img_canvas := [1%nat; 4%nat];
     getSizes := getSizes page;
     wrapImage := wrapImage page;
     md5 := md5 page;
     element_innerText := element_innerText page;
     getTargetElement := getTargetElement page |}.

(** The same page when wrapping puts a copy [50 + e] of the element in
    the wrapper and returns the copy. *)
Definition replacing_page : World :=
  {| nodeType := nodeType page; tagName := tagName page;
     complete := complete page; width := width page; height := height page;
     querySelectorAll_img_canvas := querySelectorAll_img_canvas page;
     document_img := document_img page;
     document_canvas := document_canvas page;
     document_img_canvas := document_img_canvas page;
     getSizes := getSizes page;
     wrapImage := λ e, Some ((50 + e)%nat, (100 + e)%nat);
     md5 := md5 page;
     element_innerText := element_innerText page;
     getTargetElement := getTargetElement page |}.

Definition quota_exceeded : JsErr :=
  {| code := Some "ERR_BAD_RESPONSE";
     response := Some {| status := 500; data_error := "quota exceeded" |} |}.

Definition network_down : JsErr :=
  {| code := Some "ERR_NETWORK"; response := None |}.

Definition no_response : JsErr :=
  {| code := Some "ERR_BAD_RESPONSE"; response := None |}.

Definition one_region : OcrResponse :=
  {| result := [ {| ocr := "A"; tsl := "B";
                    box := [0%Q; 0%Q; 100%Q; 100%Q] |} ] |}.

(** The session is enabled and the run for element 1 waits for [getOcr]. *)
Definition in_flight : State :=
  run page [message enable_ocr; base64_settled 0 (Fulfilled "data")] initial.

(** A recognition error, then the periodic sweep retries the element and
    the service fails again. *)
Definition error_retry : list Event :=
  [ message enable_ocr;
    base64_settled 0 (Fulfilled "data");
    ocr_settled 0 (Rejected network_down);
    interval_tick;
    base64_settled 0 (Fulfilled "data");
    ocr_settled 0 (Rejected network_down) ].

(** A success, then the page swaps the [src] of the image and the rerun
    succeeds too. *)
Definition src_swap : list Event :=
  [ message enable_ocr;
    base64_settled 0 (Fulfilled "data");
    ocr_settled 0 (Fulfilled one_region);
    mutation_records [attributes 1%nat "src"];
    base64_settled 0 (Fulfilled "data2");
    ocr_settled 0 (Fulfilled one_region) ].

(** The session is disabled while the run for element 1 waits for
    [getOcr]. *)
Definition disabled_in_flight : State :=
  step page (message disable_ocr) in_flight.

(** The page swaps the [src] of the image while the run for the old
    source waits for [getOcr]; the result for the old source arrives
    afterwards. *)
Definition stale_swap : list Event :=
  [ message enable_ocr;
    base64_settled 0 (Fulfilled "data");
    mutation_records [attributes 1%nat "src"];
    ocr_settled 0 (Fulfilled one_region) ].

(** On [nested_page] the images 1 and 4 are submitted; recognition
    succeeds for image 1 and fails for image 4, which gets the error
    overlay. *)
Definition overlays_trace : list Event :=
  [ message enable_ocr;
    base64_settled 0 (Fulfilled "d1");
    base64_settled 0 (Fulfilled "d4");
    ocr_settled 0 (Fulfilled one_region);
    ocr_settled 0 (Rejected network_down) ].

(** The two overlays in a session that shows translated text (the
    default), and in one that was switched to original text beforehand. *)
Definition two_overlays : State := run nested_page overlays_trace initial.

Definition two_overlays_original : State :=
  run nested_page (message (show_original_text None) :: overlays_trace)
    initial.

(** ** Basic facts about the registry flags *)

Implicit Types (w : World) (el : Elem) (s : State) (b : BoxId).

(** Unfold the monad operations of a straight-line piece. *)
Tactic Notation "run_m" :=
  cbn; cbv [mbind M_bind mret M_ret modify gets throw tryFinally]; cbn.
Tactic Notation "run_m" "in" hyp(H) :=
  cbn in H; cbv [mbind M_bind mret M_ret modify gets throw tryFinally] in H;
  cbn in H.

Lemma processed_has_true el s : processed_has el s = true ↔ el ∈ processedImages s.
Proof. unfold processed_has. apply bool_decide_eq_true. Qed.

Lemma processed_has_false el s : processed_has el s = false ↔ el ∉ processedImages s.
Proof. unfold processed_has. apply bool_decide_eq_false. Qed.

Lemma processing_has_true el s : processing_has el s = true ↔ el ∈ processingImages s.
Proof. unfold processing_has. apply bool_decide_eq_true. Qed.

Lemma processing_has_false el s : processing_has el s = false ↔ el ∉ processingImages s.
Proof. unfold processing_has. apply bool_decide_eq_false. Qed.

Lemma processing_delete_clears el s : el ∉ processingImages (processing_delete el s).
Proof. cbn. intros [_ H]%elem_of_difference. apply H. by apply elem_of_singleton. Qed.

Lemma processing_add_sets el s : el ∈ processingImages (processing_add el s).
Proof. cbn. apply elem_of_union. left. by apply elem_of_singleton. Qed.

(** The finalizer of [processImage]: when a piece ends the run, the flag is
    gone; when it suspends, the state is the one the piece left. *)
Lemma finally_processing_finished el body s c s' :
  finally_processing el body s = (c, s') → finished c →
  el ∉ processingImages s'.
Proof.
  unfold finally_processing. destruct (body s) as [[[p|]|] s1]; cbn;
    intros [= <- <-] Hf; try done; apply processing_delete_clears.
Qed.

Lemma finally_processing_suspend el body s p s' :
  finally_processing el body s = (Normal (Suspend p), s') ↔
  body s = (Normal (Suspend p), s').
Proof.
  unfold finally_processing. destruct (body s) as [[[q|]|] s1]; cbn;
    split; congruence.
Qed.

(** What the size gate and the load wait do. *)
Lemma size_gate_small w el s :
  width w el * height w el < 10000 →
  size_gate w el s = (Normal Return, s).
Proof.
  intros H. unfold size_gate.
  destruct (Z.ltb_spec (width w el * height w el) (100 * 100)); [done | lia].
Qed.

Lemma size_gate_large w el s :
  10000 ≤ width w el * height w el →
  size_gate w el s =
    (Normal (Suspend (AwaitBase64 el)), emit (base64FromAny_call el) s).
Proof.
  intros H. unfold size_gate.
  destruct (Z.ltb_spec (width w el * height w el) (100 * 100)); [lia | done].
Qed.


Lemma processImage_begin_guarded w el s :
  el ∈ processedImages s ∨ el ∈ processingImages s →
  processImage_begin w el s = (Normal Return, s).
Proof.
  intros H. unfold processImage_begin.
  destruct (processed_has el s) eqn:E1; [done |].
  destruct (processing_has el s) eqn:E2; [done |].
  apply processed_has_false in E1. apply processing_has_false in E2.
  tauto.
Qed.

Lemma processImage_begin_fresh w el s :
  el ∉ processedImages s → el ∉ processingImages s →
  processImage_begin w el s =
    finally_processing el (load_wait w el) (processing_add el s).
Proof.
  intros H1%processed_has_false H2%processing_has_false.
  unfold processImage_begin. by rewrite H1, H2.
Qed.




(** ** The finalizer runs on every exit path *)

Lemma bind_unfold {A B} (m : M A) (f : A → M B) s :
  (m ≫= f) s = match m s with
               | (Normal a, s') => f a s'
               | (Throw, s') => (Throw, s')
               end.
Proof. reflexivity. Qed.

(** The last piece never suspends: after [getOcr] there is no await. *)
Lemma render_finished w el error resp s :
  finished (render w el error resp s).1.
Proof.
  unfold render. rewrite bind_unfold. cbn.
  destruct (wrapImage w el) as [[newImg wr]|]; [| done].
  rewrite !bind_unfold.
  destruct (truthy error).
  - rewrite bind_unfold.
    destruct (applyError _ _ _ _ _) as [[[]|] s1]; done.
  - rewrite bind_unfold.
    destruct (applyOcr _ _ _ _ _) as [[[]|] s1]; done.
Qed.

Lemma processImage_recognised_finished w el r s :
  finished (processImage_recognised w el r s).1.
Proof.
  unfold processImage_recognised, finally_processing.
  rewrite bind_unfold.
  destruct (recognised el r s) as [[[error resp]|] s1]; [| done].
  pose proof (render_finished w el error resp s1) as H.
  destruct (render w el error resp s1) as [[[p|]|] s2]; done.
Qed.

(** The piece after the encoding, when it suspends, waits for [getOcr]. *)
Lemma processImage_encoded_next w el r s p s' :
  processImage_encoded w el r s = (Normal (Suspend p), s') → p = AwaitOcr el.
Proof.
  intros H%finally_processing_suspend. destruct r; run_m in H; congruence.
Qed.

(** C2. On every exit path of [processImage] the processing flag of the
    element is cleared: whichever piece of the run ends it, by a return
    (size gate, encoding failure, wrapping failure, error overlay, success)
    or by an exception, the state it leaves has the element out of
    [processingImages]; and the last piece always ends the run. *)
Theorem processing_cleared_on_exit (w : World) (el : Elem) (s : State) :
  (∀ c s', el ∉ processedImages s → el ∉ processingImages s →
     processImage_begin w el s = (c, s') → finished c →
     el ∉ processingImages s') ∧
  (∀ c s', processImage_loaded w el s = (c, s') → finished c →
     el ∉ processingImages s') ∧
  (∀ r c s', processImage_encoded w el r s = (c, s') → finished c →
     el ∉ processingImages s') ∧
  (∀ r c s', processImage_recognised w el r s = (c, s') →
     finished c ∧ el ∉ processingImages s').
Proof.
  split; [| split; [| split]].
  - intros c s' H1 H2. rewrite processImage_begin_fresh by done.
    apply finally_processing_finished.
  - intros c s'. apply finally_processing_finished.
  - intros r c s'. apply finally_processing_finished.
  - intros r c s' H.
    pose proof (processImage_recognised_finished w el r s) as F.
    rewrite H in F. split; [exact F |].
    exact (finally_processing_finished _ _ _ _ _ H F).
Qed.

Lemma processing_cleared_on_exit_witness :
  (∃ s', processImage_recognised page 1%nat (Rejected no_response) in_flight
           = (Throw, s') ∧ 1%nat ∉ processingImages s') ∧
  (2%nat ∉ processingImages (processImage_begin page 2%nat initial).2) ∧
  (2%nat ∉ processingImages (processImage_loaded page 2%nat initial).2) ∧
  (1%nat ∉ processingImages
     (processImage_encoded page 1%nat (Rejected network_down) in_flight).2).
Proof.
  split; [| split; [| split]].
  - eexists. split.
    + vm_compute. reflexivity.
    + apply (proj2 (proj2 (proj2
        (processing_cleared_on_exit page 1%nat in_flight)))
        (Rejected no_response) Throw).
      vm_compute. reflexivity.
  - apply (proj1 (processing_cleared_on_exit page 2%nat initial)
             (Normal Return)).
    + cbn. apply not_elem_of_empty.
    + cbn. apply not_elem_of_empty.
    + vm_compute. reflexivity.
    + exact I.
  - apply (proj1 (proj2 (processing_cleared_on_exit page 2%nat initial))
             (Normal Return)).
    + vm_compute. reflexivity.
    + exact I.
  - apply (proj1 (proj2 (proj2
             (processing_cleared_on_exit page 1%nat in_flight)))
             (Rejected network_down) (Normal Return)).
    + vm_compute. reflexivity.
    + exact I.
Defined.

(** ** The size gate *)

Lemma processImage_loaded_small w el s :
  width w el * height w el < 10000 →
  processImage_loaded w el s = (Normal Return, processing_delete el s).
Proof.
  intros H. unfold processImage_loaded, finally_processing.
  by rewrite size_gate_small.
Qed.

Lemma processImage_loaded_large w el s :
  10000 ≤ width w el * height w el →
  processImage_loaded w el s =
    (Normal (Suspend (AwaitBase64 el)), emit (base64FromAny_call el) s).
Proof.
  intros H. unfold processImage_loaded, finally_processing.
  by rewrite size_gate_large.
Qed.

(** The first piece in full: what it returns in each case. *)
Lemma processImage_begin_cases w el s :
  processImage_begin w el s =
    if processed_has el s then (Normal Return, s)
    else if processing_has el s then (Normal Return, s)
    else if bool_decide (tagName w el = "IMG") && negb (complete w el)
    then (Normal (Suspend (AwaitLoad el)), processing_add el s)
    else if width w el * height w el <? 100 * 100
    then (Normal Return, processing_delete el (processing_add el s))
    else (Normal (Suspend (AwaitBase64 el)),
          emit (base64FromAny_call el) (processing_add el s)).
Proof.
  unfold processImage_begin, finally_processing, load_wait, size_gate.
  destruct (processed_has el s); [done |].
  destruct (processing_has el s); [done |].
  destruct (bool_decide (tagName w el = "IMG") && negb (complete w el));
    [done |].
  by destruct (width w el * height w el <? 100 * 100).
Qed.

(** C6. Size gate: an element whose displayed area [width * height] is below
    10000 is abandoned before [base64FromAny] is called, whether the gate is
    reached at once or after the load wait; the processed set is left as it
    was and the processing flag is cleared, so a later submission passes the
    guard again.  At 10000 and above the run goes on to the encoding.  In
    particular 99x99 is gated and 100x100 is encoded. *)
Theorem size_gate_threshold (w : World) (el : Elem) (s : State) :
  (width w el * height w el < 10000 →
     processImage_loaded w el s = (Normal Return, processing_delete el s) ∧
     (∀ c s', processImage_begin w el s = (c, s') →
        effects s' = effects s ∧ processedImages s' = processedImages s ∧
        (c = Normal Return ∨ c = Normal (Suspend (AwaitLoad el)))) ∧
     (∀ w', el ∉ processedImages s →
        processImage_begin w' el (processing_delete el s) =
          finally_processing el (load_wait w' el)
            (processing_add el (processing_delete el s)))) ∧
  (10000 ≤ width w el * height w el →
     processImage_loaded w el s =
       (Normal (Suspend (AwaitBase64 el)), emit (base64FromAny_call el) s) ∧
     (el ∉ processedImages s → el ∉ processingImages s →
      bool_decide (tagName w el = "IMG") && negb (complete w el) = false →
      processImage_begin w el s =
        (Normal (Suspend (AwaitBase64 el)),
         emit (base64FromAny_call el) (processing_add el s)))) ∧
  (width w el = 99 → height w el = 99 →
     processImage_loaded w el s = (Normal Return, processing_delete el s)) ∧
  (width w el = 100 → height w el = 100 →
     processImage_loaded w el s =
       (Normal (Suspend (AwaitBase64 el)), emit (base64FromAny_call el) s)).
Proof.
  split; [| split; [| split]].
  - intros Hsmall. split; [by apply processImage_loaded_small |]. split.
    + intros c s'. rewrite processImage_begin_cases.
      destruct (processed_has el s); [intros [= <- <-]; auto |].
      destruct (processing_has el s); [intros [= <- <-]; auto |].
      destruct (bool_decide (tagName w el = "IMG") && negb (complete w el));
        [intros [= <- <-]; auto |].
      destruct (Z.ltb_spec (width w el * height w el) (100 * 100)); [| lia].
      intros [= <- <-]; auto.
    + intros w' Hp. apply processImage_begin_fresh; [done |].
      apply processing_delete_clears.
  - intros Hlarge. split; [by apply processImage_loaded_large |].
    intros H1%processed_has_false H2%processing_has_false H3.
    rewrite processImage_begin_cases, H1, H2, H3.
    destruct (Z.ltb_spec (width w el * height w el) (100 * 100)); [lia | done].
  - intros Hw Hh. apply processImage_loaded_small. rewrite Hw, Hh. lia.
  - intros Hw Hh. apply processImage_loaded_large. rewrite Hw, Hh. lia.
Qed.

Lemma size_gate_threshold_witness :
  processImage_loaded page 2%nat initial
    = (Normal Return, processing_delete 2%nat initial) ∧
  processImage_loaded page 4%nat initial
    = (Normal (Suspend (AwaitBase64 4%nat)),
       emit (base64FromAny_call 4%nat) initial) ∧
  processImage_loaded page 1%nat initial
    = (Normal (Suspend (AwaitBase64 1%nat)),
       emit (base64FromAny_call 1%nat) initial) ∧
  processImage_begin page 2%nat (processing_delete 2%nat initial)
    = finally_processing 2%nat (load_wait page 2%nat)
        (processing_add 2%nat (processing_delete 2%nat initial)).
Proof.
  split; [| split; [| split]].
  - apply (proj1 (proj2 (proj2 (size_gate_threshold page 2%nat initial))));
      reflexivity.
  - apply (proj2 (proj2 (proj2 (size_gate_threshold page 4%nat initial))));
      reflexivity.
  - apply (proj1 (proj2 (size_gate_threshold page 1%nat initial))).
    vm_compute. discriminate.
  - apply (proj1 (size_gate_threshold page 2%nat initial)).
    + vm_compute. reflexivity.
    + cbn. apply not_elem_of_empty.
Defined.

(** ** Registry entries per element *)

(** C3. The registry can hold two entries for one element.  After a
    recognition error the element is not marked processed, so the periodic
    sweep submits it again, and [applyError] pushes a second entry while the
    first is still there; likewise a [src] change after a success clears
    only the processed flag and the rerun pushes a second entry.  (The
    reload handler, by contrast, calls [destroyTextboxes] first.) *)
Theorem duplicate_entries :
  entries_of 1%nat (run page error_retry initial) =
    [ {| img := 1%nat; wrapper := 101%nat; boxes := [0%nat] |};
      {| img := 1%nat; wrapper := 101%nat; boxes := [1%nat] |} ] ∧
  ¬ at_most_one_entry (run page error_retry initial) ∧
  entries_of 1%nat (run page src_swap initial) =
    [ {| img := 1%nat; wrapper := 101%nat; boxes := [0%nat] |};
      {| img := 1%nat; wrapper := 101%nat; boxes := [1%nat] |} ] ∧
  ¬ at_most_one_entry (run page src_swap initial) ∧
  attached (run page src_swap initial) 0%nat ∧
  attached (run page src_swap initial) 1%nat.
Proof.
  assert (E1 : entries_of 1%nat (run page error_retry initial) =
    [ {| img := 1%nat; wrapper := 101%nat; boxes := [0%nat] |};
      {| img := 1%nat; wrapper := 101%nat; boxes := [1%nat] |} ])
    by (vm_compute; reflexivity).
  assert (E2 : entries_of 1%nat (run page src_swap initial) =
    [ {| img := 1%nat; wrapper := 101%nat; boxes := [0%nat] |};
      {| img := 1%nat; wrapper := 101%nat; boxes := [1%nat] |} ])
    by (vm_compute; reflexivity).
  split; [exact E1 |]. split.
  { intros H. specialize (H 1%nat). rewrite E1 in H. cbn in H. lia. }
  split; [exact E2 |]. split.
  { intros H. specialize (H 1%nat). rewrite E2 in H. cbn in H. lia. }
  split; eexists _, _; split; vm_compute; reflexivity.
Qed.

(** ** Source-attribute changes *)

Lemma processing_delete_absent el s :
  el ∉ processingImages s → processing_delete el s = s.
Proof.
  intros H. destruct s. unfold processing_delete, upd_processing. cbn in *.
  f_equal. apply set_eq. intros x.
  rewrite elem_of_difference, elem_of_singleton. split; [tauto |].
  intros Hx. split; [done |]. by intros ->.
Qed.

(** What the handler of lines 112-119 does in terms of the two flags: it
    deletes the element from [processedImages] and calls [processImage];
    [processingImages] is not touched.  With the processing flag clear this
    is invalidate-then-resubmit; with the flag set the call returns at the
    guard and the cleared processed flag is the only change. *)
Lemma src_change_clears_processed (w : World) (target : Elem)
    (attributeName : string) (s : State) :
  isImageNode w target = true →
  attributeName = "src" ∨ attributeName = "data-src" →
  on_mutation w (attributes target attributeName) s
    = processImage w target (processed_delete target s) ∧
  (target ∉ processedImages (processed_delete target s)) ∧
  processingImages (processed_delete target s) = processingImages s ∧
  (target ∉ processingImages s →
     on_mutation w (attributes target attributeName) s
       = spec_src_change w target s) ∧
  (target ∈ processingImages s →
     on_mutation w (attributes target attributeName) s
       = processed_delete target s).
Proof.
  intros Himg Hname.
  assert (E : on_mutation w (attributes target attributeName) s
              = processImage w target (processed_delete target s)).
  { cbn. rewrite Himg.
    destruct Hname as [-> | ->]; reflexivity. }
  split; [exact E |]. split.
  { cbn. intros [_ H]%elem_of_difference. apply H. by apply elem_of_singleton. }
  split; [reflexivity |]. split.
  - intros Hp. rewrite E. unfold spec_src_change, invalidate.
    by rewrite processing_delete_absent.
  - intros Hp. rewrite E. unfold processImage, spawn.
    rewrite processImage_begin_guarded; [done |]. by right.
Qed.

(** C4. A [src] change that arrives while a run for the element is in
    flight neither clears the processing flag nor resubmits the element.
    On [in_flight], where the run for element 1 waits for [getOcr], the
    observer turn leaves the state exactly as it was: the flag stays and no
    run starts.  Invalidate-then-resubmit clears the flag and parks a
    second run there, and so does the reload handler of lines 309-316 on
    the same state.  When the result for the old source arrives afterwards
    (trace [stale_swap]) it is rendered and the element is marked
    processed; the new source has never been encoded (one call of
    [base64FromAny], for the old source) and the periodic sweep leaves the
    element alone. *)
Theorem src_change_during_run :
  step page (mutation_records [attributes 1%nat "src"]) in_flight
    = in_flight ∧
  1%nat ∈ processingImages
            (step page (mutation_records [attributes 1%nat "src"]) in_flight) ∧
  pending (step page (mutation_records [attributes 1%nat "src"]) in_flight)
    = [AwaitOcr 1%nat] ∧
  (1%nat ∉ processingImages (invalidate 1%nat in_flight)) ∧
  pending (spec_src_change page 1%nat in_flight)
    = [AwaitOcr 1%nat; AwaitBase64 1%nat] ∧
  pending (onImageReload page 1%nat in_flight)
    = [AwaitOcr 1%nat; AwaitBase64 1%nat] ∧
  1%nat ∈ processedImages (run page stale_swap initial) ∧
  shown (run page stale_swap initial) 0%nat = Some "B" ∧
  pending (run page stale_swap initial) = [] ∧
  effects (run page stale_swap initial)
    = [ wrapImage_call 1%nat; getOcr_call "md5:data" "data" [];
        setInterval_call; observer_observe; base64FromAny_call 1%nat ] ∧
  step page interval_tick (run page stale_swap initial)
    = run page stale_swap initial.
Proof.
  split; [vm_compute; reflexivity |].
  split; [apply (bool_decide_unpack _); vm_compute; exact I |].
  split; [vm_compute; reflexivity |].
  split.
  { intros H. apply (bool_decide_pack _) in H. vm_compute in H. exact H. }
  split; [vm_compute; reflexivity |].
  split; [vm_compute; reflexivity |].
  split; [apply (bool_decide_unpack _); vm_compute; exact I |].
  split; [vm_compute; reflexivity |].
  split; [vm_compute; reflexivity |].
  split; [vm_compute; reflexivity |].
  vm_compute. reflexivity.
Qed.

(** ** Completion after the session was disabled *)

(** The session is disabled while element 1 waits for recognition; the
    success that arrives afterwards still renders the overlay, adds the
    registry entry and marks the element processed. *)
Lemma late_success_renders :
  OCR disabled_in_flight = false ∧
  images disabled_in_flight = [] ∧
  pending disabled_in_flight = [AwaitOcr 1%nat] ∧
  (let s' := step page (ocr_settled 0 (Fulfilled one_region))
               disabled_in_flight in
   OCR s' = false ∧
   images s' = [ {| img := 1%nat; wrapper := 101%nat; boxes := [0%nat] |} ] ∧
   shown s' 0%nat = Some "B" ∧
   attached s' 0%nat ∧
   1%nat ∈ processedImages s').
Proof.
  repeat (split; [vm_compute; reflexivity |]).
  split; [eexists _, _; split; vm_compute; reflexivity |].
  apply (bool_decide_unpack _). vm_compute. exact I.
Qed.

(** ** What the renderers leave behind *)

Lemma same_session_refl s : same_session s s.
Proof. by repeat split. Qed.

Lemma same_session_trans s1 s2 s3 :
  same_session s1 s2 → same_session s2 s3 → same_session s1 s3.
Proof.
  unfold same_session.
  intros (?&?&?&?&?&?&?&?&?&?&?&?) (?&?&?&?&?&?&?&?&?&?&?&?).
  repeat split; congruence.
Qed.

Section rendering.
Context (w : World) (el wr : Elem) (nw nh : Z).
Hypothesis Hsizes : getSizes w el = Some (nw, nh).

(** One round of the loop of [applyOcr]. *)
Lemma applyOcr_region_run idx r s :
  applyOcr_region w el wr idx r s =
    (Normal tt,
     ptr_boxes_push idx (nextBox s)
       (set_nextBox (S (nextBox s))
          (upd_textdivs
             (<[nextBox s := ocr_box (showTranslated s) wr nw nh r]>) s))).
Proof.
  unfold applyOcr_region, getSizes_of. rewrite Hsizes.
  run_m. unfold new_textdiv. cbn. f_equal.
  unfold ptr_boxes_push, upd_images, upd_textdivs, set_nextBox. cbn.
  f_equal. by rewrite alter_insert_eq.
Qed.

Lemma applyOcr_regions rs : ∀ s l bs,
  images s = l ++ [ {| img := el; wrapper := wr; boxes := bs |} ] →
  ∃ s', forEach (applyOcr_region w el wr (length l)) rs s = (Normal tt, s') ∧
    images s' = l ++ [ {| img := el; wrapper := wr;
                          boxes := bs ++ seq (nextBox s) (length rs) |} ] ∧
    nextBox s' = (nextBox s + length rs)%nat ∧
    (∀ i r, rs !! i = Some r →
       textdivs s' !! (nextBox s + i)%nat
         = Some (ocr_box (showTranslated s) wr nw nh r)) ∧
    (∀ b, ¬ (nextBox s ≤ b < nextBox s + length rs)%nat →
       textdivs s' !! b = textdivs s !! b) ∧
    same_session s s'.
Proof.
  induction rs as [| r rs IH]; intros s l bs Himg.
  - exists s. cbn. rewrite app_nil_r, Nat.add_0_r.
    repeat split; try done.
  - cbn [forEach]. rewrite bind_unfold, applyOcr_region_run.
    set (s1 := ptr_boxes_push _ _ _).
    assert (Himg1 : images s1 =
      l ++ [ {| img := el; wrapper := wr; boxes := bs ++ [nextBox s] |} ]).
    { subst s1. cbn. rewrite Himg.
      by rewrite (alter_app_r_alt _ l _ (length l)),
        Nat.sub_diag by lia. }
    destruct (IH s1 l _ Himg1) as (s' & Hrun & Hi & Hn & Hnew & Hold & Hss).
    exists s'. split; [exact Hrun |].
    assert (Hn1 : nextBox s1 = S (nextBox s)) by done.
    assert (Hst : showTranslated s1 = showTranslated s) by done.
    rewrite Hn1 in *. rewrite Hst in *.
    split. { rewrite Hi, <- app_assoc. done. }
    split. { rewrite Hn. cbn. lia. }
    split.
    { intros [| i] r' Hr.
      - injection Hr as <-. rewrite Nat.add_0_r, Hold by lia.
        subst s1. cbn. apply lookup_insert_eq.
      - cbn in Hr. rewrite <- Nat.add_succ_comm. by apply Hnew. }
    split.
    { intros b Hb. cbn [length] in Hb. rewrite Hold by lia. subst s1. cbn.
      apply lookup_insert_ne. lia. }
    eapply same_session_trans; [| exact Hss]. by repeat split.
Qed.

(** [applyOcr] on a resolved response: one entry, one attached node per
    region, in order, showing the text the session asks for. *)
Lemma applyOcr_run resp s :
  ∃ s', applyOcr w el wr (Some resp) s = (Normal tt, s') ∧
    images s' = images s ++
      [ {| img := el; wrapper := wr;
           boxes := seq (nextBox s) (length (result resp)) |} ] ∧
    nextBox s' = (nextBox s + length (result resp))%nat ∧
    (∀ i r, result resp !! i = Some r →
       textdivs s' !! (nextBox s + i)%nat
         = Some (ocr_box (showTranslated s) wr nw nh r)) ∧
    (∀ b, ¬ (nextBox s ≤ b < nextBox s + length (result resp))%nat →
       textdivs s' !! b = textdivs s !! b) ∧
    same_session s s'.
Proof.
  unfold applyOcr. run_m.
  set (s0 := images_push _ s).
  destruct (applyOcr_regions (result resp) s0 (images s) [])
    as (s' & Hrun & Hi & Hn & Hnew & Hold & Hss); [done |].
  exists s'. split; [exact Hrun |]. done.
Qed.

(** [applyError]: one entry with one attached node showing the error. *)
Lemma applyError_run error s :
  ∃ s', applyError w el wr error s = (Normal tt, s') ∧
    images s' = images s ++
      [ {| img := el; wrapper := wr; boxes := [nextBox s] |} ] ∧
    nextBox s' = S (nextBox s) ∧
    textdivs s' !! nextBox s = Some (error_box wr nw nh error) ∧
    (∀ b, b ≠ nextBox s → textdivs s' !! b = textdivs s !! b) ∧
    same_session s s'.
Proof.
  unfold applyError, getSizes_of. rewrite Hsizes. run_m.
  eexists. split; [reflexivity |]. cbn.
  split. { by rewrite (alter_app_r_alt _ (images s) _ (length (images s))),
             Nat.sub_diag by lia. }
  split; [done |].
  split. { rewrite alter_insert_eq. apply lookup_insert_eq. }
  split. { intros b Hb. rewrite alter_insert_eq. by apply lookup_insert_ne. }
  by repeat split.
Qed.
End rendering.

(** ** Recognition errors and the periodic sweep *)

Lemma catch_getOcr_bad_response (st : Z) (msg : string) s :
  catch_getOcr {| code := Some "ERR_BAD_RESPONSE";
                  response := Some {| status := st; data_error := msg |} |} s
  = (Normal ("Error [" +:+ pretty st +:+ "]: " +:+ msg), emit log_error_call s).
Proof. reflexivity. Qed.

(** The three texts the catch clause produces are non-empty, so [if (error)]
    takes the error branch for each of them. *)
Lemma catch_getOcr_truthy err s e s' :
  catch_getOcr err s = (Normal e, s') →
  truthy (Some e) = true ∧ s' = emit log_error_call s.
Proof.
  unfold catch_getOcr. run_m.
  destruct (bool_decide (code err = Some "ERR_NETWORK")).
  { intros [= <- <-]. done. }
  destruct (bool_decide (code err = Some "ERR_BAD_RESPONSE")).
  - destruct (response err); intros [= <- <-]. done.
  - intros [= <- <-]. done.
Qed.

(** The piece after [getOcr] when the call was rejected, the catch clause
    produced the text [e] and wrapping and sizing succeed. *)
Lemma processImage_recognised_error w el s err e newImg wr nw nh :
  catch_getOcr err s = (Normal e, emit log_error_call s) →
  wrapImage w el = Some (newImg, wr) →
  getSizes w newImg = Some (nw, nh) →
  ∃ s', processImage_recognised w el (Rejected err) s = (Normal Return, s') ∧
    images s' = images s ++
      [ {| img := newImg; wrapper := wr; boxes := [nextBox s] |} ] ∧
    textdivs s' !! nextBox s = Some (error_box wr nw nh e) ∧
    processedImages s' = processedImages s ∧
    (el ∉ processingImages s') ∧
    OCR s' = OCR s ∧
    (newImg, "ocr-error") ∈ classList s' ∧
    newImg ∈ loadListeners s'.
Proof.
  intros Hcatch Hwrap Hsizes.
  destruct (catch_getOcr_truthy _ _ _ _ Hcatch) as [Ht _].
  unfold processImage_recognised, finally_processing.
  rewrite bind_unfold. unfold recognised, tryFinally.
  rewrite bind_unfold, Hcatch. cbn [mret M_ret].
  unfold render. rewrite bind_unfold. cbn [modify]. rewrite Hwrap.
  rewrite !bind_unfold, Ht. cbn [default from_option id].
  rewrite bind_unfold.
  match goal with |- context [applyError w newImg wr e ?s0] =>
    destruct (applyError_run w newImg wr nw nh Hsizes e s0)
      as (s1 & Hrun & Hi & Hn & Hnew & Hold & Hss) end.
  rewrite Hrun. run_m. eexists. split; [reflexivity |].
  destruct Hss as (?&?&?&?&Hp&?&?&?&?&?&?&?).
  cbn in *. repeat split; try done.
  - intros [_ H']%elem_of_difference. apply H'. by apply elem_of_singleton.
  - apply elem_of_union. left. by apply elem_of_singleton.
  - apply elem_of_union. left. by apply elem_of_singleton.
Qed.

(** Submitting an element touches only its own processing flag. *)
Lemma processImage_flags w x s :
  OCR (processImage w x s) = OCR s ∧
  processedImages (processImage w x s) = processedImages s ∧
  ∀ el, el ≠ x →
    (el ∈ processingImages (processImage w x s) ↔ el ∈ processingImages s).
Proof.
  unfold processImage, spawn. rewrite processImage_begin_cases.
  destruct (processed_has x s); [done |].
  destruct (processing_has x s); [done |].
  destruct (bool_decide (tagName w x = "IMG") && negb (complete w x)).
  { cbn. split; [done |]. split; [done |]. intros el Hne.
    rewrite elem_of_union, elem_of_singleton. tauto. }
  destruct (width w x * height w x <? 100 * 100); cbn.
  - split; [done |]. split; [done |]. intros el Hne.
    rewrite elem_of_difference, elem_of_union, elem_of_singleton. tauto.
  - split; [done |]. split; [done |]. intros el Hne.
    rewrite elem_of_union, elem_of_singleton. tauto.
Qed.

Lemma process_unprocessed_flags w x s :
  OCR (process_unprocessed w x s) = OCR s ∧
  processedImages (process_unprocessed w x s) = processedImages s ∧
  ∀ el, el ≠ x →
    (el ∈ processingImages (process_unprocessed w x s)
     ↔ el ∈ processingImages s).
Proof.
  unfold process_unprocessed.
  destruct (negb (processed_has x s)); [apply processImage_flags | done].
Qed.

Lemma sweep_flags w (l : list Elem) : ∀ s,
  processedImages (forEach_ (process_unprocessed w) l s) = processedImages s ∧
  ∀ el, el ∉ l →
    (el ∈ processingImages (forEach_ (process_unprocessed w) l s)
     ↔ el ∈ processingImages s).
Proof.
  unfold forEach_. induction l as [| x l IH]; intros s; [done |].
  cbn [foldl]. destruct (IH (process_unprocessed w x s)) as [IH1 IH2].
  destruct (process_unprocessed_flags w x s) as (_ & F1 & F2).
  split; [by rewrite IH1 |].
  intros el [Hx Hl]%not_elem_of_cons.
  rewrite IH2 by done. by apply F2.
Qed.

(** The sweep reaches an unprocessed element of the document and calls
    [processImage] on it; if no run for it is in flight, the call passes the
    guard and starts a run. *)
Lemma sweep_resubmits w el s (l1 l2 : list Elem) :
  OCR s = true →
  el ∉ processedImages s →
  document_img_canvas w = l1 ++ el :: l2 →
  let acc := forEach_ (process_unprocessed w) l1 s in
  periodicCheck w s
    = forEach_ (process_unprocessed w) l2 (processImage w el acc) ∧
  (el ∉ processingImages s → el ∉ l1 →
   processImage_begin w el acc
     = finally_processing el (load_wait w el) (processing_add el acc)).
Proof.
  intros Hocr Hp Hdoc acc.
  destruct (sweep_flags w l1 s) as [F1 F2]. fold acc in F1, F2.
  split.
  - unfold periodicCheck. rewrite Hocr, Hdoc. cbn [negb].
    unfold forEach_ at 1. rewrite foldl_app. cbn [foldl].
    fold (forEach_ (process_unprocessed w) l1 s). fold acc.
    unfold process_unprocessed at 2.
    assert (E : processed_has el acc = false).
    { apply processed_has_false. by rewrite F1. }
    by rewrite E.
  - intros Hq Hl. apply processImage_begin_fresh.
    + by rewrite F1.
    + by rewrite (F2 el Hl).
Qed.

(** C7. A rejected recognition call with code ERR_BAD_RESPONSE, status 500
    and message "quota exceeded": when wrapping succeeds, the run ends with
    a new entry whose single box is attached to the wrapper and shows
    [Error [500]: quota exceeded]; the processed set is unchanged and the
    processing flag is cleared; and a later sweep over a document that still
    contains the unprocessed element calls [processImage] on it, which
    passes the guard. *)
Theorem quota_exceeded_scenario (w : World) (el newImg wr : Elem) (nw nh : Z)
    (s : State) :
  wrapImage w el = Some (newImg, wr) →
  getSizes w newImg = Some (nw, nh) →
  ∃ s', processImage_recognised w el (Rejected quota_exceeded) s
          = (Normal Return, s') ∧
    images s' = images s ++
      [ {| img := newImg; wrapper := wr; boxes := [nextBox s] |} ] ∧
    shown s' (nextBox s) = Some "Error [500]: quota exceeded" ∧
    attached s' (nextBox s) ∧
    processedImages s' = processedImages s ∧
    (el ∉ processingImages s') ∧
    (∀ w' (l1 l2 : list Elem),
       OCR s = true → el ∉ processedImages s →
       document_img_canvas w' = l1 ++ el :: l2 → el ∉ l1 →
       let acc := forEach_ (process_unprocessed w') l1 s' in
       periodicCheck w' s'
         = forEach_ (process_unprocessed w') l2 (processImage w' el acc) ∧
       processImage_begin w' el acc
         = finally_processing el (load_wait w' el) (processing_add el acc)).
Proof.
  intros Hwrap Hsizes.
  destruct (processImage_recognised_error w el s quota_exceeded
              "Error [500]: quota exceeded" newImg wr nw nh)
    as (s' & Hrun & Hi & Hbox & Hp & Hq & Hocr & _); try done.
  exists s'. split; [exact Hrun |]. split; [exact Hi |].
  split. { unfold shown. by rewrite Hbox. }
  split. { eexists _, wr. split; [exact Hbox | done]. }
  split; [exact Hp |]. split; [exact Hq |].
  intros w' l1 l2 Ho Hnp Hdoc Hl1 acc.
  destruct (sweep_resubmits w' el s' l1 l2) as [S1 S2]; try congruence.
  split; [exact S1 |]. by apply S2.
Qed.

Lemma quota_exceeded_scenario_witness :
  ∃ s', processImage_recognised page 1%nat (Rejected quota_exceeded) in_flight
          = (Normal Return, s') ∧
        shown s' 0%nat = Some "Error [500]: quota exceeded" ∧
        periodicCheck page s' = processImage page 1%nat s'.
Proof.
  destruct (quota_exceeded_scenario page 1%nat 1%nat 101%nat 200 200 in_flight)
    as (s' & Hrun & _ & Hshown & _ & _ & _ & Hsweep);
    [reflexivity | reflexivity |].
  exists s'. split; [exact Hrun |]. split; [exact Hshown |].
  refine (proj1 (Hsweep page [] [] _ _ _ _)).
  - vm_compute. reflexivity.
  - apply (bool_decide_unpack _). vm_compute. exact I.
  - reflexivity.
  - apply not_elem_of_nil.
Defined.

(** ** Recognition success *)

(** The piece after [getOcr] when the call resolved and wrapping and sizing
    succeed. *)
Lemma processImage_recognised_success w el s resp newImg wr nw nh :
  wrapImage w el = Some (newImg, wr) →
  getSizes w newImg = Some (nw, nh) →
  ∃ s', processImage_recognised w el (Fulfilled resp) s = (Normal Return, s') ∧
    images s' = images s ++
      [ {| img := newImg; wrapper := wr;
           boxes := seq (nextBox s) (length (result resp)) |} ] ∧
    (∀ i r, result resp !! i = Some r →
       textdivs s' !! (nextBox s + i)%nat
         = Some (ocr_box (showTranslated s) wr nw nh r)) ∧
    (∀ b, ¬ (nextBox s ≤ b < nextBox s + length (result resp))%nat →
       textdivs s' !! b = textdivs s !! b) ∧
    processedImages s' = {[el]} ∪ processedImages s ∧
    (el ∉ processingImages s') ∧
    OCR s' = OCR s ∧
    showTranslated s' = showTranslated s ∧
    newImg ∈ loadListeners s'.
Proof.
  intros Hwrap Hsizes.
  unfold processImage_recognised, finally_processing.
  rewrite bind_unfold. unfold recognised, tryFinally. cbn [mret M_ret].
  unfold render. rewrite bind_unfold. cbn [modify]. rewrite Hwrap.
  rewrite !bind_unfold. cbn [truthy]. rewrite bind_unfold.
  match goal with |- context [applyOcr w newImg wr (Some resp) ?s0] =>
    destruct (applyOcr_run w newImg wr nw nh Hsizes resp s0)
      as (s1 & Hrun & Hi & Hn & Hnew & Hold & Hss) end.
  rewrite Hrun. run_m. eexists. split; [reflexivity |].
  destruct Hss as (?&?&?&?&Hp&?&?&?&?&?&?&?).
  cbn in *. split; [done |]. split; [done |]. split; [done |].
  split; [by rewrite Hp |]. split.
  { intros [_ H']%elem_of_difference. apply H'. by apply elem_of_singleton. }
  split; [done |]. split; [done |].
  apply elem_of_union. left. by apply elem_of_singleton.
Qed.

(** C9 (as amended). A run in flight is not cancelled by disabling the
    session: the piece that resumes after [getOcr] never reads the session
    flag.  With the session disabled, a recognition success that arrives
    late still wraps the element, appends a registry entry with one attached
    overlay box per region, and marks the element processed; the session
    stays disabled. *)
Theorem late_success_not_cancelled (w : World) (el newImg wr : Elem)
    (nw nh : Z) (resp : OcrResponse) (s : State) :
  OCR s = false →
  wrapImage w el = Some (newImg, wr) →
  getSizes w newImg = Some (nw, nh) →
  ∃ s', processImage_recognised w el (Fulfilled resp) s = (Normal Return, s') ∧
    OCR s' = false ∧
    images s' = images s ++
      [ {| img := newImg; wrapper := wr;
           boxes := seq (nextBox s) (length (result resp)) |} ] ∧
    (∀ i r, result resp !! i = Some r →
       attached s' (nextBox s + i)%nat ∧
       shown s' (nextBox s + i)%nat
         = Some (if showTranslated s then tsl r else ocr r)) ∧
    el ∈ processedImages s'.
Proof.
  intros Hoff Hwrap Hsizes.
  destruct (processImage_recognised_success w el s resp newImg wr nw nh)
    as (s' & Hrun & Hi & Hnew & _ & Hp & _ & Hocr & _); try done.
  exists s'. split; [exact Hrun |]. split; [congruence |].
  split; [exact Hi |]. split.
  - intros i r Hr. specialize (Hnew i r Hr). split.
    + eexists _, wr. split; [exact Hnew | done].
    + exact (f_equal (fmap innerText) Hnew).
  - rewrite Hp. apply elem_of_union. left. by apply elem_of_singleton.
Qed.

Lemma late_success_not_cancelled_witness :
  ∃ s', processImage_recognised page 1%nat (Fulfilled one_region)
          disabled_in_flight = (Normal Return, s') ∧
        OCR s' = false ∧ 1%nat ∈ processedImages s'.
Proof.
  destruct (late_success_not_cancelled page 1%nat 1%nat 101%nat 200 200
              one_region disabled_in_flight)
    as (s' & Hrun & Hoff & _ & _ & Hp);
    [vm_compute; reflexivity | reflexivity | reflexivity |].
  exists s'. split; [exact Hrun |]. split; [exact Hoff | exact Hp].
Defined.

(** ** Loops that alter overlay nodes *)

Lemma upd_textdivs_id s : upd_textdivs (λ m, m) s = s.
Proof. by destruct s. Qed.

(** A loop altering one node per round is one update of the heap. *)
Lemma forEach_alter (g : Textdiv → Textdiv) (bs : list BoxId) : ∀ s,
  forEach_ (λ b, upd_textdivs (alter g b)) bs s
  = upd_textdivs (λ m, foldl (λ m b, alter g b m) m bs) s.
Proof.
  unfold forEach_. induction bs as [| b bs IH]; intros s; cbn [foldl].
  - by rewrite upd_textdivs_id.
  - by rewrite IH.
Qed.

Lemma forEach_entries_alter (g : Textdiv → Textdiv) (l : list Entry) : ∀ s,
  forEach_ (λ ptr, forEach_ (λ b, upd_textdivs (alter g b)) (boxes ptr)) l s
  = upd_textdivs (λ m, foldl (λ m b, alter g b m) m (registry_boxes l)) s.
Proof.
  unfold registry_boxes.
  set (F := λ ptr : Entry, forEach_ (λ b, upd_textdivs (alter g b)) (boxes ptr)).
  induction l as [| ptr l IH]; intros s.
  - cbn. by rewrite upd_textdivs_id.
  - change (forEach_ F (ptr :: l) s) with (forEach_ F l (F ptr s)).
    rewrite IH. subst F. cbn beta. rewrite forEach_alter.
    unfold upd_textdivs. cbn. f_equal. by rewrite foldl_app.
Qed.

(** Altering the nodes of a list with an idempotent function. *)
Lemma foldl_alter_lookup (g : Textdiv → Textdiv) (bs : list BoxId) :
  (∀ t, g (g t) = g t) →
  ∀ (m : gmap BoxId Textdiv) b,
    foldl (λ m b, alter g b m) m bs !! b
    = if bool_decide (b ∈ bs) then g <$> m !! b else m !! b.
Proof.
  intros Hg. induction bs as [| x bs IH]; intros m b; cbn [foldl]; [done |].
  rewrite IH.
  destruct (decide (x = b)) as [-> | Hne].
  - rewrite lookup_alter_eq.
    rewrite (bool_decide_eq_true_2 (b ∈ b :: bs)) by apply list_elem_of_here.
    destruct (bool_decide (b ∈ bs)); [| done].
    destruct (m !! b); cbn; [by rewrite Hg | done].
  - rewrite lookup_alter_ne by done.
    destruct (decide (b ∈ bs)) as [Hin | Hnin].
    + rewrite !bool_decide_eq_true_2; [done | by right | done].
    + rewrite !bool_decide_eq_false_2; [done | | done].
      by intros [? | ?]%elem_of_cons.
Qed.

Lemma elem_of_registry_boxes (l : list Entry) b :
  b ∈ registry_boxes l ↔ ∃ ptr, ptr ∈ l ∧ b ∈ boxes ptr.
Proof.
  unfold registry_boxes. induction l as [| p l IH]; cbn.
  - split; [by intros ?%elem_of_nil | by intros (? & ?%elem_of_nil & _)].
  - rewrite elem_of_app, IH. split.
    + intros [Hb | (ptr & Hptr & Hb)].
      * exists p. split; [apply list_elem_of_here | done].
      * exists ptr. split; [by apply list_elem_of_further | done].
    + intros (ptr & [-> | Hptr]%elem_of_cons & Hb); [by left |].
      right. eauto.
Qed.

(** ** Showing original or translated text *)

Lemma relabel_textdivs (f : Textdiv → option string) s b :
  (∀ txt t, f (with_innerText txt t) = f t) →
  images (relabel f s) = images s ∧
  textdivs (relabel f s) !! b
  = if bool_decide (b ∈ registry_boxes (images s))
    then (λ t, with_innerText (toDOMString (f t)) t) <$> textdivs s !! b
    else textdivs s !! b.
Proof.
  intros Hf. unfold relabel. rewrite forEach_entries_alter. cbn.
  split; [done |]. apply foldl_alter_lookup.
  intros t. by rewrite Hf.
Qed.

Lemma show_original_box o s b t :
  b ∈ registry_boxes (images s) → textdivs s !! b = Some t →
  images (show_original o s) = images s ∧
  textdivs (show_original o s) !! b
    = Some (with_innerText (toDOMString (originalText t)) t).
Proof.
  intros Hb Ht. unfold show_original.
  destruct (relabel_textdivs originalText
    (emit (setProperty_call "--ocr-text-writing-mode" (or_horizontal o))
       (set_show false o s)) b) as [Hi Hl]; [done |].
  split; [exact Hi |]. rewrite Hl. cbn.
  by rewrite bool_decide_eq_true_2, Ht.
Qed.

Lemma show_translated_box o s b t :
  b ∈ registry_boxes (images s) → textdivs s !! b = Some t →
  images (show_translated o s) = images s ∧
  textdivs (show_translated o s) !! b
    = Some (with_innerText (toDOMString (translatedText t)) t).
Proof.
  intros Hb Ht. unfold show_translated.
  destruct (relabel_textdivs translatedText
    (emit (setProperty_call "--ocr-text-writing-mode" (or_horizontal o))
       (set_show true o s)) b) as [Hi Hl]; [done |].
  split; [exact Hi |]. rewrite Hl. cbn.
  by rewrite bool_decide_eq_true_2, Ht.
Qed.

(** The boxes [applyOcr] renders carry an original and a translated text
    (lines 151-152).  For such a box show-original-text followed by
    show-translated-text leaves the translated text displayed, and the
    other order the original text: the pair gives back what the box
    displayed before when the session was showing translated text
    (respectively original text), which is where a round trip starts. *)
Lemma toggle_round_trip (w : World) (s : State) (ptr : Entry) (b : BoxId)
    (t : Textdiv) (original translated : string) (o1 o2 : option string) :
  ptr ∈ images s → b ∈ boxes ptr →
  textdivs s !! b = Some t →
  originalText t = Some original →
  translatedText t = Some translated →
  let s_ot := onMessage w (show_translated_text o2)
                (onMessage w (show_original_text o1) s) in
  let s_to := onMessage w (show_original_text o2)
                (onMessage w (show_translated_text o1) s) in
  shown s_ot b = Some translated ∧
  shown s_to b = Some original ∧
  (shown s_ot b = shown s b ↔ innerText t = translated) ∧
  (shown s_to b = shown s b ↔ innerText t = original).
Proof.
  intros Hptr Hb Ht Ho Htr s_ot s_to.
  assert (Hreg : b ∈ registry_boxes (images s))
    by (apply elem_of_registry_boxes; eauto).
  assert (E1 : shown s_ot b = Some translated).
  { subst s_ot. cbn [onMessage].
    destruct (show_original_box o1 s b t Hreg Ht) as [Hi1 Hl1].
    destruct (show_translated_box o2 (show_original o1 s) b _
                ltac:(by rewrite Hi1) Hl1) as [_ Hl2].
    unfold shown. rewrite Hl2. cbn. by rewrite Htr. }
  assert (E2 : shown s_to b = Some original).
  { subst s_to. cbn [onMessage].
    destruct (show_translated_box o1 s b t Hreg Ht) as [Hi1 Hl1].
    destruct (show_original_box o2 (show_translated o1 s) b _
                ltac:(by rewrite Hi1) Hl1) as [_ Hl2].
    unfold shown. rewrite Hl2. cbn. by rewrite Ho. }
  split; [exact E1 |]. split; [exact E2 |].
  rewrite E1, E2. unfold shown. rewrite Ht. cbn.
  split; split; congruence.
Qed.

Lemma toggle_round_trip_witness :
  shown (onMessage page (show_translated_text None)
           (onMessage page (show_original_text None)
              (run page src_swap initial))) 1%nat = Some "B".
Proof.
  assert (H1 : {| img := 1%nat; wrapper := 101%nat; boxes := [1%nat] |}
               ∈ images (run page src_swap initial)).
  { assert (E : images (run page src_swap initial) =
      [ {| img := 1%nat; wrapper := 101%nat; boxes := [0%nat] |};
        {| img := 1%nat; wrapper := 101%nat; boxes := [1%nat] |} ])
      by (vm_compute; reflexivity).
    rewrite E. apply list_elem_of_further, list_elem_of_here. }
  assert (H2 : 1%nat ∈ boxes {| img := 1%nat; wrapper := 101%nat;
                                boxes := [1%nat] |}).
  { apply list_elem_of_here. }
  assert (H3 : textdivs (run page src_swap initial) !! 1%nat
               = Some (ocr_box true 101%nat 200 200
                         {| ocr := "A"; tsl := "B";
                            box := [0%Q; 0%Q; 100%Q; 100%Q] |})).
  { vm_compute. reflexivity. }
  exact (proj1 (toggle_round_trip page (run page src_swap initial) _ 1%nat _
                  "A" "B" None None H1 H2 H3 eq_refl eq_refl)).
Defined.

(** C8. The error overlay does not survive the round trip.  [applyError]
    (lines 172-191) puts neither [originalText] nor [translatedText] on its
    box, and each toggle assigns that field to [innerText] (lines 462 and
    472).  On [two_overlays], a session showing translated text with the
    recognition box of image 1 and the error box of image 4,
    show-original-text then show-translated-text leaves the recognition
    box displaying "B" as before, and the error box displaying "undefined"
    where it displayed "Network error".  The same happens in the other
    order from a session showing original text. *)
Theorem error_overlay_round_trip :
  images two_overlays
    = [ {| img := 1%nat; wrapper := 101%nat; boxes := [0%nat] |};
        {| img := 4%nat; wrapper := 104%nat; boxes := [1%nat] |} ] ∧
  showTranslated two_overlays = true ∧
  shown two_overlays 0%nat = Some "B" ∧
  shown two_overlays 1%nat = Some "Network error" ∧
  originalText <$> textdivs two_overlays !! 1%nat = Some None ∧
  translatedText <$> textdivs two_overlays !! 1%nat = Some None ∧
  shown (run nested_page [ message (show_original_text None);
                           message (show_translated_text None) ]
           two_overlays) 0%nat = Some "B" ∧
  shown (run nested_page [ message (show_original_text None);
                           message (show_translated_text None) ]
           two_overlays) 1%nat = Some "undefined" ∧
  showTranslated two_overlays_original = false ∧
  shown two_overlays_original 0%nat = Some "A" ∧
  shown two_overlays_original 1%nat = Some "Network error" ∧
  shown (run nested_page [ message (show_translated_text None);
                           message (show_original_text None) ]
           two_overlays_original) 0%nat = Some "A" ∧
  shown (run nested_page [ message (show_translated_text None);
                           message (show_original_text None) ]
           two_overlays_original) 1%nat = Some "undefined".
Proof.
  repeat (split; [vm_compute; reflexivity |]). vm_compute. reflexivity.
Qed.

(** ** Disabling the session *)

Lemma detach_idem t : detach (detach t) = detach t.
Proof. done. Qed.

Lemma remove_boxes_run ptr s :
  remove_boxes ptr s
  = upd_textdivs (λ m, foldl (λ m b, alter detach b m) m (boxes ptr)) s.
Proof. unfold remove_boxes, box_remove. apply forEach_alter. Qed.

(** The teardown loop, run over the whole array. *)
Lemma disable_loop_run (l : list Entry) : ∀ s,
  images s = l →
  let s' := disable_loop (length l) s in
  images s' = [] ∧
  OCR s' = OCR s ∧
  processedImages s' = processedImages s ∖ list_to_set (img <$> l) ∧
  processingImages s' = processingImages s ∖ list_to_set (img <$> l) ∧
  loadListeners s' = loadListeners s ∖ list_to_set (img <$> l) ∧
  effects s' = ((λ ptr, unwrapImage_call (img ptr)) <$> l) ++ effects s ∧
  ∀ b, textdivs s' !! b
       = if bool_decide (b ∈ registry_boxes l)
         then detach <$> textdivs s !! b else textdivs s !! b.
Proof.
  induction l as [| ptr l IH] using rev_ind; intros s Hl.
  - cbn. repeat split; try done; cbn; apply set_eq; intros x;
      rewrite elem_of_difference, elem_of_empty; tauto.
  - cbn zeta. rewrite length_app, Nat.add_comm.
    cbn [length Nat.add disable_loop].
    assert (Hget : images s !! length l = Some ptr).
    { rewrite Hl. by rewrite list_lookup_middle. }
    assert (Hone : disable_one (length l) s =
      upd_images (splice1 (length l))
        (emit (unwrapImage_call (img ptr))
           (processing_delete (img ptr)
              (processed_delete (img ptr)
                 (upd_loadListeners (λ X, X ∖ {[img ptr]})
                    (remove_boxes ptr s)))))).
    { unfold disable_one. by rewrite Hget. }
    rewrite Hone. clear Hone. set (s1 := upd_images _ _).
    assert (Hl1 : images s1 = l).
    { subst s1. cbn. rewrite remove_boxes_run. cbn. rewrite Hl.
      unfold splice1.
      rewrite take_app_length.
      rewrite drop_ge by (rewrite length_app; cbn; lia).
      by rewrite app_nil_r. }
    destruct (IH s1 Hl1) as (Hi & Ho & Hp & Hq & Hr & He & Ht).
    split; [exact Hi |].
    split. { rewrite Ho. subst s1. cbn. by rewrite remove_boxes_run. }
    rewrite fmap_app, list_to_set_app_L. cbn [fmap list_fmap list_to_set].
    split.
    { rewrite Hp. subst s1. cbn. rewrite remove_boxes_run. cbn.
      apply set_eq. intros x.
      rewrite !elem_of_difference, elem_of_union, elem_of_union,
        elem_of_singleton, elem_of_empty. tauto. }
    split.
    { rewrite Hq. subst s1. cbn. rewrite remove_boxes_run. cbn.
      apply set_eq. intros x.
      rewrite !elem_of_difference, elem_of_union, elem_of_union,
        elem_of_singleton, elem_of_empty. tauto. }
    split.
    { rewrite Hr. subst s1. cbn. rewrite remove_boxes_run. cbn.
      apply set_eq. intros x.
      rewrite !elem_of_difference, elem_of_union, elem_of_union,
        elem_of_singleton, elem_of_empty. tauto. }
    split.
    { rewrite He. subst s1. cbn. rewrite remove_boxes_run. cbn.
      by rewrite fmap_app, <- app_assoc. }
    intros b. rewrite Ht. subst s1. cbn. rewrite remove_boxes_run. cbn.
    rewrite (foldl_alter_lookup detach (boxes ptr) detach_idem).
    unfold registry_boxes. rewrite fmap_app, concat_app. cbn.
    rewrite app_nil_r.
    destruct (decide (b ∈ concat (boxes <$> l))) as [H1 | H1];
      destruct (decide (b ∈ boxes ptr)) as [H2 | H2].
    + rewrite !bool_decide_eq_true_2; try done.
      * by destruct (textdivs s !! b).
      * apply elem_of_app. by left.
    + rewrite (bool_decide_eq_true_2 _ H1), (bool_decide_eq_false_2 _ H2).
      rewrite bool_decide_eq_true_2; [done |]. apply elem_of_app. by left.
    + rewrite (bool_decide_eq_false_2 _ H1), (bool_decide_eq_true_2 _ H2).
      rewrite bool_decide_eq_true_2; [done |]. apply elem_of_app. by right.
    + rewrite (bool_decide_eq_false_2 _ H1), (bool_decide_eq_false_2 _ H2).
      rewrite bool_decide_eq_false_2; [done |].
      by intros [? | ?]%elem_of_app.
Qed.

(** What [disableOCR] does to an enabled session. *)
Lemma disableOCR_enabled s :
  OCR s = true →
  OCR (disableOCR s) = false ∧
  images (disableOCR s) = [] ∧
  (∀ ptr, ptr ∈ images s →
     (img ptr ∉ processedImages (disableOCR s)) ∧
     (img ptr ∉ processingImages (disableOCR s)) ∧
     (img ptr ∉ loadListeners (disableOCR s)) ∧
     unwrapImage_call (img ptr) ∈ effects (disableOCR s) ∧
     ∀ b, b ∈ boxes ptr → ¬ attached (disableOCR s) b) ∧
  (boxes_owned s → ∀ b, ¬ attached (disableOCR s) b) ∧
  observer_disconnect ∈ effects (disableOCR s).
Proof.
  intros H. unfold disableOCR. rewrite H. cbn [negb].
  set (s2 := set_observing false
               (emit observer_disconnect (set_OCR false s))).
  destruct (disable_loop_run (images s2) s2 eq_refl)
    as (Hi & Ho & Hp & Hq & Hr & He & Ht).
  set (s3 := disable_loop (length (images s2)) s2) in *.
  change (images s2) with (images s) in *.
  assert (Hdet : ∀ b, b ∈ registry_boxes (images s) → ¬ attached
            (emit destroyContextMenu_call (emit destroyDialog_call s3)) b).
  { intros b Hb (t & wr & Hlook & Hpar). cbn in Hlook.
    rewrite Ht, (bool_decide_eq_true_2 _ Hb) in Hlook.
    change (textdivs s2) with (textdivs s) in Hlook.
    destruct (textdivs s !! b); cbn in Hlook; [| done].
    injection Hlook as <-. done. }
  split; [exact Ho |]. split; [exact Hi |]. split.
  { intros ptr Hptr.
    assert (Hin : img ptr ∈ (list_to_set (img <$> images s) : gset Elem)).
    { apply elem_of_list_to_set, list_elem_of_fmap. eauto. }
    split. { cbn. rewrite Hp. intros [_ ?]%elem_of_difference. done. }
    split. { cbn. rewrite Hq. intros [_ ?]%elem_of_difference. done. }
    split. { cbn. rewrite Hr. intros [_ ?]%elem_of_difference. done. }
    split.
    { cbn. rewrite He. do 2 apply list_elem_of_further.
      apply elem_of_app. left.
      apply (list_elem_of_fmap_2 (λ p, unwrapImage_call (img p))).
      exact Hptr. }
    intros b Hb. apply Hdet, elem_of_registry_boxes. eauto. }
  split.
  { intros Hown b Hatt.
    destruct (decide (b ∈ registry_boxes (images s))) as [Hb | Hb].
    - by apply (Hdet b Hb).
    - apply Hb, elem_of_registry_boxes, Hown.
      destruct Hatt as (t & wr & Hlook & Hpar). cbn in Hlook.
      rewrite Ht, (bool_decide_eq_false_2 _ Hb) in Hlook.
      by exists t, wr. }
  cbn. rewrite He. do 2 apply list_elem_of_further.
  apply elem_of_app. right. apply list_elem_of_here.
Qed.

(** ** Replacing the selected text *)

Lemma sapp_nil (b : string) : "" +:+ b = b.
Proof. reflexivity. Qed.

Lemma sapp_cons (c : ascii) (a b : string) :
  String c a +:+ b = String c (a +:+ b).
Proof. reflexivity. Qed.

Lemma prefix_split (p s : string) :
  String.prefix p s = true ↔ ∃ rest, s = p +:+ rest.
Proof.
  revert s. induction p as [| c p IH]; intros s.
  - split; [intros _; by exists s | by destruct s].
  - destruct s as [| d s]; cbn.
    + split; [done | by intros [rest [=]]].
    + destruct (Ascii.ascii_dec c d) as [-> | Hne].
      * rewrite IH. split; intros [rest H]; exists rest;
          rewrite sapp_cons in *; congruence.
      * split; [done | intros [rest H]; rewrite sapp_cons in H; congruence].
Qed.

Lemma string_app_length (a b : string) :
  String.length (a +:+ b) = (String.length a + String.length b)%nat.
Proof.
  induction a as [| c a IH]; [done |]. rewrite sapp_cons. cbn. by rewrite IH.
Qed.

Lemma substring_all (s : string) :
  String.substring 0 (String.length s) s = s.
Proof. induction s as [| c s IH]; cbn; [done | by rewrite IH]. Qed.

Lemma substring_prefix (a b : string) :
  String.substring 0 (String.length a) (a +:+ b) = a.
Proof.
  induction a as [| c a IH]; [by destruct b |].
  rewrite sapp_cons. cbn. by rewrite IH.
Qed.

Lemma substring_skip (a b : string) (n m : nat) :
  String.substring (String.length a + n) m (a +:+ b) = String.substring n m b.
Proof.
  induction a as [| c a IH]; [done |]. rewrite sapp_cons. cbn. by rewrite IH.
Qed.

(** [indexOf] finds the first occurrence. *)
Lemma indexOf_Some (s pat : string) : ∀ n,
  indexOf s pat = Some n →
  ∃ pre post, s = pre +:+ pat +:+ post ∧ String.length pre = n ∧
    ∀ p f, s = p +:+ pat +:+ f → (n ≤ String.length p)%nat.
Proof.
  induction s as [| c s IH]; intros n; cbn [indexOf].
  - destruct (String.prefix pat "") eqn:E; [| done].
    intros [= <-]. apply prefix_split in E as [rest E].
    exists "", rest. repeat split; [done | intros; lia].
  - destruct (String.prefix pat (String c s)) eqn:E.
    + intros [= <-]. apply prefix_split in E as [rest E].
      exists "", rest. repeat split; [done | intros; lia].
    + destruct (indexOf s pat) as [k |] eqn:Ek; [| done].
      cbn. intros [= <-].
      destruct (IH k eq_refl) as (pre & post & Hs & Hlen & Hfirst).
      exists (String c pre), post. rewrite sapp_cons.
      split; [by rewrite Hs |].
      split; [cbn; by rewrite Hlen |].
      intros p f Hp. destruct p as [| d p].
      * rewrite sapp_nil in Hp.
        assert (String.prefix pat (String c s) = true)
          by (apply prefix_split; eauto).
        congruence.
      * rewrite sapp_cons in Hp. injection Hp as -> Hp.
        apply Hfirst in Hp. cbn. lia.
Qed.

Lemma indexOf_None (s pat : string) :
  indexOf s pat = None → ∀ p f, s ≠ p +:+ pat +:+ f.
Proof.
  induction s as [| c s IH]; cbn [indexOf].
  - destruct (String.prefix pat "") eqn:E; [done |].
    intros _ p f Hp. destruct p; [| done]. rewrite sapp_nil in Hp.
    assert (String.prefix pat "" = true) by (apply prefix_split; eauto).
    congruence.
  - destruct (String.prefix pat (String c s)) eqn:E; [done |].
    destruct (indexOf s pat) eqn:Ek; [done |].
    intros _ p f Hp. destruct p as [| d p].
    + rewrite sapp_nil in Hp.
      assert (String.prefix pat (String c s) = true)
        by (apply prefix_split; eauto).
      congruence.
    + rewrite sapp_cons in Hp. injection Hp as -> Hp.
      by apply (IH eq_refl p f).
Qed.

(** Without a dollar sign the replacement text is inserted as it is. *)
Lemma GetSubstitution_plain (matched preceding following template : string) :
  has_dollar template = false →
  GetSubstitution matched preceding following template = template.
Proof.
  induction template as [| c t IH]; cbn; [done |].
  destruct (bool_decide (c = dollar)); cbn; [done |].
  intros H. by rewrite IH.
Qed.

Lemma replace_at (pre pat post rep : string) :
  indexOf (pre +:+ pat +:+ post) pat = Some (String.length pre) →
  replace (pre +:+ pat +:+ post) pat rep
  = pre +:+ GetSubstitution pat pre post rep +:+ post.
Proof.
  intros H. unfold replace. rewrite H.
  rewrite substring_prefix.
  rewrite substring_skip.
  rewrite !string_app_length.
  replace (String.length pre + (String.length pat + String.length post)
           - (String.length pre + String.length pat))%nat
    with (String.length post) by lia.
  pose proof (substring_skip pat post 0 (String.length post)) as E.
  rewrite Nat.add_0_r, substring_all in E. by rewrite E.
Qed.

(** [replace] with a string pattern touches the first occurrence only. *)
Lemma replace_first_only (old text res_text : string) :
  (∀ n, indexOf old text = Some n →
     ∃ preceding following,
       old = preceding +:+ text +:+ following ∧
       String.length preceding = n ∧
       (∀ p f, old = p +:+ text +:+ f → (n ≤ String.length p)%nat) ∧
       translated_innerText old text res_text
         = preceding +:+ GetSubstitution text preceding following res_text
             +:+ following ∧
       (has_dollar res_text = false →
        translated_innerText old text res_text
          = preceding +:+ res_text +:+ following)) ∧
  (indexOf old text = None →
     translated_innerText old text res_text = old ∧
     ∀ p f, old ≠ p +:+ text +:+ f).
Proof.
  split.
  - intros n Hn.
    destruct (indexOf_Some old text n Hn) as (pre & post & Hs & Hlen & Hfirst).
    exists pre, post. split; [exact Hs |]. split; [exact Hlen |].
    split; [exact Hfirst |].
    assert (E : translated_innerText old text res_text
                = pre +:+ GetSubstitution text pre post res_text +:+ post).
    { unfold translated_innerText. subst old. apply replace_at.
      by rewrite Hn, Hlen. }
    split; [exact E |].
    intros Hd. by rewrite E, GetSubstitution_plain.
  - intros Hn. split.
    + unfold translated_innerText, replace. by rewrite Hn.
    + by apply indexOf_None.
Qed.

(** The translate-selection message parks the listener at its [await],
    after the call of [textTranslation]. *)
Lemma translate_selection_parks w text targetElementId s :
  step w (message (translate_selection text targetElementId)) s
  = upd_pending (λ l, l ++ [AwaitTranslation text targetElementId])
      (emit (textTranslation_call text) s).
Proof. reflexivity. Qed.

(** Resuming the listener parked last: the continuation is taken off and,
    when the translation arrived, the element's text is written once. *)
Lemma translation_settled_last w w' text targetElementId r s :
  step w' (translation_settled (length (pending s)) r)
    (step w (message (translate_selection text targetElementId)) s)
  = match r with
    | Rejected _ => emit (textTranslation_call text) s
    | Fulfilled res_text =>
        let element := getTargetElement w' targetElementId in
        emit (set_innerText element
                (translated_innerText (element_innerText w' element)
                   text res_text))
          (emit (textTranslation_call text) s)
    end.
Proof.
  rewrite translate_selection_parks. cbn [step].
  change (pending (upd_pending _ (emit _ s)))
    with (pending s ++ [AwaitTranslation text targetElementId]).
  rewrite list_lookup_middle by done.
  assert (E : unpark (length (pending s))
                (upd_pending (λ l, l ++ [AwaitTranslation text targetElementId])
                   (emit (textTranslation_call text) s))
              = emit (textTranslation_call text) s).
  { destruct s. unfold unpark, upd_pending, emit. cbn. f_equal.
    rewrite delete_middle. apply app_nil_r. }
  rewrite E. by destruct r.
Qed.

(** C10. The translate-selection command replaces the first occurrence of
    the selected text only.  The message calls [textTranslation] and parks
    the listener; when the translation arrives (the page may have changed
    in between: [w'] is the page at that turn) the listener writes the text
    of the target element exactly once, and what it writes is the text the
    element has at that moment with the first occurrence of the selection
    replaced: what precedes the first occurrence, then the substitution,
    then everything that followed that occurrence, unchanged (later
    occurrences included).  The substitution is the translation itself
    when it has no dollar sign.  When the selection does not occur the
    text is written back as it is, and when the translation call fails
    nothing is written. *)
Theorem translate_selection_first_only (w w' : World) (s : State)
    (text res_text : string) (targetElementId : nat) :
  let element := getTargetElement w' targetElementId in
  let old := element_innerText w' element in
  let s1 := step w (message (translate_selection text targetElementId)) s in
  let s2 := step w' (translation_settled (length (pending s))
                       (Fulfilled res_text)) s1 in
  effects s1 = textTranslation_call text :: effects s ∧
  pending s1 = pending s ++ [AwaitTranslation text targetElementId] ∧
  pending s2 = pending s ∧
  effects s2
    = set_innerText element (translated_innerText old text res_text)
        :: effects s1 ∧
  (∀ n, indexOf old text = Some n →
     ∃ preceding following,
       old = preceding +:+ text +:+ following ∧
       String.length preceding = n ∧
       (∀ p f, old = p +:+ text +:+ f → (n ≤ String.length p)%nat) ∧
       effects s2
         = set_innerText element
             (preceding +:+
              GetSubstitution text preceding following res_text +:+
              following) :: effects s1 ∧
       (has_dollar res_text = false →
        effects s2
          = set_innerText element (preceding +:+ res_text +:+ following)
              :: effects s1)) ∧
  (indexOf old text = None →
     effects s2 = set_innerText element old :: effects s1 ∧
     ∀ p f, old ≠ p +:+ text +:+ f) ∧
  (∀ err,
     effects (step w' (translation_settled (length (pending s))
                         (Rejected err)) s1) = effects s1).
Proof.
  intros element old s1 s2.
  assert (E2 : s2 = emit (set_innerText element
                            (translated_innerText old text res_text))
                      (emit (textTranslation_call text) s)).
  { subst s2 s1. by rewrite (translation_settled_last w w'). }
  assert (E1 : effects s1 = textTranslation_call text :: effects s)
    by reflexivity.
  assert (Hw : effects s2
               = set_innerText element (translated_innerText old text res_text)
                   :: effects s1).
  { rewrite E2, E1. reflexivity. }
  split; [exact E1 |]. split; [reflexivity |].
  split; [by rewrite E2 |]. split; [exact Hw |].
  destruct (replace_first_only old text res_text) as [Hsome Hnone].
  split; [| split].
  - intros n Hn.
    destruct (Hsome n Hn) as (pre & post & Hs & Hlen & Hfirst & Hr & Hplain).
    exists pre, post. split; [exact Hs |]. split; [exact Hlen |].
    split; [exact Hfirst |]. split.
    + by rewrite Hw, Hr.
    + intros Hd. by rewrite Hw, (Hplain Hd).
  - intros Hn. destruct (Hnone Hn) as [Hr Hno].
    split; [by rewrite Hw, Hr | exact Hno].
  - intros err. subst s1. by rewrite (translation_settled_last w w').
Qed.

(** On [page] the target element reads "a b a": translating the selection
    "a" to "X" writes "X b a", and a selection that does not occur writes
    the text back. *)
Lemma translate_selection_first_only_witness :
  effects (run page [ message (translate_selection "a" 7);
                      translation_settled 0 (Fulfilled "X") ] initial)
    = [ set_innerText 7%nat "X b a"; textTranslation_call "a" ] ∧
  effects (run page [ message (translate_selection "c" 7);
                      translation_settled 0 (Fulfilled "X") ] initial)
    = [ set_innerText 7%nat "a b a"; textTranslation_call "c" ].
Proof.
  split.
  - destruct (translate_selection_first_only page page initial "a" "X" 7)
      as (_ & _ & _ & _ & Hsome & _).
    destruct (Hsome 0%nat eq_refl)
      as (pre & post & Hs & Hlen & _ & _ & Hplain).
    destruct pre; [| discriminate Hlen].
    change (element_innerText page (getTargetElement page 7)) with "a b a"
      in Hs.
    rewrite sapp_nil, sapp_cons, sapp_nil in Hs. injection Hs as <-.
    exact (Hplain eq_refl).
  - destruct (translate_selection_first_only page page initial "c" "X" 7)
      as (_ & _ & _ & _ & _ & Hnone & _).
    exact (proj1 (Hnone eq_refl)).
Defined.

(** ** Removing the entries of an element *)

#[export] Instance before_desc_trans : Transitive before_desc.
Proof. unfold before_desc. intros x y z ??. lia. Qed.

#[export] Instance before_desc_antisym : AntiSymm (=) before_desc.
Proof. unfold before_desc. intros x y ??. lia. Qed.

#[export] Instance before_desc_total : Total before_desc.
Proof. unfold before_desc. intros x y. lia. Qed.

Lemma topop_from_app node (a c : list Entry) : ∀ k,
  topop_from node k (a ++ c)
  = topop_from node k a ++ topop_from node (k + length a) c.
Proof.
  induction a as [| ptr a IH]; intros k; cbn.
  - by rewrite Nat.add_0_r.
  - rewrite IH, <- Nat.add_succ_comm. by destruct (bool_decide (img ptr = node)).
Qed.

(** The indices are collected in increasing order. *)
Lemma topop_from_sorted node (l : list Entry) : ∀ k,
  Sorted le (topop_from node k l) ∧
  Forall (λ i, (k ≤ i)%nat) (topop_from node k l).
Proof.
  induction l as [| ptr l IH]; intros k; cbn.
  - split; constructor.
  - destruct (IH (S k)) as [Hs Hf].
    assert (Hf' : Forall (λ i, (k ≤ i)%nat) (topop_from node (S k) l)).
    { eapply Forall_impl; [exact Hf |]. cbn. intros; lia. }
    destruct (bool_decide (img ptr = node)); [| done].
    split.
    + constructor; [done |].
      destruct Hf as [| i rest Hi _]; constructor. lia.
    + by constructor.
Qed.

(** Sorting the indices in descending order reverses them. *)
Lemma sort_desc_topop node (l : list Entry) :
  sort_desc (topop_from node 0 l) = reverse (topop_from node 0 l).
Proof.
  unfold sort_desc. apply (Sorted_unique before_desc).
  - apply Sorted_merge_sort, _.
  - apply (Sorted_reverse le), topop_from_sorted.
  - by rewrite merge_sort_Permutation, reverse_Permutation.
Qed.

Lemma splice1_last {A} (l c : list A) (x : A) :
  splice1 (length l) (l ++ x :: c) = l ++ c.
Proof.
  unfold splice1. rewrite take_app_length, drop_app_ge by lia.
  by replace (S (length l) - length l)%nat with 1%nat by lia.
Qed.

(** Splicing out the collected indices, highest first, leaves exactly the
    entries of the other elements, in order. *)
Lemma splice_topop node (l : list Entry) : ∀ c,
  foldl (λ acc idx, splice1 idx acc) (l ++ c) (reverse (topop_from node 0 l))
  = filter (λ ptr, img ptr ≠ node) l ++ c.
Proof.
  induction l as [| ptr l IH] using rev_ind; intros c; [done |].
  rewrite topop_from_app, filter_app. cbn [topop_from Nat.add].
  rewrite <- app_assoc. cbn [app].
  destruct (decide (img ptr = node)) as [E | E].
  - rewrite (bool_decide_eq_true_2 _ E), reverse_app. cbn [reverse foldl app].
    change (reverse [length l]) with [length l]. cbn [app foldl].
    rewrite splice1_last, IH.
    rewrite filter_cons_False by (intros H; by apply H).
    by rewrite filter_nil, app_nil_r.
  - rewrite (bool_decide_eq_false_2 _ E), app_nil_r, IH.
    rewrite filter_cons_True by done.
    by rewrite filter_nil, <- app_assoc.
Qed.

Lemma forEach_splice (idxs : list nat) : ∀ s,
  forEach_ (λ idx, upd_images (splice1 idx)) idxs s
  = upd_images (λ l, foldl (λ acc idx, splice1 idx acc) l idxs) s.
Proof.
  unfold forEach_. induction idxs as [| i idxs IH]; intros s; cbn [foldl].
  - by destruct s.
  - by rewrite IH.
Qed.

Lemma destroy_boxes_run node s :
  destroy_boxes node s
  = upd_textdivs
      (λ m, foldl (λ m b, alter detach b m) m
              (registry_boxes (filter (λ ptr, img ptr = node) (images s)))) s.
Proof.
  unfold destroy_boxes.
  rewrite <- (forEach_entries_alter detach).
  generalize (images s) as l. intros l. revert s.
  unfold forEach_ at 1 3.
  induction l as [| ptr l IH]; intros s; [done |].
  cbn [foldl]. destruct (decide (img ptr = node)) as [E | E].
  - rewrite (bool_decide_eq_true_2 _ E), filter_cons_True by done.
    cbn [foldl]. apply IH.
  - rewrite (bool_decide_eq_false_2 _ E), filter_cons_False by done.
    apply IH.
Qed.

(** [destroyTextboxes] on an image or canvas: both flags are cleared, the
    boxes of the element's entries are detached, and exactly those entries
    leave the array. *)
Lemma destroyTextboxes_run w node s :
  tagName w node ∈ ["IMG"; "CANVAS"] →
  destroyTextboxes w node s
  = upd_images (λ l, filter (λ ptr, img ptr ≠ node) l)
      (upd_textdivs
         (λ m, foldl (λ m b, alter detach b m) m
                 (registry_boxes (filter (λ ptr, img ptr = node) (images s))))
         (processing_delete node (processed_delete node s))).
Proof.
  intros Htag. unfold destroyTextboxes.
  rewrite (bool_decide_eq_true_2 _ Htag). cbn zeta.
  rewrite sort_desc_topop, forEach_splice, destroy_boxes_run.
  unfold upd_images, upd_textdivs. cbn. f_equal.
  pose proof (splice_topop node (images s) []) as E.
  by rewrite !app_nil_r in E.
Qed.

Lemma destroyTextboxes_other w node s :
  tagName w node ∉ ["IMG"; "CANVAS"] → destroyTextboxes w node s = s.
Proof.
  intros Htag. unfold destroyTextboxes.
  by rewrite (bool_decide_eq_false_2 _ Htag).
Qed.

(** After [destroyTextboxes] the element owns no entry; this is what the
    reload handler relies on before it resubmits the element. *)
Lemma destroyTextboxes_entries w node s :
  tagName w node ∈ ["IMG"; "CANVAS"] →
  entries_of node (destroyTextboxes w node s) = [].
Proof.
  intros Htag. rewrite destroyTextboxes_run by done.
  unfold entries_of. cbn.
  induction (images s) as [| ptr l IH]; [done |].
  destruct (decide (img ptr = node)) as [E | E].
  - by rewrite filter_cons_False by (intros H; by apply H).
  - rewrite filter_cons_True by done. by rewrite filter_cons_False.
Qed.

Lemma processImage_images w el s :
  images (processImage w el s) = images s ∧
  textdivs (processImage w el s) = textdivs s.
Proof.
  unfold processImage, spawn. rewrite processImage_begin_cases.
  destruct (processed_has el s); [done |].
  destruct (processing_has el s); [done |].
  destruct (bool_decide (tagName w el = "IMG") && negb (complete w el));
    [done |].
  by destruct (width w el * height w el <? 100 * 100).
Qed.

(** The reload handler drops the entries of the element before it submits
    the element again. *)
Lemma onImageReload_entries w target s :
  tagName w target ∈ ["IMG"; "CANVAS"] →
  entries_of target (onImageReload w target s) = [].
Proof.
  intros Htag. unfold onImageReload, entries_of.
  rewrite (proj1 (processImage_images _ _ _)).
  by apply destroyTextboxes_entries.
Qed.

(** ** Every overlay box in the document belongs to an entry *)

Lemma boxes_owned_ext s s' :
  images s' = images s → textdivs s' = textdivs s →
  boxes_owned s → boxes_owned s'.
Proof.
  intros Hi Ht H b (t & wr & Hl & Hp). rewrite Ht in Hl. rewrite Hi.
  apply H. by exists t, wr.
Qed.

Lemma forEach_keeps {A} (P : State → Prop) (f : A → State → State)
    (l : list A) :
  (∀ x s, P s → P (f x s)) → ∀ s, P s → P (forEach_ f l s).
Proof.
  intros Hf. unfold forEach_. induction l as [| x l IH]; intros s Hs; [done |].
  cbn [foldl]. by apply IH, Hf.
Qed.

Lemma preserves_bind {A B} P (m : M A) (f : A → M B) :
  preserves P m → (∀ a, preserves P (f a)) → preserves P (m ≫= f).
Proof.
  intros Hm Hf s c s' Hs. rewrite bind_unfold.
  destruct (m s) as [[a |] s1] eqn:E.
  - apply (Hf a). by apply (Hm s (Normal a) s1).
  - intros [= <- <-]. by apply (Hm s Throw s1).
Qed.

Lemma preserves_ret {A} P (a : A) : preserves P (mret a).
Proof. by intros s c s' Hs [= <- <-]. Qed.

Lemma preserves_throw {A} P : preserves P (@throw A).
Proof. by intros s c s' Hs [= <- <-]. Qed.

Lemma preserves_gets {A} P (f : State → A) : preserves P (gets f).
Proof. by intros s c s' Hs [= <- <-]. Qed.

Lemma preserves_modify P (f : State → State) :
  (∀ s, P s → P (f s)) → preserves P (modify f).
Proof. intros Hf s c s' Hs [= <- <-]. by apply Hf. Qed.

Lemma preserves_tryFinally {A} P (m : M A) (fin : State → State) :
  preserves P m → (∀ s, P s → P (fin s)) → preserves P (tryFinally m fin).
Proof.
  intros Hm Hf s c s' Hs. unfold tryFinally.
  destruct (m s) as [c1 s1] eqn:E. intros [= <- <-].
  apply Hf. by apply (Hm s c1 s1).
Qed.

Lemma preserves_finally_processing P el (m : M Step) :
  preserves P m → (∀ s, P s → P (processing_delete el s)) →
  preserves P (finally_processing el m).
Proof.
  intros Hm Hf s c s' Hs. unfold finally_processing.
  destruct (m s) as [c1 s1] eqn:E.
  pose proof (Hm s c1 s1 Hs E) as H1.
  destruct c1 as [[p |] |]; intros [= <- <-]; auto.
Qed.

Lemma preserves_spawn P (m : M Step) :
  preserves P m → (∀ f s, P s → P (upd_pending f s)) →
  ∀ s, P s → P (spawn m s).
Proof.
  intros Hm Hf s Hs. unfold spawn.
  destruct (m s) as [c1 s1] eqn:E.
  pose proof (Hm s c1 s1 Hs E) as H1.
  destruct c1 as [[p |] |]; auto.
Qed.

(** A loop that throws in its first round leaves the state alone. *)
Lemma applyOcr_regions_throw w el wr idx (rs : list Region) s :
  getSizes w el = None →
  (forEach (applyOcr_region w el wr idx) rs s).2 = s.
Proof.
  intros Hn. destruct rs as [| r rs]; [done |].
  cbn [forEach]. rewrite bind_unfold.
  unfold applyOcr_region, getSizes_of. rewrite Hn. done.
Qed.

Lemma boxes_owned_push ptr s :
  boxes_owned s → boxes_owned (images_push ptr s).
Proof.
  intros H b Hb. destruct (H b Hb) as (p & Hp & Hin).
  exists p. split; [| done]. cbn. apply elem_of_app. by left.
Qed.

Lemma applyError_owned w el wr error : preserves boxes_owned (applyError w el wr error).
Proof.
  intros s c s' Hs Hrun.
  destruct (getSizes w el) as [[nw nh] |] eqn:Hsz.
  - destruct (applyError_run w el wr nw nh Hsz error s)
      as (s1 & Hrun1 & Hi & _ & Hnew & Hold & _).
    rewrite Hrun1 in Hrun. injection Hrun as <- <-.
    intros b (t & wr' & Hl & Hp). rewrite Hi.
    destruct (decide (b = nextBox s)) as [-> | Hne].
    + eexists. split; [apply elem_of_app; right; apply list_elem_of_here |].
      apply list_elem_of_here.
    + rewrite Hold in Hl by done.
      destruct (Hs b) as (p & Hp' & Hin); [by exists t, wr' |].
      exists p. split; [| done]. apply elem_of_app. by left.
  - unfold applyError, getSizes_of in Hrun. rewrite Hsz in Hrun.
    run_m in Hrun. injection Hrun as <- <-.
    by apply (boxes_owned_push {| img := el; wrapper := wr; boxes := [] |}).
Qed.

Lemma applyOcr_owned w el wr resp : preserves boxes_owned (applyOcr w el wr resp).
Proof.
  intros s c s' Hs Hrun.
  destruct resp as [resp |].
  2:{ unfold applyOcr in Hrun. run_m in Hrun. injection Hrun as <- <-.
      by apply (boxes_owned_push {| img := el; wrapper := wr; boxes := [] |}). }
  destruct (getSizes w el) as [[nw nh] |] eqn:Hsz.
  - destruct (applyOcr_run w el wr nw nh Hsz resp s)
      as (s1 & Hrun1 & Hi & _ & Hnew & Hold & _).
    rewrite Hrun1 in Hrun. injection Hrun as <- <-.
    intros b (t & wr' & Hl & Hp). rewrite Hi.
    destruct (decide (nextBox s ≤ b < nextBox s + length (result resp))%nat)
      as [Hin | Hout].
    + eexists. split; [apply elem_of_app; right; apply list_elem_of_here |].
      cbn. apply elem_of_seq. lia.
    + rewrite Hold in Hl by done.
      destruct (Hs b) as (p & Hp' & Hin); [by exists t, wr' |].
      exists p. split; [| done]. apply elem_of_app. by left.
  - unfold applyOcr in Hrun. run_m in Hrun.
    pose proof (applyOcr_regions_throw w el wr (length (images s))
                  (result resp)
                  (images_push {| img := el; wrapper := wr; boxes := [] |} s)
                  Hsz) as E.
    rewrite Hrun in E. cbn in E. subst s'.
    by apply (boxes_owned_push {| img := el; wrapper := wr; boxes := [] |}).
Qed.

(** Dispose of a change that touches neither the entries nor the overlay
    nodes. *)
Ltac flags :=
  first [ apply boxes_owned_ext; reflexivity
        | intros ?; apply boxes_owned_ext; reflexivity ].

Lemma render_owned w el error resp :
  preserves boxes_owned (render w el error resp).
Proof.
  unfold render. apply preserves_bind.
  { apply preserves_modify. flags. }
  intros _. destruct (wrapImage w el) as [[newImg wr] |].
  - apply preserves_bind.
    + destruct (truthy error).
      * apply preserves_bind; [apply applyError_owned |].
        intros _. apply preserves_modify. flags.
      * apply preserves_bind; [apply applyOcr_owned |].
        intros _. apply preserves_modify. flags.
    + intros _. apply preserves_bind; [| intros; apply preserves_ret].
      apply preserves_modify. flags.
  - apply preserves_bind; [| intros; apply preserves_ret].
    apply preserves_modify. flags.
Qed.

Lemma catch_getOcr_owned err : preserves boxes_owned (catch_getOcr err).
Proof.
  unfold catch_getOcr. apply preserves_bind.
  { apply preserves_modify. flags. }
  intros _.
  destruct (bool_decide (code err = Some "ERR_NETWORK"));
    [apply preserves_ret |].
  destruct (bool_decide (code err = Some "ERR_BAD_RESPONSE"));
    [| apply preserves_ret].
  destruct (response err); [apply preserves_ret | apply preserves_throw].
Qed.

Lemma processImage_recognised_owned w el r :
  preserves boxes_owned (processImage_recognised w el r).
Proof.
  unfold processImage_recognised.
  apply preserves_finally_processing; [| flags].
  apply preserves_bind.
  - unfold recognised. apply preserves_tryFinally; [| flags].
    destruct r as [resp | err]; [apply preserves_ret |].
    apply preserves_bind; [apply catch_getOcr_owned |].
    intros; apply preserves_ret.
  - intros [error resp]. apply render_owned.
Qed.

Lemma size_gate_owned w el : preserves boxes_owned (size_gate w el).
Proof.
  unfold size_gate. destruct (width w el * height w el <? 100 * 100);
    [apply preserves_ret |].
  apply preserves_bind; [| intros; apply preserves_ret].
  apply preserves_modify. flags.
Qed.

Lemma processImage_loaded_owned w el :
  preserves boxes_owned (processImage_loaded w el).
Proof.
  apply preserves_finally_processing; [apply size_gate_owned | flags].
Qed.

Lemma processImage_encoded_owned w el r :
  preserves boxes_owned (processImage_encoded w el r).
Proof.
  apply preserves_finally_processing; [| flags].
  unfold encoded. destruct r.
  - apply preserves_bind; [apply preserves_modify; flags |]. intros _.
    apply preserves_bind; [apply preserves_gets |]. intros opts.
    apply preserves_bind; [apply preserves_modify; flags |]. intros _.
    apply preserves_ret.
  - apply preserves_bind; [apply preserves_modify; flags |]. intros _.
    apply preserves_ret.
Qed.

Lemma processImage_begin_owned w el :
  preserves boxes_owned (processImage_begin w el).
Proof.
  intros s c s' Hs. unfold processImage_begin.
  destruct (processed_has el s); [by intros [= <- <-] |].
  destruct (processing_has el s); [by intros [= <- <-] |].
  assert (H1 : boxes_owned (processing_add el s)) by (revert Hs; flags).
  revert H1. generalize (processing_add el s). intros s0 H0.
  revert s0 c s' H0. change (preserves boxes_owned
    (finally_processing el (load_wait w el))).
  apply preserves_finally_processing; [| flags].
  unfold load_wait.
  destruct (bool_decide (tagName w el = "IMG") && negb (complete w el));
    [apply preserves_ret | apply size_gate_owned].
Qed.

Lemma upd_pending_owned f s : boxes_owned s → boxes_owned (upd_pending f s).
Proof. revert s. flags. Qed.

Lemma processImage_owned w el s :
  boxes_owned s → boxes_owned (processImage w el s).
Proof.
  apply preserves_spawn; [apply processImage_begin_owned |].
  intros; by apply upd_pending_owned.
Qed.

Lemma process_unprocessed_owned w el s :
  boxes_owned s → boxes_owned (process_unprocessed w el s).
Proof.
  unfold process_unprocessed.
  destruct (negb (processed_has el s)); [apply processImage_owned | done].
Qed.

Lemma destroyTextboxes_owned w node s :
  boxes_owned s → boxes_owned (destroyTextboxes w node s).
Proof.
  intros Hs.
  destruct (decide (tagName w node ∈ ["IMG"; "CANVAS"])) as [Htag | Htag].
  2:{ by rewrite destroyTextboxes_other. }
  rewrite destroyTextboxes_run by done.
  intros b (t & wr & Hl & Hp). cbn in Hl.
  rewrite (foldl_alter_lookup detach _ detach_idem) in Hl.
  destruct (decide (b ∈ registry_boxes
              (filter (λ ptr, img ptr = node) (images s)))) as [Hin | Hout].
  - rewrite (bool_decide_eq_true_2 _ Hin) in Hl.
    destruct (textdivs s !! b); cbn in Hl; [| done].
    injection Hl as <-. done.
  - rewrite (bool_decide_eq_false_2 _ Hout) in Hl.
    destruct (Hs b) as (p & Hp' & Hb); [by exists t, wr |].
    exists p. split; [| done]. cbn. apply list_elem_of_filter.
    split; [| done]. intros E. apply Hout.
    apply elem_of_registry_boxes. exists p. split; [| done].
    by apply list_elem_of_filter.
Qed.

Lemma onImageReload_owned w target s :
  boxes_owned s → boxes_owned (onImageReload w target s).
Proof.
  intros Hs. unfold onImageReload.
  apply processImage_owned, destroyTextboxes_owned.
  revert Hs. flags.
Qed.

Lemma on_mutation_owned w mutation s :
  boxes_owned s → boxes_owned (on_mutation w mutation s).
Proof.
  intros Hs. destruct mutation as [added removed | target name | target]; cbn.
  - apply forEach_keeps.
    + intros node s0 H0.
      destruct (bool_decide (nodeType w node = ELEMENT_NODE)); [| done].
      destruct (isImageNode w node); [by apply destroyTextboxes_owned |].
      apply forEach_keeps; [| done].
      intros; by apply destroyTextboxes_owned.
    + apply forEach_keeps; [| done]. intros node s0 H0.
      destruct (bool_decide (nodeType w node = ELEMENT_NODE)); [| done].
      destruct (isImageNode w node); [by apply processImage_owned |].
      unfold processImagesInSubtree.
      destruct (isImageNode w node); [by apply process_unprocessed_owned |].
      apply forEach_keeps; [| done].
      intros; by apply process_unprocessed_owned.
  - destruct (isImageNode w target && _); [| done].
    apply processImage_owned. revert Hs. flags.
  - done.
Qed.

Lemma enableOCR_owned w s : boxes_owned s → boxes_owned (enableOCR w s).
Proof.
  intros Hs. unfold enableOCR. destruct (OCR s); [done |]. cbn zeta.
  match goal with |- boxes_owned (set_intervals _ (emit _ (set_observing _
      (emit _ ?s3)))) => assert (H3 : boxes_owned s3) end.
  { apply forEach_keeps; [intros; by apply processImage_owned |].
    apply forEach_keeps; [intros; by apply processImage_owned |].
    revert Hs. flags. }
  revert H3. apply boxes_owned_ext; done.
Qed.

Lemma periodicCheck_owned w s : boxes_owned s → boxes_owned (periodicCheck w s).
Proof.
  intros Hs. unfold periodicCheck. destruct (negb (OCR s)).
  - revert Hs. flags.
  - apply forEach_keeps; [| done]. intros; by apply process_unprocessed_owned.
Qed.

Lemma disableOCR_owned s : boxes_owned s → boxes_owned (disableOCR s).
Proof.
  intros Hs. destruct (OCR s) eqn:E.
  - intros b Hb. exfalso.
    by apply (proj1 (proj2 (proj2 (proj2 (disableOCR_enabled s E)))) Hs b).
  - unfold disableOCR. by rewrite E.
Qed.

Lemma relabel_owned (f : Textdiv → option string) s :
  (∀ txt t, f (with_innerText txt t) = f t) →
  boxes_owned s → boxes_owned (relabel f s).
Proof.
  intros Hf Hs b (t & wr & Hl & Hp).
  destruct (relabel_textdivs f s b Hf) as [Hi Ht].
  rewrite Hi. apply Hs. rewrite Ht in Hl.
  destruct (bool_decide (b ∈ registry_boxes (images s))).
  - destruct (textdivs s !! b) as [t0 |] eqn:E; cbn in Hl; [| done].
    injection Hl as <-. exists t0, wr. by split.
  - by exists t, wr.
Qed.

Lemma onMessage_owned w msg s :
  boxes_owned s → boxes_owned (onMessage w msg s).
Proof.
  intros Hs. destruct msg; cbn [onMessage]; try (revert Hs; flags).
  - by apply enableOCR_owned.
  - by apply disableOCR_owned.
  - unfold show_original. apply (relabel_owned originalText); [done |].
    revert Hs. flags.
  - unfold show_translated. apply (relabel_owned translatedText); [done |].
    revert Hs. flags.
Qed.

Lemma step_owned w ev s : boxes_owned s → boxes_owned (step w ev s).
Proof.
  intros Hs.
  assert (Hun : ∀ i, boxes_owned (unpark i s)) by (intros; revert Hs; flags).
  destruct ev; cbn [step].
  - revert Hs. flags.
  - by apply onMessage_owned.
  - destruct (observing s); [| done]. unfold observer_callback.
    apply forEach_keeps; [| done]. intros; by apply on_mutation_owned.
  - destruct (bool_decide (intervals s = 0%nat)); [done |].
    by apply periodicCheck_owned.
  - destruct (bool_decide (target ∈ loadListeners s)); [| done].
    by apply onImageReload_owned.
  - destruct (pending s !! i) as [[] |]; try done.
    apply preserves_spawn; [apply processImage_loaded_owned | | apply Hun].
    intros; by apply upd_pending_owned.
  - destruct (pending s !! i) as [[] |]; try done.
    apply preserves_spawn; [apply processImage_encoded_owned | | apply Hun].
    intros; by apply upd_pending_owned.
  - destruct (pending s !! i) as [[] |]; try done.
    apply preserves_spawn; [apply processImage_recognised_owned | | apply Hun].
    intros; by apply upd_pending_owned.
  - destruct (pending s !! i) as [[] |]; try done.
    unfold translation_done. destruct r; [| apply Hun].
    generalize (Hun i). flags.
Qed.

(** In every state the script can reach, each overlay box that is in the
    document is listed in a registry entry. *)
Lemma reachable_boxes_owned s : reachable s → boxes_owned s.
Proof.
  induction 1 as [| w ev s _ IH].
  - intros b (t & wr & Hl & _). cbn in Hl. by rewrite lookup_empty in Hl.
  - by apply step_owned.
Qed.

(** C5. Disabling an enabled session empties the registry, detaches every
    overlay box of every entry from the document, clears both flags of every
    entry's element, removes its reload listener and unwraps it; in every
    state the script can reach (more generally, whenever every overlay box
    in the document belongs to an entry) no overlay box is left in the
    document.  Disabling a disabled session changes nothing, so disabling
    twice is the same as once. *)
Theorem disable_tears_down (s : State) :
  (OCR s = true →
     OCR (disableOCR s) = false ∧
     images (disableOCR s) = [] ∧
     (∀ ptr, ptr ∈ images s →
        (img ptr ∉ processedImages (disableOCR s)) ∧
        (img ptr ∉ processingImages (disableOCR s)) ∧
        (img ptr ∉ loadListeners (disableOCR s)) ∧
        unwrapImage_call (img ptr) ∈ effects (disableOCR s) ∧
        ∀ b, b ∈ boxes ptr → ¬ attached (disableOCR s) b) ∧
     (boxes_owned s → ∀ b, ¬ attached (disableOCR s) b) ∧
     (reachable s → ∀ b, ¬ attached (disableOCR s) b) ∧
     observer_disconnect ∈ effects (disableOCR s)) ∧
  (OCR s = false → disableOCR s = s) ∧
  disableOCR (disableOCR s) = disableOCR s.
Proof.
  assert (Hoff : ∀ s0, OCR s0 = false → disableOCR s0 = s0).
  { intros s0 H. unfold disableOCR. by rewrite H. }
  split; [| split].
  - intros Hon.
    destruct (disableOCR_enabled s Hon) as (H1 & H2 & H3 & H4 & H5).
    repeat (split; [assumption |]). split; [| exact H5].
    intros Hr. by apply H4, reachable_boxes_owned.
  - apply Hoff.
  - destruct (OCR s) eqn:E.
    + apply Hoff. exact (proj1 (disableOCR_enabled s E)).
    + rewrite (Hoff s E). exact (Hoff s E).
Qed.

Lemma disable_tears_down_witness :
  images (disableOCR (run page src_swap initial)) = [] ∧
  (∀ b, ¬ attached (disableOCR (run page src_swap initial)) b) ∧
  (∀ b, ¬ attached (disableOCR (set_OCR true initial)) b) ∧
  disableOCR initial = initial.
Proof.
  assert (Hon : OCR (run page src_swap initial) = true)
    by (vm_compute; reflexivity).
  assert (Hreach : reachable (run page src_swap initial)).
  { unfold run, src_swap. cbn [foldl]. repeat apply reachable_step.
    apply reachable_initial. }
  split; [| split; [| split]].
  - apply (proj1 (disable_tears_down (run page src_swap initial))).
    exact Hon.
  - apply (proj1 (disable_tears_down (run page src_swap initial))).
    + exact Hon.
    + exact Hreach.
  - refine (proj1 (proj2 (proj2 (proj2
      (proj1 (disable_tears_down (set_OCR true initial)) eq_refl)))) _).
    intros b (t & wr & Hl & _). cbn in Hl. by rewrite lookup_empty in Hl.
  - apply (proj1 (proj2 (disable_tears_down initial))). reflexivity.
Defined.

(** * Further properties of the content script *)

(** ** Relating the state before and after a synchronous piece *)

Lemma keeps_bind {A B} (R : State → State → Prop) `{!Transitive R}
    (m : M A) (f : A → M B) :
  keeps R m → (∀ a, keeps R (f a)) → keeps R (m ≫= f).
Proof.
  intros Hm Hf s c s'. rewrite bind_unfold.
  destruct (m s) as [[a |] s1] eqn:E.
  - intros H. etrans; [exact (Hm _ _ _ E) | exact (Hf a _ _ _ H)].
  - intros [= <- <-]. exact (Hm _ _ _ E).
Qed.

Lemma keeps_ret {A} (R : State → State → Prop) `{!Reflexive R} (a : A) :
  keeps R (mret a).
Proof. by intros s c s' [= <- <-]. Qed.

Lemma keeps_throw {A} (R : State → State → Prop) `{!Reflexive R} :
  keeps R (@throw A).
Proof. by intros s c s' [= <- <-]. Qed.

Lemma keeps_gets {A} (R : State → State → Prop) `{!Reflexive R}
    (f : State → A) : keeps R (gets f).
Proof. by intros s c s' [= <- <-]. Qed.

Lemma keeps_modify (R : State → State → Prop) (f : State → State) :
  (∀ s, R s (f s)) → keeps R (modify f).
Proof. intros Hf s c s' [= <- <-]. apply Hf. Qed.

Lemma keeps_forEach {A} (R : State → State → Prop)
    `{!Reflexive R, !Transitive R} (f : A → M unit) (l : list A) :
  (∀ x, keeps R (f x)) → keeps R (forEach f l).
Proof.
  intros Hf. induction l as [| x l IH]; cbn [forEach].
  - by apply keeps_ret.
  - apply keeps_bind; [done | apply Hf | by intros _].
Qed.

#[export] Instance same_session_reflexive : Reflexive same_session.
Proof. intros s. apply same_session_refl. Qed.

#[export] Instance same_session_transitive : Transitive same_session.
Proof. intros s1 s2 s3. apply same_session_trans. Qed.

(** The renderers change the registry entries and the overlay nodes only,
    also when they throw. *)
Lemma applyOcr_region_frame w el wr idx r :
  keeps same_session (applyOcr_region w el wr idx r).
Proof.
  unfold applyOcr_region, getSizes_of.
  destruct (getSizes w el) as [[nw nh] |].
  - intros s c s'. run_m. unfold new_textdiv. intros [= <- <-].
    by repeat split.
  - intros s c s'. run_m. intros [= <- <-]. apply same_session_refl.
Qed.

Lemma applyOcr_frame w el wr resp : keeps same_session (applyOcr w el wr resp).
Proof.
  unfold applyOcr. apply keeps_bind; [apply _ | by apply keeps_gets |].
  intros idx. apply keeps_bind; [apply _ | |].
  { apply keeps_modify. intros s. by repeat split. }
  intros _. destruct resp as [resp |].
  - apply keeps_forEach; try apply _. intros r. apply applyOcr_region_frame.
  - by apply keeps_throw.
Qed.

Lemma applyError_frame w el wr error :
  keeps same_session (applyError w el wr error).
Proof.
  unfold applyError, getSizes_of.
  destruct (getSizes w el) as [[nw nh] |].
  - intros s c s'. run_m. unfold new_textdiv. intros [= <- <-].
    by repeat split.
  - intros s c s'. run_m. intros [= <- <-]. by repeat split.
Qed.

(** The cases of [applyOcr] the success lemma leaves out. *)
Lemma applyOcr_empty w el wr resp s :
  result resp = [] →
  applyOcr w el wr (Some resp) s
  = (Normal tt, images_push {| img := el; wrapper := wr; boxes := [] |} s).
Proof. intros H. unfold applyOcr. rewrite H. reflexivity. Qed.

Lemma applyOcr_throws w el wr resp s :
  getSizes w el = None → result resp ≠ [] →
  applyOcr w el wr (Some resp) s
  = (Throw, images_push {| img := el; wrapper := wr; boxes := [] |} s).
Proof.
  intros Hn Hr. unfold applyOcr. run_m.
  destruct (result resp) as [| r rs]; [done |].
  cbn [forEach]. rewrite bind_unfold.
  unfold applyOcr_region, getSizes_of. by rewrite Hn.
Qed.

Lemma applyError_throws w el wr error s :
  getSizes w el = None →
  applyError w el wr error s
  = (Throw, images_push {| img := el; wrapper := wr; boxes := [] |} s).
Proof. intros Hn. unfold applyError, getSizes_of. by rewrite Hn. Qed.

(** When [applyOcr] completes, the entry it pushed has one box per
    region. *)
Lemma applyOcr_normal w el wr resp s s1 :
  applyOcr w el wr (Some resp) s = (Normal tt, s1) →
  ∃ bs, images s1
        = images s ++ [ {| img := el; wrapper := wr; boxes := bs |} ] ∧
        length bs = length (result resp).
Proof.
  intros Hrun. destruct (getSizes w el) as [[nw nh] |] eqn:Hsz.
  - destruct (applyOcr_run w el wr nw nh Hsz resp s)
      as (s2 & Hrun2 & Hi & _).
    rewrite Hrun2 in Hrun. injection Hrun as <-.
    eexists. split; [exact Hi |]. by rewrite length_seq.
  - destruct (result resp) as [| r rs] eqn:Hr.
    + rewrite applyOcr_empty in Hrun by done. injection Hrun as <-.
      by exists [].
    + rewrite applyOcr_throws in Hrun; [done | done |]. by rewrite Hr.
Qed.

(** ** The piece after recognition, case by case *)

Lemma finally_processing_done el (m : M Step) s c s' :
  finally_processing el m s = (c, s') → finished c →
  ∃ s1, m s = (c, s1) ∧ s' = processing_delete el s1.
Proof.
  unfold finally_processing. destruct (m s) as [[[p |] |] s1]; cbn;
    intros [= <- <-] Hf; try done; by exists s1.
Qed.

Lemma recognised_fulfilled el resp s :
  recognised el (Fulfilled resp) s
  = (Normal (None, Some resp),
     upd_classList (λ X, X ∖ {[(el, "ocr-loading")]}) s).
Proof. reflexivity. Qed.

Lemma recognised_rejected el err s :
  recognised el (Rejected err) s
  = match catch_getOcr err s with
    | (Normal e, s1) =>
        (Normal (Some e, None),
         upd_classList (λ X, X ∖ {[(el, "ocr-loading")]}) s1)
    | (Throw, s1) =>
        (Throw, upd_classList (λ X, X ∖ {[(el, "ocr-loading")]}) s1)
    end.
Proof.
  unfold recognised, tryFinally. rewrite bind_unfold.
  by destruct (catch_getOcr err s) as [[e |] s1].
Qed.

Lemma render_wrapped w el error resp s newImg wr :
  wrapImage w el = Some (newImg, wr) →
  render w el error resp s
  = if truthy error then
      match applyError w newImg wr (default "" error)
              (emit (wrapImage_call el) s) with
      | (Normal _, s1) =>
          (Normal Return,
           upd_loadListeners (λ X, {[newImg]} ∪ X)
             (upd_classList (λ X, {[(newImg, "ocr-error")]} ∪ X) s1))
      | (Throw, s1) => (Throw, s1)
      end
    else
      match applyOcr w newImg wr resp (emit (wrapImage_call el) s) with
      | (Normal _, s1) =>
          (Normal Return,
           upd_loadListeners (λ X, {[newImg]} ∪ X) (processed_add el s1))
      | (Throw, s1) => (Throw, s1)
      end.
Proof.
  intros Hw. unfold render. rewrite bind_unfold. cbn [modify]. rewrite Hw.
  rewrite bind_unfold. destruct (truthy error).
  - rewrite bind_unfold.
    by destruct (applyError _ _ _ _ _) as [[[] |] s1].
  - rewrite bind_unfold.
    by destruct (applyOcr _ _ _ _ _) as [[[] |] s1].
Qed.

Lemma render_unwrapped w el error resp s :
  wrapImage w el = None →
  render w el error resp s
  = (Normal Return, emit log_error_call (emit (wrapImage_call el) s)).
Proof.
  intros Hw. unfold render. rewrite bind_unfold. cbn [modify]. by rewrite Hw.
Qed.

Lemma catch_getOcr_frame err s c s' :
  catch_getOcr err s = (c, s') → s' = emit log_error_call s.
Proof.
  unfold catch_getOcr. run_m.
  destruct (bool_decide (code err = Some "ERR_NETWORK"));
    [by intros [= <- <-] |].
  destruct (bool_decide (code err = Some "ERR_BAD_RESPONSE"));
    [| by intros [= <- <-]].
  destruct (response err); by intros [= <- <-].
Qed.

(** The piece after recognition, split into the part before rendering and
    the rendering. *)
Lemma processImage_recognised_split w el r s c s' :
  processImage_recognised w el r s = (c, s') →
  ∃ c1 s1, recognised el r s = (c1, s1) ∧
    match c1 with
    | Throw => c = Throw ∧ s' = processing_delete el s1
    | Normal (error, resp) =>
        ∃ s2, render w el error resp s1 = (c, s2) ∧
              s' = processing_delete el s2
    end.
Proof.
  intros H.
  pose proof (processImage_recognised_finished w el r s) as F.
  rewrite H in F.
  destruct (finally_processing_done _ _ _ _ _ H F) as (s2 & Hm & ->).
  rewrite bind_unfold in Hm.
  destruct (recognised el r s) as [[[error resp] |] s1].
  - exists (Normal (error, resp)), s1. split; [done |]. by exists s2.
  - injection Hm as <- <-. by exists Throw, s1.
Qed.

(** What the piece after a rejected recognition leaves of the flags. *)
Lemma processImage_recognised_rejected w el err s c s' :
  processImage_recognised w el (Rejected err) s = (c, s') →
  processedImages s' = processedImages s ∧
  processingImages s' = processingImages s ∖ {[el]}.
Proof.
  intros H.
  destruct (processImage_recognised_split _ _ _ _ _ _ H)
    as (c1 & s1 & Hrec & Hrest).
  rewrite recognised_rejected in Hrec.
  destruct (catch_getOcr err s) as [[e |] se] eqn:Hc.
  - destruct (catch_getOcr_truthy _ _ _ _ Hc) as [Ht ->].
    injection Hrec as <- <-. destruct Hrest as (s2 & Hr & ->).
    destruct (wrapImage w el) as [[newImg wr] |] eqn:Hw.
    + rewrite (render_wrapped _ _ _ _ _ _ _ Hw), Ht in Hr.
      destruct (applyError _ _ _ _ _) as [[[] |] s3] eqn:Ha;
        injection Hr as <- <-;
        destruct (applyError_frame _ _ _ _ _ _ _ Ha)
          as (_ & _ & _ & _ & Hp & Hq & _); cbn in *;
        by rewrite Hp, Hq.
    + rewrite (render_unwrapped _ _ _ _ _ Hw) in Hr.
      by injection Hr as <- <-.
  - pose proof (catch_getOcr_frame _ _ _ _ Hc) as ->.
    injection Hrec as <- <-. by destruct Hrest as [-> ->].
Qed.

(** X1. An element is marked processed only by a recognition that resolved,
    a wrapping that succeeded and a rendering that completed: the piece
    after recognition leaves the processed set as it was or adds the
    element, and it adds it only on that path, together with the new entry
    and the reload listener.  A rejected call, a failed wrapping or an
    exception never mark the element, and the earlier pieces of the run
    never touch the processed set. *)
Theorem processed_only_on_success (w : World) (el : Elem)
    (r : Settled OcrResponse) (s : State) (c : Completion Step) (s' : State) :
  processImage_recognised w el r s = (c, s') →
  processed_step el s s' ∧
  (el ∉ processedImages s → el ∈ processedImages s' →
     c = Normal Return ∧
     ∃ resp newImg wr bs,
       r = Fulfilled resp ∧ wrapImage w el = Some (newImg, wr) ∧
       images s' = images s ++
         [ {| img := newImg; wrapper := wr; boxes := bs |} ] ∧
       length bs = length (result resp) ∧
       newImg ∈ loadListeners s') ∧
  (∀ err, r = Rejected err → processedImages s' = processedImages s) ∧
  (wrapImage w el = None → processedImages s' = processedImages s) ∧
  (c = Throw → processedImages s' = processedImages s) ∧
  (∀ s0, processedImages (processImage_begin w el s0).2 = processedImages s0 ∧
         processedImages (processImage_loaded w el s0).2
           = processedImages s0) ∧
  (∀ r0 s0, processedImages (processImage_encoded w el r0 s0).2
            = processedImages s0).
Proof.
  intros H.
  assert (Hearly : (∀ s0,
      processedImages (processImage_begin w el s0).2 = processedImages s0 ∧
      processedImages (processImage_loaded w el s0).2 = processedImages s0) ∧
    (∀ r0 s0, processedImages (processImage_encoded w el r0 s0).2
              = processedImages s0)).
  { split.
    - intros s0. split.
      + rewrite processImage_begin_cases.
        destruct (processed_has el s0); [done |].
        destruct (processing_has el s0); [done |].
        destruct (bool_decide (tagName w el = "IMG") && negb (complete w el));
          [done |].
        by destruct (width w el * height w el <? 100 * 100).
      + unfold processImage_loaded, finally_processing, size_gate.
        by destruct (width w el * height w el <? 100 * 100).
    - intros r0 s0. by destruct r0. }
  destruct r as [resp | err].
  2:{ destruct (processImage_recognised_rejected _ _ _ _ _ _ H) as (Hp & _).
      split; [by left |]. split; [intros Hn Hin; by rewrite Hp in Hin |].
      split; [done |]. split; [done |]. split; [done |]. exact Hearly. }
  destruct (processImage_recognised_split _ _ _ _ _ _ H)
    as (c1 & s1 & Hrec & Hrest).
  rewrite recognised_fulfilled in Hrec. injection Hrec as <- <-.
  destruct Hrest as (s2 & Hr & ->).
  destruct (wrapImage w el) as [[newImg wr] |] eqn:Hw.
  - rewrite (render_wrapped _ _ _ _ _ _ _ Hw) in Hr. cbn [truthy] in Hr.
    destruct (applyOcr _ _ _ _ _) as [[[] |] s3] eqn:Ha;
      injection Hr as <- <-;
      destruct (applyOcr_frame _ _ _ _ _ _ _ Ha)
        as (_ & _ & _ & _ & Hp & _ & Hl & _); cbn in *.
    + destruct (applyOcr_normal _ _ _ _ _ _ Ha) as (bs & Hi & Hlen).
      split; [right; cbn; by rewrite Hp |].
      split.
      { intros _ _. split; [done |]. exists resp, newImg, wr, bs.
        repeat split; try done.
        apply elem_of_union. left. by apply elem_of_singleton. }
      split; [done |]. split; [done |]. split; [done |]. exact Hearly.
    + split; [left; cbn; by rewrite Hp |].
      split; [intros Hn Hin; by rewrite Hp in Hin |].
      split; [done |]. split; [done |]. split; [done |]. exact Hearly.
  - rewrite (render_unwrapped _ _ _ _ _ Hw) in Hr. injection Hr as <- <-.
    cbn. split; [by left |]. split; [done |].
    split; [done |]. split; [done |]. split; [done |]. exact Hearly.
Qed.

Lemma processed_only_on_success_witness :
  ∃ s', processImage_recognised page 1%nat (Fulfilled one_region) in_flight
          = (Normal Return, s') ∧
        processed_step 1%nat in_flight s' ∧
        (∃ s'', processImage_recognised page 1%nat (Rejected no_response)
                  in_flight = (Throw, s'') ∧
                processedImages s'' = processedImages in_flight).
Proof.
  eexists. split; [vm_compute; reflexivity |]. split.
  - eapply (processed_only_on_success page 1%nat (Fulfilled one_region)
              in_flight (Normal Return)).
    vm_compute. reflexivity.
  - eexists. split; [vm_compute; reflexivity |].
    eapply (proj1 (proj2 (proj2 (proj2 (proj2
             (processed_only_on_success page 1%nat (Rejected no_response)
                in_flight Throw _ _)))))).
    reflexivity.
    Unshelve. vm_compute. reflexivity.
Defined.

(** ** The loading marker *)

(** X2. The piece that calls [getOcr] puts the class [ocr-loading] on
    the element and suspends; the piece that resumes when [getOcr] settles
    ends with the class off the element, from every state and on every
    outcome (success, any rejection, an exception in the catch clause, a
    failed wrapping, an exception while rendering).  The class is keyed by
    the element, not by the run: the statement holds from every state, so
    also when a second run of the same element still waits for [getOcr]. *)
Theorem loading_class_lifetime (w : World) (el : Elem) (s : State) :
  (∀ d, (processImage_encoded w el (Fulfilled d) s).1
          = Normal (Suspend (AwaitOcr el)) ∧
        (el, "ocr-loading")
          ∈ classList (processImage_encoded w el (Fulfilled d) s).2) ∧
  (∀ r, (el, "ocr-loading")
          ∉ classList (processImage_recognised w el r s).2).
Proof.
  split.
  - intros d. split; [done |]. cbn.
    apply elem_of_union. left. by apply elem_of_singleton.
  - intros r.
    destruct (processImage_recognised w el r s) as [c s'] eqn:H. cbn [snd].
    destruct (processImage_recognised_split _ _ _ _ _ _ H)
      as (c1 & s1 & Hrec & Hrest).
    assert (Hs1 : (el, "ocr-loading") ∉ classList s1).
    { destruct r as [resp | err].
      - rewrite recognised_fulfilled in Hrec. injection Hrec as <- <-. cbn.
        intros [_ Hn]%elem_of_difference. apply Hn. by apply elem_of_singleton.
      - rewrite recognised_rejected in Hrec.
        destruct (catch_getOcr err s) as [[e |] se];
          injection Hrec as <- <-; cbn;
          intros [_ Hn]%elem_of_difference; apply Hn;
          by apply elem_of_singleton. }
    destruct c1 as [[error resp] |].
    2:{ by destruct Hrest as [-> ->]. }
    destruct Hrest as (s2 & Hr & ->). cbn.
    destruct (wrapImage w el) as [[newImg wr] |] eqn:Hw.
    + rewrite (render_wrapped _ _ _ _ _ _ _ Hw) in Hr.
      destruct (truthy error).
      * destruct (applyError _ _ _ _ _) as [[[] |] s3] eqn:Ha;
          injection Hr as <- <-;
          destruct (applyError_frame _ _ _ _ _ _ _ Ha)
            as (_ & _ & _ & _ & _ & _ & _ & Hc & _); cbn in *.
        -- rewrite Hc. intros [Hin%elem_of_singleton | Hin]%elem_of_union;
             [by injection Hin | done].
        -- by rewrite Hc.
      * destruct (applyOcr _ _ _ _ _) as [[[] |] s3] eqn:Ha;
          injection Hr as <- <-;
          destruct (applyOcr_frame _ _ _ _ _ _ _ Ha)
            as (_ & _ & _ & _ & _ & _ & _ & Hc & _); cbn in *;
          by rewrite Hc.
    + rewrite (render_unwrapped _ _ _ _ _ Hw) in Hr.
      by injection Hr as <- <-.
Qed.

(** ** Edge cases of the rendering *)

(** X3. A recognition that resolves with no region still counts as a
    success: when wrapping succeeds the run returns, the element is marked
    processed and gets the reload listener, and an entry without boxes is
    pushed; no overlay node is created and the sizing helper is not
    consulted. *)
Theorem empty_result_is_success (w : World) (el newImg wr : Elem)
    (resp : OcrResponse) (s : State) :
  result resp = [] →
  wrapImage w el = Some (newImg, wr) →
  ∃ s', processImage_recognised w el (Fulfilled resp) s = (Normal Return, s') ∧
    images s' = images s ++
      [ {| img := newImg; wrapper := wr; boxes := [] |} ] ∧
    textdivs s' = textdivs s ∧
    el ∈ processedImages s' ∧
    (el ∉ processingImages s') ∧
    newImg ∈ loadListeners s'.
Proof.
  intros Hr Hw. unfold processImage_recognised, finally_processing.
  rewrite bind_unfold, recognised_fulfilled.
  rewrite (render_wrapped _ _ _ _ _ _ _ Hw). cbn [truthy].
  rewrite applyOcr_empty by done.
  eexists. split; [reflexivity |]. cbn.
  split; [done |]. split; [done |].
  split; [apply elem_of_union; left; by apply elem_of_singleton |].
  split.
  - intros [_ Hn]%elem_of_difference. apply Hn. by apply elem_of_singleton.
  - apply elem_of_union. left. by apply elem_of_singleton.
Qed.

Lemma empty_result_is_success_witness :
  ∃ s', processImage_recognised page 1%nat (Fulfilled {| result := [] |})
          in_flight = (Normal Return, s') ∧
        1%nat ∈ processedImages s'.
Proof.
  destruct (empty_result_is_success page 1%nat 1%nat 101%nat
              {| result := [] |} in_flight eq_refl eq_refl)
    as (s' & Hrun & _ & _ & Hp & _).
  by exists s'.
Defined.

(** X4. The renderers push the entry before they size and draw.  When the
    sizing helper throws, the run ends with an exception: the entry just
    pushed stays in the registry without boxes, no overlay node is created,
    the element is not marked processed and gets no reload listener, and
    the processing flag is cleared.  This holds for the error overlay and
    for a result with at least one region. *)
Theorem sizing_failure_leaves_entry (w : World) (el newImg wr : Elem)
    (s : State) :
  wrapImage w el = Some (newImg, wr) →
  getSizes w newImg = None →
  ∀ r,
    (∃ resp, r = Fulfilled resp ∧ result resp ≠ []) ∨
    (∃ err e, r = Rejected err ∧
              catch_getOcr err s = (Normal e, emit log_error_call s)) →
    ∃ s', processImage_recognised w el r s = (Throw, s') ∧
      images s' = images s ++
        [ {| img := newImg; wrapper := wr; boxes := [] |} ] ∧
      textdivs s' = textdivs s ∧
      processedImages s' = processedImages s ∧
      (el ∉ processingImages s') ∧
      loadListeners s' = loadListeners s.
Proof.
  intros Hw Hsz r Hr. unfold processImage_recognised, finally_processing.
  rewrite bind_unfold.
  destruct Hr as [(resp & -> & Hne) | (err & e & -> & Hc)].
  - rewrite recognised_fulfilled, (render_wrapped _ _ _ _ _ _ _ Hw).
    cbn [truthy]. rewrite applyOcr_throws by done.
    eexists. split; [reflexivity |]. cbn. repeat split; try done.
    intros [_ Hn]%elem_of_difference. apply Hn. by apply elem_of_singleton.
  - destruct (catch_getOcr_truthy _ _ _ _ Hc) as [Ht _].
    rewrite recognised_rejected, Hc, (render_wrapped _ _ _ _ _ _ _ Hw), Ht.
    rewrite applyError_throws by done.
    eexists. split; [reflexivity |]. cbn. repeat split; try done.
    intros [_ Hn]%elem_of_difference. apply Hn. by apply elem_of_singleton.
Qed.

Lemma sizing_failure_leaves_entry_witness :
  (∃ s', processImage_recognised unsized_page 1%nat (Fulfilled one_region)
           in_flight = (Throw, s') ∧
         processedImages s' = processedImages in_flight) ∧
  (∃ s', processImage_recognised unsized_page 1%nat (Rejected network_down)
           in_flight = (Throw, s') ∧
         processedImages s' = processedImages in_flight).
Proof.
  split.
  - destruct (sizing_failure_leaves_entry unsized_page 1%nat 1%nat 101%nat
                in_flight eq_refl eq_refl (Fulfilled one_region))
      as (s' & Hrun & _ & _ & Hp & _).
    + left. exists one_region. split; [reflexivity | discriminate].
    + by exists s'.
  - destruct (sizing_failure_leaves_entry unsized_page 1%nat 1%nat 101%nat
                in_flight eq_refl eq_refl (Rejected network_down))
      as (s' & Hrun & _ & _ & Hp & _).
    + right. exists network_down, "Network error". split; reflexivity.
    + by exists s'.
Defined.

(** ** Removing the entries of an element, in full *)

(** X5. [destroyTextboxes] on an image or canvas removes exactly the
    entries of that element and keeps the others in their order, clears
    both flags of the element and of no other, detaches the boxes of the
    removed entries and leaves the other overlay nodes and the parked runs
    alone.  On a node with another tag it does nothing. *)
Theorem destroyTextboxes_exact (w : World) (node : Elem) (s : State) :
  (tagName w node ∈ ["IMG"; "CANVAS"] →
     images (destroyTextboxes w node s)
       = filter (λ ptr, img ptr ≠ node) (images s) ∧
     processedImages (destroyTextboxes w node s)
       = processedImages s ∖ {[node]} ∧
     processingImages (destroyTextboxes w node s)
       = processingImages s ∖ {[node]} ∧
     (∀ ptr b, ptr ∈ images s → img ptr = node → b ∈ boxes ptr →
        ¬ attached (destroyTextboxes w node s) b) ∧
     (∀ b, (∀ ptr, ptr ∈ images s → img ptr = node → b ∉ boxes ptr) →
        textdivs (destroyTextboxes w node s) !! b = textdivs s !! b) ∧
     pending (destroyTextboxes w node s) = pending s) ∧
  (tagName w node ∉ ["IMG"; "CANVAS"] → destroyTextboxes w node s = s).
Proof.
  split; [| apply destroyTextboxes_other].
  intros Htag. rewrite destroyTextboxes_run by done. cbn.
  split; [done |]. split; [done |]. split; [done |].
  assert (Hreg : ∀ b,
    b ∈ registry_boxes (filter (λ ptr, img ptr = node) (images s)) ↔
    ∃ ptr, ptr ∈ images s ∧ img ptr = node ∧ b ∈ boxes ptr).
  { intros b. rewrite elem_of_registry_boxes. split.
    - intros (ptr & [E Hin]%list_elem_of_filter & Hb). eauto.
    - intros (ptr & Hin & E & Hb). exists ptr. split; [| done].
      by apply list_elem_of_filter. }
  split; [| split; [| done]].
  - intros ptr b Hin E Hb (t & wr & Hl & Hp). cbn in Hl.
    rewrite (foldl_alter_lookup detach _ detach_idem) in Hl.
    rewrite bool_decide_eq_true_2 in Hl by (apply Hreg; eauto).
    destruct (textdivs s !! b); cbn in Hl; [| done].
    injection Hl as <-. done.
  - intros b Hb.
    rewrite (foldl_alter_lookup detach _ detach_idem).
    rewrite bool_decide_eq_false_2; [done |].
    intros (ptr & Hin & E & Hb')%Hreg. by apply (Hb ptr).
Qed.

Lemma destroyTextboxes_exact_witness :
  images (destroyTextboxes page 1%nat (run page src_swap initial)) = [] ∧
  destroyTextboxes nested_page 10%nat (run page src_swap initial)
    = run page src_swap initial.
Proof.
  split.
  - rewrite (proj1 (proj1 (destroyTextboxes_exact page 1%nat
                             (run page src_swap initial))
                      ltac:(apply list_elem_of_here))).
    vm_compute. reflexivity.
  - apply (proj2 (destroyTextboxes_exact nested_page 10%nat
                    (run page src_swap initial))).
    apply (bool_decide_unpack _). vm_compute. exact I.
Defined.

(** ** Removed nodes *)








(** ** What submitting an element leaves alone *)

(** A call of [processImage] changes the processing flag of the element, the
    parked runs and the log of calls, nothing else. *)
Lemma processImage_frame w el s :
  OCR (processImage w el s) = OCR s ∧
  observing (processImage w el s) = observing s ∧
  intervals (processImage w el s) = intervals s ∧
  processedImages (processImage w el s) = processedImages s ∧
  images (processImage w el s) = images s ∧
  textdivs (processImage w el s) = textdivs s ∧
  loadListeners (processImage w el s) = loadListeners s ∧
  classList (processImage w el s) = classList s.
Proof.
  unfold processImage, spawn. rewrite processImage_begin_cases.
  destruct (processed_has el s); [done |].
  destruct (processing_has el s); [done |].
  destruct (bool_decide (tagName w el = "IMG") && negb (complete w el));
    [done |].
  by destruct (width w el * height w el <? 100 * 100).
Qed.

Lemma process_unprocessed_frame w el s :
  OCR (process_unprocessed w el s) = OCR s ∧
  observing (process_unprocessed w el s) = observing s ∧
  intervals (process_unprocessed w el s) = intervals s ∧
  processedImages (process_unprocessed w el s) = processedImages s ∧
  images (process_unprocessed w el s) = images s ∧
  textdivs (process_unprocessed w el s) = textdivs s ∧
  loadListeners (process_unprocessed w el s) = loadListeners s ∧
  classList (process_unprocessed w el s) = classList s.
Proof.
  unfold process_unprocessed.
  destruct (negb (processed_has el s)); [apply processImage_frame | done].
Qed.

Lemma forEach_frame {A B} (f : A → State → State) (g : State → B)
    (l : list A) :
  (∀ x s, g (f x s) = g s) → ∀ s, g (forEach_ f l s) = g s.
Proof.
  intros Hf s. apply (forEach_keeps (λ s', g s' = g s)); [| done].
  intros x s0 H0. by rewrite Hf.
Qed.

(** ** The reload handler *)

(** X7. The reload handler forgets the element and then submits it, and the
    submission always passes the guard, whether or not a run for the element
    is already parked: for a loaded element of at least 10000 pixels one
    more run is parked, so a reload while a run is in flight leaves two
    runs for the same element.  The entries the element owned are gone. *)
Theorem reload_restarts (w : World) (target : Elem) (s : State) :
  onImageReload w target s
    = spawn (finally_processing target (load_wait w target))
        (processing_add target
           (destroyTextboxes w target (invalidate target s))) ∧
  (tagName w target ∈ ["IMG"; "CANVAS"] →
     entries_of target (onImageReload w target s) = []) ∧
  (bool_decide (tagName w target = "IMG") && negb (complete w target) = false →
   10000 ≤ width w target * height w target →
     pending (onImageReload w target s) = pending s ++ [AwaitBase64 target] ∧
     runs_for target (pending (onImageReload w target s))
       = runs_for target (pending s) ++ [AwaitBase64 target] ∧
     target ∈ processingImages (onImageReload w target s) ∧
     (target ∉ processedImages (onImageReload w target s))).
Proof.
  set (s3 := destroyTextboxes w target (invalidate target s)).
  assert (Hflags : (target ∉ processedImages s3) ∧
                   (target ∉ processingImages s3) ∧
                   pending s3 = pending s).
  { subst s3. unfold invalidate.
    destruct (decide (tagName w target ∈ ["IMG"; "CANVAS"])) as [Htag | Htag].
    - rewrite destroyTextboxes_run by done. cbn.
      split; [| split; [| done]];
        intros [[? Hn]%elem_of_difference _]%elem_of_difference;
        apply Hn; by apply elem_of_singleton.
    - rewrite destroyTextboxes_other by done. cbn.
      split; [| split; [| done]];
        intros [_ Hn]%elem_of_difference; apply Hn;
        by apply elem_of_singleton. }
  destruct Hflags as (Hp & Hq & Hpend).
  assert (E : onImageReload w target s
    = spawn (finally_processing target (load_wait w target))
        (processing_add target s3)).
  { unfold onImageReload, processImage, spawn. fold (invalidate target s).
    fold s3. by rewrite processImage_begin_fresh. }
  split; [exact E |]. split; [apply onImageReload_entries |].
  intros Hc Hsz. rewrite E. unfold spawn, finally_processing, load_wait.
  rewrite Hc, size_gate_large by done. cbn. rewrite Hpend.
  split; [done |]. split.
  { unfold runs_for. rewrite filter_app. f_equal.
    by rewrite filter_cons_True, filter_nil. }
  split; [apply elem_of_union; left; by apply elem_of_singleton |].
  exact Hp.
Qed.

Lemma reload_restarts_witness :
  pending (onImageReload page 1%nat in_flight)
    = [AwaitOcr 1%nat; AwaitBase64 1%nat] ∧
  entries_of 1%nat (onImageReload page 1%nat (run page src_swap initial)) = [].
Proof.
  split.
  - apply (proj2 (proj2 (reload_restarts page 1%nat in_flight))).
    + reflexivity.
    + vm_compute. discriminate.
  - apply (proj1 (proj2 (reload_restarts page 1%nat
                           (run page src_swap initial)))).
    apply list_elem_of_here.
Defined.

(** ** The periodic sweep *)

(** X8. A sweep of an enabled session over a document in which every
    image carries the processed flag or the processing flag changes nothing
    at all: nothing is encoded and no run is started.  The hypothesis is
    about the two flags, which is what the guard reads; a run can be parked
    for an element whose processing flag has been cleared, and such an
    element is not covered. *)
Theorem sweep_skips_known (w : World) (s : State) :
  OCR s = true →
  (∀ el, el ∈ document_img_canvas w →
         el ∈ processedImages s ∨ el ∈ processingImages s) →
  periodicCheck w s = s.
Proof.
  intros Hon Hall. unfold periodicCheck. rewrite Hon. cbn [negb].
  unfold forEach_.
  induction (document_img_canvas w) as [| el l IH]; [done |].
  cbn [foldl].
  assert (E : process_unprocessed w el s = s).
  { unfold process_unprocessed.
    destruct (processed_has el s) eqn:Hp; [done |]. cbn [negb].
    unfold processImage, spawn.
    rewrite processImage_begin_guarded; [done |].
    apply Hall, list_elem_of_here. }
  rewrite E. apply IH. intros x Hx. by apply Hall, list_elem_of_further.
Qed.

Lemma sweep_skips_known_witness :
  periodicCheck page in_flight = in_flight ∧
  periodicCheck page (run page src_swap initial) = run page src_swap initial.
Proof.
  split.
  - apply (sweep_skips_known page in_flight); [vm_compute; reflexivity |].
    intros el Hel. right.
    apply list_elem_of_singleton in Hel as ->.
    apply (bool_decide_unpack _). vm_compute. exact I.
  - apply (sweep_skips_known page (run page src_swap initial));
      [vm_compute; reflexivity |].
    intros el Hel. left.
    apply list_elem_of_singleton in Hel as ->.
    apply (bool_decide_unpack _). vm_compute. exact I.
Defined.

(** ** Enabling and disabling *)

(** The teardown loop leaves the parked runs and the timers alone and only
    takes flags away. *)
Lemma disable_loop_frame (i : nat) : ∀ s,
  pending (disable_loop i s) = pending s ∧
  intervals (disable_loop i s) = intervals s ∧
  observing (disable_loop i s) = observing s ∧
  OCR (disable_loop i s) = OCR s.
Proof.
  induction i as [| i IH]; intros s; [done |].
  cbn [disable_loop]. destruct (IH (disable_one i s)) as (-> & -> & -> & ->).
  unfold disable_one. destruct (images s !! i) as [ptr |]; [| done].
  cbn. by rewrite remove_boxes_run.
Qed.

Lemma disableOCR_sets s :
  OCR s = true →
  processedImages (disableOCR s)
    = processedImages s ∖ list_to_set (img <$> images s) ∧
  processingImages (disableOCR s)
    = processingImages s ∖ list_to_set (img <$> images s).
Proof.
  intros Hon. unfold disableOCR. rewrite Hon. cbn [negb].
  set (s2 := set_observing false (emit observer_disconnect (set_OCR false s))).
  destruct (disable_loop_run (images s2) s2 eq_refl)
    as (_ & _ & Hp & Hq & _).
  split; [exact Hp | exact Hq].
Qed.

(** X9. Disabling does not reach the runs that are in flight or the
    periodic timer: the parked runs and the number of live timers are as
    before, and an element that is marked processing but owns no entry
    keeps its flag.  So a session that is enabled again before the old
    timer ticks has one timer more than before, and the element still in
    flight is not submitted again by the renewed scan. *)
Theorem disable_keeps_runs (w : World) (s : State) :
  pending (disableOCR s) = pending s ∧
  intervals (disableOCR s) = intervals s ∧
  (OCR s = true →
     intervals (enableOCR w (disableOCR s)) = S (intervals s) ∧
     ∀ el, el ∈ processingImages s →
           (∀ ptr, ptr ∈ images s → img ptr ≠ el) →
           el ∈ processingImages (disableOCR s) ∧
           processImage w el (disableOCR s) = disableOCR s).
Proof.
  assert (Hfr : pending (disableOCR s) = pending s ∧
                intervals (disableOCR s) = intervals s ∧
                (OCR s = true → OCR (disableOCR s) = false)).
  { unfold disableOCR. destruct (OCR s); cbn [negb]; [| done]. cbn.
    match goal with |- context [disable_loop ?i ?s2] =>
      destruct (disable_loop_frame i s2) as (-> & -> & _ & ->) end.
    done. }
  destruct Hfr as (Hp & Hi & Hoff).
  split; [exact Hp |]. split; [exact Hi |].
  intros Hon. split.
  - unfold enableOCR. rewrite (Hoff Hon).
    cbn [intervals set_intervals emit set_observing set_OCR].
    rewrite !(forEach_frame (processImage w) intervals)
      by (intros; apply processImage_frame).
    cbn [intervals set_OCR]. by rewrite Hi.
  - intros el Hel Hno.
    assert (Hin : el ∈ processingImages (disableOCR s)).
    { rewrite (proj2 (disableOCR_sets s Hon)).
      apply elem_of_difference. split; [done |].
      intros (ptr & -> & Hptr)%elem_of_list_to_set%list_elem_of_fmap.
      by apply (Hno ptr). }
    split; [exact Hin |].
    unfold processImage, spawn.
    rewrite processImage_begin_guarded; [done | by right].
Qed.

Lemma disable_keeps_runs_witness :
  1%nat ∈ processingImages (disableOCR in_flight) ∧
  intervals (enableOCR page (disableOCR in_flight)) = 2%nat.
Proof.
  destruct (proj2 (proj2 (disable_keeps_runs page in_flight)))
    as [Hi Hrun]; [vm_compute; reflexivity |].
  split.
  - apply (Hrun 1%nat).
    + apply (bool_decide_unpack _). vm_compute. exact I.
    + intros ptr Hptr. exfalso. revert Hptr.
      assert (E : images in_flight = []) by (vm_compute; reflexivity).
      rewrite E. apply not_elem_of_nil.
  - exact Hi.
Defined.

(** X10. Enabling an enabled session does nothing, so enabling twice is
    enabling once.  Enabling a disabled session turns the flag on, connects
    the observer and starts one timer; it renders nothing and marks nothing
    processed: entries, overlay nodes and the processed set are as
    before. *)
Theorem enable_once (w : World) (s : State) :
  (OCR s = true → enableOCR w s = s) ∧
  OCR (enableOCR w s) = true ∧
  enableOCR w (enableOCR w s) = enableOCR w s ∧
  images (enableOCR w s) = images s ∧
  textdivs (enableOCR w s) = textdivs s ∧
  processedImages (enableOCR w s) = processedImages s ∧
  (OCR s = false →
     observing (enableOCR w s) = true ∧
     intervals (enableOCR w s) = S (intervals s)).
Proof.
  assert (Hon : ∀ s0, OCR s0 = true → enableOCR w s0 = s0).
  { intros s0 H. unfold enableOCR. by rewrite H. }
  assert (Hfr : OCR (enableOCR w s) = true ∧
                images (enableOCR w s) = images s ∧
                textdivs (enableOCR w s) = textdivs s ∧
                processedImages (enableOCR w s) = processedImages s ∧
                (OCR s = false →
                   observing (enableOCR w s) = true ∧
                   intervals (enableOCR w s) = S (intervals s))).
  { unfold enableOCR. destruct (OCR s) eqn:E; [done |].
    cbn [OCR images textdivs processedImages observing intervals
         set_intervals emit set_observing set_OCR].
    rewrite !(forEach_frame (processImage w) images),
      !(forEach_frame (processImage w) textdivs),
      !(forEach_frame (processImage w) processedImages),
      !(forEach_frame (processImage w) intervals),
      !(forEach_frame (processImage w) OCR)
      by (intros; apply processImage_frame).
    done. }
  destruct Hfr as (H1 & H2 & H3 & H4 & H5).
  split; [apply Hon |]. split; [exact H1 |].
  split; [by apply Hon |]. done.
Qed.

Lemma enable_once_witness :
  enableOCR page in_flight = in_flight ∧
  intervals (enableOCR page initial) = 1%nat.
Proof.
  split.
  - apply (proj1 (enable_once page in_flight)). vm_compute. reflexivity.
  - apply (proj2 (proj2 (proj2 (proj2 (proj2 (proj2
             (enable_once page initial))))))).
    reflexivity.
Defined.

(** ** Single flight across the event loop *)

#[export] Instance same_runs_reflexive : Reflexive same_runs.
Proof. by intros s. Qed.

#[export] Instance same_runs_transitive : Transitive same_runs.
Proof. intros s1 s2 s3 [H1 H2] [H3 H4]. split; congruence. Qed.

Lemma same_session_runs s s' : same_session s s' → same_runs s s'.
Proof. intros (_ & _ & _ & _ & _ & Hq & _ & _ & _ & _ & Hp & _). by split. Qed.

Lemma single_run_ext el s s' :
  same_runs s s' → single_run el s → single_run el s'.
Proof. intros [Hp Hq]. unfold single_run. by rewrite Hp, Hq. Qed.

Lemma runs_for_app el (l1 l2 : list Pending) :
  runs_for el (l1 ++ l2) = runs_for el l1 ++ runs_for el l2.
Proof. apply filter_app. Qed.

Lemma runs_for_delete el (l : list Pending) : ∀ i p,
  l !! i = Some p →
  (run_of p ≠ Some el → runs_for el (delete i l) = runs_for el l) ∧
  (run_of p = Some el →
     S (length (runs_for el (delete i l))) = length (runs_for el l)).
Proof.
  unfold runs_for.
  induction l as [| q l IH]; intros i p Hi; [done |].
  destruct i as [| i]; cbn in Hi.
  - injection Hi as ->. cbn [delete list_delete]. split; intros E.
    + by rewrite filter_cons_False.
    + by rewrite filter_cons_True.
  - destruct (IH i p Hi) as [IH1 IH2]. cbn [delete list_delete].
    split; intros E.
    + destruct (decide (run_of q = Some el)).
      * rewrite !filter_cons_True by done. f_equal. by apply IH1.
      * rewrite !filter_cons_False by done. by apply IH1.
    + destruct (decide (run_of q = Some el)).
      * rewrite !filter_cons_True by done. cbn. f_equal. by apply IH2.
      * rewrite !filter_cons_False by done. by apply IH2.
Qed.

(** Parking one more run of element [x]. *)
Lemma single_run_park el x p s :
  run_of p = Some x →
  (x = el → el ∈ processingImages s ∧ runs_for el (pending s) = []) →
  single_run el s → single_run el (upd_pending (λ l, l ++ [p]) s).
Proof.
  intros Hp Hfree [H1 H2]. unfold single_run.
  cbn [pending upd_pending processingImages].
  rewrite runs_for_app.
  destruct (decide (x = el)) as [-> | Hne].
  - destruct (Hfree eq_refl) as [Hin E]. rewrite E. unfold runs_for.
    rewrite filter_cons_True, filter_nil by done. cbn. split; [lia | done].
  - unfold runs_for at 2 4. rewrite filter_cons_False by congruence.
    rewrite filter_nil, app_nil_r. by split.
Qed.

(** Ending the run of element [x] when none of its runs is parked. *)
Lemma single_run_end el x s :
  (x = el → runs_for el (pending s) = []) →
  single_run el s → single_run el (processing_delete x s).
Proof.
  intros Hfree [H1 H2]. unfold single_run. cbn. split; [done |].
  intros Hne. apply elem_of_difference. split; [by apply H2 |].
  intros ->%elem_of_singleton. by apply Hne, Hfree.
Qed.

Lemma processImage_single_run w x el s :
  single_run el s → single_run el (processImage w x s).
Proof.
  intros Hs. unfold processImage, spawn. rewrite processImage_begin_cases.
  destruct (processed_has x s); [done |].
  destruct (processing_has x s) eqn:Hq; [done |].
  apply processing_has_false in Hq.
  assert (Hfree : x = el → runs_for el (pending s) = []).
  { intros ->. destruct Hs as [_ H2].
    destruct (runs_for el (pending s)) eqn:E; [done |].
    exfalso. apply Hq, H2. done. }
  assert (Hadd : single_run el (processing_add x s)).
  { destruct Hs as [H1 H2]. split; [done |]. intros Hne. cbn.
    apply elem_of_union. right. by apply H2. }
  assert (Hfree' : x = el → el ∈ processingImages (processing_add x s) ∧
                            runs_for el (pending (processing_add x s)) = []).
  { intros ->. split; [apply processing_add_sets | by apply Hfree]. }
  destruct (bool_decide (tagName w x = "IMG") && negb (complete w x)).
  { by apply (single_run_park el x). }
  destruct (width w x * height w x <? 100 * 100).
  - by apply single_run_end.
  - apply (single_run_park el x); [done | exact Hfree' |].
    revert Hadd. by apply single_run_ext.
Qed.

Lemma process_unprocessed_single_run w x el s :
  single_run el s → single_run el (process_unprocessed w x s).
Proof.
  unfold process_unprocessed.
  destruct (negb (processed_has x s)); [apply processImage_single_run | done].
Qed.

(** The body of the piece after recognition does not touch the parked runs
    or the processing flags; its finalizer does. *)
Lemma render_runs w el error resp : keeps same_runs (render w el error resp).
Proof.
  unfold render. apply keeps_bind; [apply _ | by apply keeps_modify |].
  intros _. destruct (wrapImage w el) as [[newImg wr] |].
  - apply keeps_bind; [apply _ | |].
    + destruct (truthy error).
      * apply keeps_bind; [apply _ | | intros _; by apply keeps_modify].
        intros s c s' H. eapply same_session_runs, applyError_frame, H.
      * apply keeps_bind; [apply _ | | intros _; by apply keeps_modify].
        intros s c s' H. eapply same_session_runs, applyOcr_frame, H.
    + intros _. apply keeps_bind; [apply _ | by apply keeps_modify |].
      intros _. by apply keeps_ret.
  - apply keeps_bind; [apply _ | by apply keeps_modify |].
    intros _. by apply keeps_ret.
Qed.

Lemma recognised_runs el r : keeps same_runs (recognised el r).
Proof.
  intros s c s'. destruct r as [resp | err].
  - rewrite recognised_fulfilled. by intros [= <- <-].
  - rewrite recognised_rejected.
    destruct (catch_getOcr err s) as [[e |] se] eqn:Hc;
      pose proof (catch_getOcr_frame _ _ _ _ Hc) as ->;
      by intros [= <- <-].
Qed.

(** Resuming the parked run [p] of element [x] with the piece [m], whose
    body leaves runs and flags alone. *)
Lemma resume_single_run el x (m : M Step) i p s :
  pending s !! i = Some p → run_of p = Some x →
  keeps same_runs m →
  (∀ s0 q s1, m s0 = (Normal (Suspend q), s1) → run_of q = Some x) →
  single_run el s →
  single_run el (spawn (finally_processing x m) (unpark i s)).
Proof.
  intros Hi Hp Hm Hq Hs.
  destruct (runs_for_delete el (pending s) i p Hi) as [Hd1 Hd2].
  assert (Hun : single_run el (unpark i s) ∧
                (x = el → runs_for el (pending (unpark i s)) = []) ∧
                (x = el → el ∈ processingImages (unpark i s))).
  { destruct Hs as [H1 H2]. unfold single_run.
    cbn [pending unpark upd_pending processingImages].
    destruct (decide (x = el)) as [-> | Hne].
    - specialize (Hd2 Hp).
      assert (E : runs_for el (delete i (pending s)) = []).
      { destruct (runs_for el (delete i (pending s))); [done |].
        cbn in Hd2. lia. }
      rewrite E. repeat split; try done; try (cbn; lia).
      intros _. apply H2. intros E'. rewrite E' in Hd2. done.
    - rewrite Hd1 by congruence. by repeat split. }
  destruct Hun as (Hu & Hfree & Hflag).
  unfold spawn, finally_processing.
  destruct (m (unpark i s)) as [c s1] eqn:E.
  destruct (Hm _ _ _ E) as [Hpend Hproc].
  assert (Hs1 : single_run el s1) by (revert Hu; by apply single_run_ext).
  assert (Hfree1 : x = el → runs_for el (pending s1) = [])
    by (rewrite Hpend; exact Hfree).
  destruct c as [[q |] |].
  - apply (single_run_park el x); [by apply (Hq _ _ _ E) | | done].
    intros Hx. split; [| by apply Hfree1].
    rewrite Hproc. by apply Hflag.
  - by apply single_run_end.
  - by apply single_run_end.
Qed.

Lemma size_gate_runs w x : keeps same_runs (size_gate w x).
Proof.
  intros s c s'. unfold size_gate.
  destruct (width w x * height w x <? 100 * 100); by intros [= <- <-].
Qed.

Lemma encoded_runs w x r : keeps same_runs (encoded w x r).
Proof. intros s c s'. destruct r; by intros [= <- <-]. Qed.

Lemma recognised_body_runs w x r :
  keeps same_runs ('(error, resp) ← recognised x r; render w x error resp).
Proof.
  apply keeps_bind; [apply _ | apply recognised_runs |].
  intros [error resp]. apply render_runs.
Qed.

Lemma relabel_runs f s : same_runs s (relabel f s).
Proof. unfold relabel. by rewrite forEach_entries_alter. Qed.

Lemma forEach_single_run {A} el (f : A → State → State) (l : list A) s :
  (∀ x s0, single_run el s0 → single_run el (f x s0)) →
  single_run el s → single_run el (forEach_ f l s).
Proof. intros Hf. by apply forEach_keeps. Qed.

Lemma enableOCR_single_run w el s :
  single_run el s → single_run el (enableOCR w s).
Proof.
  intros Hs. unfold enableOCR. destruct (OCR s); [done |]. cbn zeta.
  match goal with |- single_run el (set_intervals _ (emit _ (set_observing _
      (emit _ ?s3)))) => assert (H3 : single_run el s3) end.
  { apply forEach_single_run; [intros; by apply processImage_single_run |].
    apply forEach_single_run; [intros; by apply processImage_single_run |].
    revert Hs. by apply single_run_ext. }
  revert H3. by apply single_run_ext.
Qed.

Lemma periodicCheck_single_run w el s :
  single_run el s → single_run el (periodicCheck w s).
Proof.
  intros Hs. unfold periodicCheck. destruct (negb (OCR s)).
  - revert Hs. by apply single_run_ext.
  - apply forEach_single_run; [| done].
    intros; by apply process_unprocessed_single_run.
Qed.

Lemma on_mutation_single_run w mutation el s :
  removes_nothing mutation →
  single_run el s → single_run el (on_mutation w mutation s).
Proof.
  intros Hm Hs.
  destruct mutation as [added removed | target name | target];
    cbn [on_mutation].
  - cbn in Hm. subst removed.
    change (forEach_ _ [] ?s0) with s0.
    apply forEach_single_run; [| done]. intros node s0 H0.
    destruct (bool_decide (nodeType w node = ELEMENT_NODE)); [| done].
    destruct (isImageNode w node) eqn:E;
      [by apply processImage_single_run |].
    unfold processImagesInSubtree. rewrite E.
    apply forEach_single_run; [| done].
    intros; by apply process_unprocessed_single_run.
  - destruct (isImageNode w target && _); [| done].
    apply processImage_single_run. revert Hs. by apply single_run_ext.
  - done.
Qed.

Lemma onMessage_single_run w msg el s :
  msg ≠ disable_ocr →
  single_run el s → single_run el (onMessage w msg s).
Proof.
  intros Hm Hs. destruct msg; cbn [onMessage];
    try (revert Hs; by apply single_run_ext); try done.
  - by apply enableOCR_single_run.
  - destruct Hs as [H1 H2]. unfold single_run.
    cbn [pending upd_pending emit processingImages].
    rewrite runs_for_app. unfold runs_for at 2 4.
    rewrite filter_cons_False, filter_nil, app_nil_r by done. by split.
  - unfold show_original. eapply single_run_ext; [apply relabel_runs |].
    revert Hs. by apply single_run_ext.
  - unfold show_translated. eapply single_run_ext; [apply relabel_runs |].
    revert Hs. by apply single_run_ext.
Qed.

Lemma step_single_run w ev el s :
  keeps_runs ev → single_run el s → single_run el (step w ev s).
Proof.
  intros Hev Hs. destruct ev; cbn [step]; cbn in Hev.
  - revert Hs. by apply single_run_ext.
  - apply onMessage_single_run; [| done]. by intros ->.
  - destruct (observing s); [| done]. unfold observer_callback, forEach_.
    revert s Hs. induction Hev as [| m ms Hm _ IH]; intros s Hs; [done |].
    cbn [foldl]. by apply IH, on_mutation_single_run.
  - destruct (bool_decide (intervals s = 0%nat)); [done |].
    by apply periodicCheck_single_run.
  - done.
  - destruct (pending s !! i) as [[x | x | x | ? ?] |] eqn:Hi; try done.
    apply (resume_single_run el x (size_gate w x) i (AwaitLoad x));
      try done; [apply size_gate_runs |].
    intros s0 q s1. unfold size_gate.
    destruct (width w x * height w x <? 100 * 100); by intros [= <- <-].
  - destruct (pending s !! i) as [[x | x | x | ? ?] |] eqn:Hi; try done.
    apply (resume_single_run el x (encoded w x r) i (AwaitBase64 x));
      try done; [apply encoded_runs |].
    intros s0 q s1. destruct r; by intros [= <- <-].
  - destruct (pending s !! i) as [[x | x | x | ? ?] |] eqn:Hi; try done.
    apply (resume_single_run el x _ i (AwaitOcr x));
      try done; [apply recognised_body_runs |].
    intros s0 q s1 H.
    pose proof (processImage_recognised_finished w x r s0) as F.
    unfold processImage_recognised, finally_processing in F.
    rewrite H in F. done.
  - destruct (pending s !! i) as [[x | x | x | text id] |] eqn:Hi; try done.
    destruct (runs_for_delete el (pending s) i _ Hi) as [Hd _].
    assert (Hu : single_run el (unpark i s)).
    { destruct Hs as [H1 H2]. unfold single_run.
      cbn [pending unpark upd_pending processingImages].
      rewrite Hd by done. by split. }
    unfold translation_done. destruct r; [| done].
    revert Hu. by apply single_run_ext.
Qed.

(** X11. Single flight is kept by the event loop as long as nothing takes a
    processing flag away from under a parked run: if for an element at most
    one run is parked and the element is marked processing while one is,
    the same holds after any turn other than a reload of an image, a
    mutation record with removed nodes, or disabling the session — after
    enabling, sweeps, added nodes, source changes, settings, and every
    resumption of a parked run, its own or another element's.  It holds
    initially, so it holds after every sequence of such turns. *)
Theorem single_flight_kept (w : World) (el : Elem) :
  (∀ ev s, keeps_runs ev → single_run el s → single_run el (step w ev s)) ∧
  (∀ evs, Forall keeps_runs evs → single_run el (run w evs initial)).
Proof.
  split; [intros; by apply step_single_run |].
  intros evs Hevs. unfold run.
  assert (H0 : single_run el initial).
  { split; [cbn; lia | done]. }
  revert H0. generalize initial.
  induction Hevs as [| ev evs Hev _ IH]; intros s Hs; [done |].
  cbn [foldl]. by apply IH, step_single_run.
Qed.

Lemma single_flight_kept_witness :
  single_run 1%nat (step page interval_tick in_flight) ∧
  single_run 1%nat
    (run page [message enable_ocr; base64_settled 0 (Fulfilled "data");
               interval_tick] initial).
Proof.
  split.
  - apply (proj1 (single_flight_kept page 1%nat) interval_tick in_flight);
      [exact I |].
    split.
    + vm_compute. lia.
    + intros _. apply (bool_decide_unpack _). vm_compute. exact I.
  - apply (proj2 (single_flight_kept page 1%nat)).
    repeat constructor.
Defined.

(** ** Processed and processing exclude each other *)

Lemma flags_disjoint_shrink s s' :
  flags_shrink s s' → flags_disjoint s → flags_disjoint s'.
Proof.
  intros [Hp Hq] H x Hx Hx'. apply (H x); [by apply Hp | by apply Hq].
Qed.

Lemma flags_disjoint_same s s' :
  processedImages s' = processedImages s →
  processingImages s' = processingImages s →
  flags_disjoint s → flags_disjoint s'.
Proof. intros Hp Hq. unfold flags_disjoint. by rewrite Hp, Hq. Qed.

Lemma processImage_disjoint w x s :
  flags_disjoint s → flags_disjoint (processImage w x s).
Proof.
  intros Hs. unfold processImage, spawn. rewrite processImage_begin_cases.
  destruct (processed_has x s) eqn:Hp; [done |].
  destruct (processing_has x s); [done |].
  apply processed_has_false in Hp.
  assert (Hadd : flags_disjoint (processing_add x s)).
  { intros y Hy [->%elem_of_singleton | Hy']%elem_of_union; [done |].
    by apply (Hs y). }
  destruct (bool_decide (tagName w x = "IMG") && negb (complete w x)).
  { revert Hadd. by apply flags_disjoint_same. }
  destruct (width w x * height w x <? 100 * 100).
  - intros y Hy [Hy' _]%elem_of_difference. by apply (Hadd y).
  - revert Hadd. by apply flags_disjoint_same.
Qed.

Lemma process_unprocessed_disjoint w x s :
  flags_disjoint s → flags_disjoint (process_unprocessed w x s).
Proof.
  unfold process_unprocessed.
  destruct (negb (processed_has x s)); [apply processImage_disjoint | done].
Qed.

Lemma destroyTextboxes_shrink w node s :
  flags_shrink s (destroyTextboxes w node s).
Proof.
  destruct (decide (tagName w node ∈ ["IMG"; "CANVAS"])) as [Htag | Htag].
  - rewrite destroyTextboxes_run by done.
    split; cbn; intros x [? _]%elem_of_difference; done.
  - by rewrite destroyTextboxes_other.
Qed.

Lemma destroyTextboxes_disjoint w node s :
  flags_disjoint s → flags_disjoint (destroyTextboxes w node s).
Proof. apply flags_disjoint_shrink, destroyTextboxes_shrink. Qed.

Lemma disableOCR_disjoint s : flags_disjoint s → flags_disjoint (disableOCR s).
Proof.
  destruct (OCR s) eqn:E.
  - destruct (disableOCR_sets s E) as [Hp Hq].
    apply flags_disjoint_shrink. split.
    + rewrite Hp. intros x [? _]%elem_of_difference. done.
    + rewrite Hq. intros x [? _]%elem_of_difference. done.
  - unfold disableOCR. by rewrite E.
Qed.

#[export] Instance processed_step_reflexive el : Reflexive (processed_step el).
Proof. intros s. by left. Qed.

#[export] Instance processed_step_transitive el :
  Transitive (processed_step el).
Proof.
  intros s1 s2 s3 [H1 | H1] [H2 | H2]; unfold processed_step;
    rewrite H2, H1; [by left | by right | by right |].
  right. apply set_eq. intros x.
  rewrite !elem_of_union. tauto.
Qed.

Lemma render_processed w el error resp :
  keeps (processed_step el) (render w el error resp).
Proof.
  assert (Hsame : ∀ f : State → State,
            (∀ s, processedImages (f s) = processedImages s) →
            keeps (processed_step el) (modify f)).
  { intros f Hf. apply keeps_modify. intros s. left. apply Hf. }
  unfold render. apply keeps_bind; [apply _ | by apply Hsame |].
  intros _. destruct (wrapImage w el) as [[newImg wr] |].
  - apply keeps_bind; [apply _ | |].
    + destruct (truthy error).
      * apply keeps_bind; [apply _ | | intros _; by apply Hsame].
        intros s c s' H. left.
        by destruct (applyError_frame _ _ _ _ _ _ _ H) as (_&_&_&_&->&_).
      * apply keeps_bind; [apply _ | |].
        -- intros s c s' H. left.
           by destruct (applyOcr_frame _ _ _ _ _ _ _ H) as (_&_&_&_&->&_).
        -- intros _. apply keeps_modify. intros s. by right.
    + intros _. apply keeps_bind; [apply _ | by apply Hsame |].
      intros _. apply (keeps_ret (processed_step el)).
  - apply keeps_bind; [apply _ | by apply Hsame |].
    intros _. apply (keeps_ret (processed_step el)).
Qed.

Lemma recognised_processed el r : keeps (processed_step el) (recognised el r).
Proof.
  intros s c s'. destruct r as [resp | err].
  - rewrite recognised_fulfilled. intros [= <- <-]. by left.
  - rewrite recognised_rejected.
    destruct (catch_getOcr err s) as [[e |] se] eqn:Hc;
      pose proof (catch_getOcr_frame _ _ _ _ Hc) as ->;
      intros [= <- <-]; by left.
Qed.

Lemma processImage_recognised_disjoint w el r s :
  flags_disjoint s → flags_disjoint (processImage_recognised w el r s).2.
Proof.
  intros Hs.
  destruct (processImage_recognised w el r s) as [c s'] eqn:H. cbn [snd].
  pose proof (processImage_recognised_finished w el r s) as F.
  rewrite H in F.
  destruct (finally_processing_done _ _ _ _ _ H F) as (s2 & Hm & ->).
  assert (Hp : processed_step el s s2).
  { revert Hm. apply (keeps_bind (processed_step el));
      [apply recognised_processed |].
    intros [error resp]. apply render_processed. }
  destruct (recognised_body_runs w el r _ _ _ Hm) as [_ Hq].
  intros x Hx [Hx' Hne]%elem_of_difference. cbn in Hx. rewrite Hq in Hx'.
  destruct Hp as [Hp | Hp]; rewrite Hp in Hx.
  - by apply (Hs x).
  - apply elem_of_union in Hx as [Hx | Hx]; [done | by apply (Hs x)].
Qed.

Lemma finally_shrinks_disjoint el (m : M Step) s :
  (∀ c s', m s = (c, s') →
     processedImages s' = processedImages s ∧
     processingImages s' = processingImages s) →
  flags_disjoint s → flags_disjoint (finally_processing el m s).2.
Proof.
  intros Hm Hs. unfold finally_processing.
  destruct (m s) as [c s1] eqn:E. destruct (Hm _ _ eq_refl) as [Hp Hq].
  assert (H1 : flags_disjoint s1) by (revert Hs; by apply flags_disjoint_same).
  destruct c as [[p |] |]; cbn [snd]; try done;
    intros x Hx [Hx' _]%elem_of_difference; by apply (H1 x).
Qed.

Lemma spawn_disjoint (m : M Step) s :
  flags_disjoint (m s).2 → flags_disjoint (spawn m s).
Proof.
  unfold spawn. by destruct (m s) as [[[p |] |] s1].
Qed.

Lemma on_mutation_disjoint w mutation s :
  flags_disjoint s → flags_disjoint (on_mutation w mutation s).
Proof.
  intros Hs. destruct mutation as [added removed | target name | target];
    cbn [on_mutation].
  - apply forEach_keeps.
    + intros node s0 H0.
      destruct (bool_decide (nodeType w node = ELEMENT_NODE)); [| done].
      destruct (isImageNode w node); [by apply destroyTextboxes_disjoint |].
      apply forEach_keeps; [| done].
      intros; by apply destroyTextboxes_disjoint.
    + apply forEach_keeps; [| done]. intros node s0 H0.
      destruct (bool_decide (nodeType w node = ELEMENT_NODE)); [| done].
      destruct (isImageNode w node) eqn:E; [by apply processImage_disjoint |].
      unfold processImagesInSubtree. rewrite E.
      apply forEach_keeps; [| done].
      intros; by apply process_unprocessed_disjoint.
  - destruct (isImageNode w target && _); [| done].
    apply processImage_disjoint.
    intros x [Hx _]%elem_of_difference. by apply (Hs x).
  - done.
Qed.

Lemma step_disjoint w ev s : flags_disjoint s → flags_disjoint (step w ev s).
Proof.
  intros Hs.
  assert (Hun : ∀ i, flags_disjoint (unpark i s))
    by (intros; revert Hs; by apply flags_disjoint_same).
  destruct ev; cbn [step].
  - revert Hs. by apply flags_disjoint_same.
  - destruct msg; cbn [onMessage];
      try (revert Hs; by apply flags_disjoint_same).
    + unfold enableOCR. destruct (OCR s); [done |]. cbn zeta.
      match goal with |- flags_disjoint (set_intervals _ (emit _
          (set_observing _ (emit _ ?s3)))) =>
        assert (H3 : flags_disjoint s3) end.
      { apply forEach_keeps; [intros; by apply processImage_disjoint |].
        apply forEach_keeps; [intros; by apply processImage_disjoint |].
        revert Hs. by apply flags_disjoint_same. }
      revert H3. by apply flags_disjoint_same.
    + by apply disableOCR_disjoint.
    + unfold show_original.
      destruct (relabel_runs originalText
        (emit (setProperty_call "--ocr-text-writing-mode" (or_horizontal o))
           (set_show false o s))) as [_ Hq].
      intros x Hx. rewrite Hq. unfold relabel in Hx.
      rewrite forEach_entries_alter in Hx. by apply (Hs x).
    + unfold show_translated.
      destruct (relabel_runs translatedText
        (emit (setProperty_call "--ocr-text-writing-mode" (or_horizontal o))
           (set_show true o s))) as [_ Hq].
      intros x Hx. rewrite Hq. unfold relabel in Hx.
      rewrite forEach_entries_alter in Hx. by apply (Hs x).
  - destruct (observing s); [| done]. unfold observer_callback.
    apply forEach_keeps; [| done]. intros; by apply on_mutation_disjoint.
  - destruct (bool_decide (intervals s = 0%nat)); [done |].
    unfold periodicCheck. destruct (negb (OCR s)).
    + revert Hs. by apply flags_disjoint_same.
    + apply forEach_keeps; [| done].
      intros; by apply process_unprocessed_disjoint.
  - destruct (bool_decide (target ∈ loadListeners s)); [| done].
    unfold onImageReload.
    apply processImage_disjoint, destroyTextboxes_disjoint.
    apply (flags_disjoint_shrink s); [| done].
    split; cbn; intros x Hx; set_unfold; tauto.
  - destruct (pending s !! i) as [[] |]; try done.
    apply spawn_disjoint, finally_shrinks_disjoint; [| apply Hun].
    intros c s'. unfold size_gate.
    destruct (width w e * height w e <? 100 * 100); by intros [= <- <-].
  - destruct (pending s !! i) as [[] |]; try done.
    apply spawn_disjoint, finally_shrinks_disjoint; [| apply Hun].
    intros c s'. destruct r; by intros [= <- <-].
  - destruct (pending s !! i) as [[] |]; try done.
    apply spawn_disjoint, processImage_recognised_disjoint, Hun.
  - destruct (pending s !! i) as [[] |]; try done.
    unfold translation_done. destruct r; [| apply Hun].
    generalize (Hun i). by apply flags_disjoint_same.
Qed.

(** X12. In every state the script can reach, no element is in the
    processed set and in the processing set at once: an element is marked
    processing only after the check that it is not processed, and the piece
    that marks it processed clears its processing flag before it ends. *)
Theorem processed_processing_disjoint (s : State) :
  reachable s → flags_disjoint s.
Proof.
  induction 1 as [| w ev s _ IH].
  - intros x Hx. cbn in Hx. by apply not_elem_of_empty in Hx.
  - by apply step_disjoint.
Qed.

Lemma processed_processing_disjoint_witness :
  flags_disjoint (run page src_swap initial).
Proof.
  apply processed_processing_disjoint.
  unfold run, src_swap. cbn [foldl]. repeat apply reachable_step.
  apply reachable_initial.
Defined.

(** ** Switching the displayed language *)

(** A toggle leaves the registry and the two stored texts of every node
    alone. *)
Lemma toggle_labels w m s :
  is_toggle m →
  images (onMessage w m s) = images s ∧
  ∀ b, (originalText <$> textdivs (onMessage w m s) !! b
          = originalText <$> textdivs s !! b) ∧
       (translatedText <$> textdivs (onMessage w m s) !! b
          = translatedText <$> textdivs s !! b).
Proof.
  assert (H : ∀ (f : Textdiv → option string) s0 b,
    (∀ txt t, f (with_innerText txt t) = f t) →
    (originalText <$> textdivs (relabel f s0) !! b
       = originalText <$> textdivs s0 !! b) ∧
    (translatedText <$> textdivs (relabel f s0) !! b
       = translatedText <$> textdivs s0 !! b)).
  { intros f s0 b Hf. destruct (relabel_textdivs f s0 b Hf) as [_ ->].
    destruct (bool_decide _); [| done]. by destruct (textdivs s0 !! b). }
  destruct m; try done; intros _; cbn [onMessage].
  - unfold show_original. split.
    + by destruct (relabel_textdivs originalText
        (emit (setProperty_call "--ocr-text-writing-mode" (or_horizontal o))
           (set_show false o s)) 0%nat) as [-> _].
    + intros b.
      exact (H originalText
        (emit (setProperty_call "--ocr-text-writing-mode" (or_horizontal o))
           (set_show false o s)) b (λ _ _, eq_refl)).
  - unfold show_translated. split.
    + by destruct (relabel_textdivs translatedText
        (emit (setProperty_call "--ocr-text-writing-mode" (or_horizontal o))
           (set_show true o s)) 0%nat) as [-> _].
    + intros b.
      exact (H translatedText
        (emit (setProperty_call "--ocr-text-writing-mode" (or_horizontal o))
           (set_show true o s)) b (λ _ _, eq_refl)).
Qed.

(** What a toggle displays is read off the registry and the stored texts. *)
Lemma toggle_shown w m s b :
  is_toggle m →
  shown (onMessage w m s) b
  = if bool_decide (b ∈ registry_boxes (images s))
    then match m with
         | show_original_text _ =>
             toDOMString <$> (originalText <$> textdivs s !! b)
         | _ => toDOMString <$> (translatedText <$> textdivs s !! b)
         end
    else shown s b.
Proof.
  destruct m; try done; intros _; cbn [onMessage]; unfold shown.
  - unfold show_original.
    destruct (relabel_textdivs originalText
      (emit (setProperty_call "--ocr-text-writing-mode" (or_horizontal o))
         (set_show false o s)) b) as [_ ->]; [done |].
    cbn. destruct (bool_decide _); [| done]. by destruct (textdivs s !! b).
  - unfold show_translated.
    destruct (relabel_textdivs translatedText
      (emit (setProperty_call "--ocr-text-writing-mode" (or_horizontal o))
         (set_show true o s)) b) as [_ ->]; [done |].
    cbn. destruct (bool_decide _); [| done]. by destruct (textdivs s !! b).
Qed.

(** X13. What the overlay boxes display after a show-original-text or
    show-translated-text message depends on that message only, not on the
    toggles that came before it: after any sequence of such messages and a
    last one [m], every box displays what it would display had [m] arrived
    alone.  In particular a repeated toggle changes no displayed text. *)
Theorem last_toggle_wins (w : World) (msgs : list Msg) (m : Msg) (s : State)
    (b : BoxId) :
  Forall is_toggle msgs → is_toggle m →
  shown (onMessage w m (run w (message <$> msgs) s)) b
  = shown (onMessage w m s) b.
Proof.
  intros Hmsgs Hm. revert s.
  induction Hmsgs as [| m0 msgs H0 _ IH]; intros s; [done |].
  cbn [fmap list_fmap run foldl]. unfold run in IH. cbn [step].
  rewrite IH, !toggle_shown by done.
  destruct (toggle_labels w m0 s H0) as [-> Hl].
  destruct (Hl b) as [-> ->].
  by destruct (bool_decide (b ∈ registry_boxes (images s))).
Qed.

Lemma last_toggle_wins_witness :
  shown (onMessage page (show_original_text None)
           (run page (message <$> [show_translated_text None;
                                   show_original_text (Some "vertical-rl")])
              (run page src_swap initial))) 1%nat
  = shown (onMessage page (show_original_text None)
             (run page src_swap initial)) 1%nat.
Proof.
  apply last_toggle_wins; [repeat constructor | exact I].
Defined.

(** ** Dollar patterns in a translation *)

Lemma GetSubstitution_app (matched preceding following a t : string) :
  has_dollar a = false →
  GetSubstitution matched preceding following (a +:+ t)
  = a +:+ GetSubstitution matched preceding following t.
Proof.
  induction a as [| c a IH]; [done |]. rewrite !sapp_cons. cbn.
  destruct (bool_decide (c = dollar)); cbn; [done |].
  intros H. by rewrite IH.
Qed.

(** X14. A translation is a replacement pattern, not plain text: where the
    selected text occurs in the element, the two-character codes of the
    translation are expanded.  Around text without dollar signs, a doubled
    dollar inserts one dollar sign, dollar-ampersand the selection itself,
    dollar-backquote the text before the selection and dollar-quote the
    text after it. *)
Theorem translation_dollar_patterns (old text a b : string) (n : nat) :
  indexOf old text = Some n →
  has_dollar a = false → has_dollar b = false →
  ∃ preceding following,
    old = preceding +:+ text +:+ following ∧
    String.length preceding = n ∧
    translated_innerText old text (a +:+ "$$" +:+ b)
      = preceding +:+ (a +:+ "$" +:+ b) +:+ following ∧
    translated_innerText old text (a +:+ "$&" +:+ b)
      = preceding +:+ (a +:+ text +:+ b) +:+ following ∧
    translated_innerText old text (a +:+ "$`" +:+ b)
      = preceding +:+ (a +:+ preceding +:+ b) +:+ following ∧
    translated_innerText old text (a +:+ "$'" +:+ b)
      = preceding +:+ (a +:+ following +:+ b) +:+ following.
Proof.
  intros Hidx Ha Hb.
  destruct (indexOf_Some old text n Hidx) as (pre & post & -> & Hlen & _).
  exists pre, post. split; [done |]. split; [done |].
  rewrite <- Hlen in Hidx. unfold translated_innerText.
  rewrite !(replace_at pre text post _ Hidx).
  repeat split;
    rewrite (GetSubstitution_app _ _ _ a _ Ha), !sapp_cons, !sapp_nil;
    cbn [GetSubstitution];
    by rewrite (GetSubstitution_plain _ _ _ b Hb).
Qed.

Lemma translation_dollar_patterns_witness :
  ∃ preceding following,
    "cost: five" = preceding +:+ "five" +:+ following ∧
    String.length preceding = 6%nat ∧
    translated_innerText "cost: five" "five" ("US" +:+ "$$" +:+ "5")
      = preceding +:+ ("US" +:+ "$" +:+ "5") +:+ following ∧
    translated_innerText "cost: five" "five" ("US" +:+ "$&" +:+ "5")
      = preceding +:+ ("US" +:+ "five" +:+ "5") +:+ following ∧
    translated_innerText "cost: five" "five" ("US" +:+ "$`" +:+ "5")
      = preceding +:+ ("US" +:+ preceding +:+ "5") +:+ following ∧
    translated_innerText "cost: five" "five" ("US" +:+ "$'" +:+ "5")
      = preceding +:+ ("US" +:+ following +:+ "5") +:+ following.
Proof.
  apply (translation_dollar_patterns "cost: five" "five" "US" "5" 6);
    vm_compute; reflexivity.
Defined.

(** ** Invariants of the registry and the overlay nodes

    A property of the state that looks at the registry entries, the overlay
    nodes, the allocation counter and the processed set only is kept by
    every turn of the event loop as soon as the rendering step, the two
    teardown paths, the language toggles and the clearing of a processed
    flag keep it: nothing else in the script touches them. *)

Section heap_invariant.
Context (w : World) (P : State → Prop).
Hypothesis P_ext : ∀ s s',
  images s' = images s → textdivs s' = textdivs s → nextBox s' = nextBox s →
  processedImages s' = processedImages s → P s → P s'.
Hypothesis P_forget : ∀ x s, P s → P (processed_delete x s).
Hypothesis P_render : ∀ el error resp, preserves P (render w el error resp).
Hypothesis P_destroyTextboxes : ∀ node s,
  P s → P (destroyTextboxes w node s).
Hypothesis P_relabel : ∀ (f : Textdiv → option string) s,
  (∀ txt t, f (with_innerText txt t) = f t) → P s → P (relabel f s).
Hypothesis P_disableOCR : ∀ s, P s → P (disableOCR s).

Local Ltac same_heap :=
  first [ apply P_ext; reflexivity | intros ?; apply P_ext; reflexivity ].

Lemma catch_getOcr_heap err : preserves P (catch_getOcr err).
Proof using P_ext.
  unfold catch_getOcr. apply preserves_bind.
  { apply preserves_modify. same_heap. }
  intros _.
  destruct (bool_decide (code err = Some "ERR_NETWORK"));
    [apply preserves_ret |].
  destruct (bool_decide (code err = Some "ERR_BAD_RESPONSE"));
    [| apply preserves_ret].
  destruct (response err); [apply preserves_ret | apply preserves_throw].
Qed.

Lemma processImage_recognised_heap el r :
  preserves P (processImage_recognised w el r).
Proof using P_ext P_render.
  unfold processImage_recognised.
  apply preserves_finally_processing; [| same_heap].
  apply preserves_bind.
  - unfold recognised. apply preserves_tryFinally; [| same_heap].
    destruct r as [resp | err]; [apply preserves_ret |].
    apply preserves_bind; [apply catch_getOcr_heap |].
    intros; apply preserves_ret.
  - intros [error resp]. apply P_render.
Qed.

Lemma size_gate_heap el : preserves P (size_gate w el).
Proof using P_ext.
  unfold size_gate. destruct (width w el * height w el <? 100 * 100);
    [apply preserves_ret |].
  apply preserves_bind; [| intros; apply preserves_ret].
  apply preserves_modify. same_heap.
Qed.

Lemma processImage_loaded_heap el : preserves P (processImage_loaded w el).
Proof using P_ext.
  apply preserves_finally_processing; [apply size_gate_heap | same_heap].
Qed.

Lemma processImage_encoded_heap el r :
  preserves P (processImage_encoded w el r).
Proof using P_ext.
  apply preserves_finally_processing; [| same_heap].
  unfold encoded. destruct r.
  - apply preserves_bind; [apply preserves_modify; same_heap |]. intros _.
    apply preserves_bind; [apply preserves_gets |]. intros opts.
    apply preserves_bind; [apply preserves_modify; same_heap |]. intros _.
    apply preserves_ret.
  - apply preserves_bind; [apply preserves_modify; same_heap |]. intros _.
    apply preserves_ret.
Qed.

Lemma processImage_begin_heap el : preserves P (processImage_begin w el).
Proof using P_ext.
  intros s c s' Hs. unfold processImage_begin.
  destruct (processed_has el s); [by intros [= <- <-] |].
  destruct (processing_has el s); [by intros [= <- <-] |].
  assert (H1 : P (processing_add el s)) by (revert Hs; same_heap).
  revert H1. generalize (processing_add el s). intros s0 H0.
  revert s0 c s' H0.
  change (preserves P (finally_processing el (load_wait w el))).
  apply preserves_finally_processing; [| same_heap].
  unfold load_wait.
  destruct (bool_decide (tagName w el = "IMG") && negb (complete w el));
    [apply preserves_ret | apply size_gate_heap].
Qed.

Lemma upd_pending_heap f s : P s → P (upd_pending f s).
Proof using P_ext. revert s. same_heap. Qed.

Lemma processImage_heap el s : P s → P (processImage w el s).
Proof using P_ext.
  apply preserves_spawn; [apply processImage_begin_heap |].
  intros; by apply upd_pending_heap.
Qed.

Lemma process_unprocessed_heap el s : P s → P (process_unprocessed w el s).
Proof using P_ext.
  unfold process_unprocessed.
  destruct (negb (processed_has el s)); [apply processImage_heap | done].
Qed.

Lemma on_mutation_heap mutation s : P s → P (on_mutation w mutation s).
Proof using P_ext P_forget P_destroyTextboxes.
  intros Hs. destruct mutation as [added removed | target name | target]; cbn.
  - apply forEach_keeps.
    + intros node s0 H0.
      destruct (bool_decide (nodeType w node = ELEMENT_NODE)); [| done].
      destruct (isImageNode w node); [by apply P_destroyTextboxes |].
      apply forEach_keeps; [| done].
      intros; by apply P_destroyTextboxes.
    + apply forEach_keeps; [| done]. intros node s0 H0.
      destruct (bool_decide (nodeType w node = ELEMENT_NODE)); [| done].
      destruct (isImageNode w node); [by apply processImage_heap |].
      unfold processImagesInSubtree.
      destruct (isImageNode w node); [by apply process_unprocessed_heap |].
      apply forEach_keeps; [| done].
      intros; by apply process_unprocessed_heap.
  - destruct (isImageNode w target && _); [| done].
    by apply processImage_heap, P_forget.
  - done.
Qed.

Lemma onMessage_heap msg s : P s → P (onMessage w msg s).
Proof using P_ext P_relabel P_disableOCR.
  intros Hs. destruct msg; cbn [onMessage]; try (revert Hs; same_heap).
  - unfold enableOCR. destruct (OCR s); [done |]. cbn zeta.
    match goal with |- P (set_intervals _ (emit _ (set_observing _
        (emit _ ?s3)))) => assert (H3 : P s3) end.
    { apply forEach_keeps; [intros; by apply processImage_heap |].
      apply forEach_keeps; [intros; by apply processImage_heap |].
      revert Hs. same_heap. }
    revert H3. same_heap.
  - by apply P_disableOCR.
  - unfold show_original. apply (P_relabel originalText); [done |].
    revert Hs. same_heap.
  - unfold show_translated. apply (P_relabel translatedText); [done |].
    revert Hs. same_heap.
Qed.

Lemma step_heap ev s : P s → P (step w ev s).
Proof using All.
  intros Hs.
  assert (Hun : ∀ i, P (unpark i s)) by (intros; revert Hs; same_heap).
  destruct ev; cbn [step].
  - revert Hs. same_heap.
  - by apply onMessage_heap.
  - destruct (observing s); [| done]. unfold observer_callback.
    apply forEach_keeps; [| done]. intros; by apply on_mutation_heap.
  - destruct (bool_decide (intervals s = 0%nat)); [done |].
    unfold periodicCheck. destruct (negb (OCR s)).
    + revert Hs. same_heap.
    + apply forEach_keeps; [| done].
      intros; by apply process_unprocessed_heap.
  - destruct (bool_decide (target ∈ loadListeners s)); [| done].
    unfold onImageReload. apply processImage_heap, P_destroyTextboxes.
    change (P (upd_processing (λ X, X ∖ {[target]})
                 (processed_delete target s))).
    generalize (P_forget target s Hs). same_heap.
  - destruct (pending s !! i) as [[] |]; try done.
    apply preserves_spawn; [apply processImage_loaded_heap | | apply Hun].
    intros; by apply upd_pending_heap.
  - destruct (pending s !! i) as [[] |]; try done.
    apply preserves_spawn; [apply processImage_encoded_heap | | apply Hun].
    intros; by apply upd_pending_heap.
  - destruct (pending s !! i) as [[] |]; try done.
    apply preserves_spawn; [apply processImage_recognised_heap | | apply Hun].
    intros; by apply upd_pending_heap.
  - destruct (pending s !! i) as [[] |]; try done.
    unfold translation_done. destruct r; [| apply Hun].
    generalize (Hun i). same_heap.
Qed.

Lemma run_heap evs : ∀ s, P s → P (run w evs s).
Proof using All.
  unfold run. induction evs as [| ev evs IH]; intros s Hs; [done |].
  cbn [foldl]. by apply IH, step_heap.
Qed.

End heap_invariant.

(** *** The registry lists attached boxes, each once *)

Lemma registry_boxes_app (l k : list Entry) :
  registry_boxes (l ++ k) = registry_boxes l ++ registry_boxes k.
Proof. unfold registry_boxes. by rewrite fmap_app, concat_app. Qed.

Lemma registry_boxes_unique (l : list Entry) ptr ptr' b :
  NoDup (registry_boxes l) → ptr ∈ l → ptr' ∈ l →
  b ∈ boxes ptr → b ∈ boxes ptr' → ptr = ptr'.
Proof.
  induction l as [| p l IH]; [by intros _ ?%elem_of_nil |].
  change (registry_boxes (p :: l)) with (boxes p ++ registry_boxes l).
  intros (_ & Hdisj & Hl)%NoDup_app
    [-> | Hptr]%elem_of_cons [-> | Hptr']%elem_of_cons Hb Hb'.
  - done.
  - destruct (Hdisj b Hb). apply elem_of_registry_boxes. eauto.
  - destruct (Hdisj b Hb'). apply elem_of_registry_boxes. eauto.
  - by apply IH.
Qed.

Lemma registry_boxes_filter (Q : Entry → Prop) `{∀ x, Decision (Q x)}
    (l : list Entry) :
  NoDup (registry_boxes l) → NoDup (registry_boxes (filter Q l)).
Proof.
  induction l as [| p l IH]; [done |].
  change (registry_boxes (p :: l)) with (boxes p ++ registry_boxes l).
  intros (Hp & Hdisj & Hl)%NoDup_app. rewrite filter_cons.
  destruct (decide (Q p)); [| by apply IH].
  change (NoDup (boxes p ++ registry_boxes (filter Q l))).
  apply NoDup_app. split; [done |]. split; [| by apply IH].
  intros b Hb (ptr & [_ Hptr]%list_elem_of_filter & Hin)%elem_of_registry_boxes.
  destruct (Hdisj b Hb). apply elem_of_registry_boxes. eauto.
Qed.

Lemma registry_sound_ext s s' :
  images s' = images s → textdivs s' = textdivs s → nextBox s' = nextBox s →
  registry_sound s → registry_sound s'.
Proof. unfold registry_sound. by intros -> -> ->. Qed.

Local Ltac same_registry :=
  first [ apply registry_sound_ext; reflexivity
        | intros ?; apply registry_sound_ext; reflexivity ].

(** A renderer's outcome: one more entry, whose boxes are the nodes
    allocated since, attached to its wrapper. *)
Lemma registry_sound_add s s' el wr n :
  registry_sound s →
  images s' = images s ++
    [ {| img := el; wrapper := wr; boxes := seq (nextBox s) n |} ] →
  nextBox s' = (nextBox s + n)%nat →
  (∀ i, (i < n)%nat →
     ∃ t, textdivs s' !! (nextBox s + i)%nat = Some t ∧
          parentNode t = Some wr) →
  (∀ b, ¬ (nextBox s ≤ b < nextBox s + n)%nat →
     textdivs s' !! b = textdivs s !! b) →
  registry_sound s'.
Proof.
  intros [Hs Hdup] Hi Hn Hnew Hold. split.
  - intros ptr b Hptr Hb. rewrite Hi in Hptr. rewrite Hn.
    apply elem_of_app in Hptr as [Hptr | ->%list_elem_of_singleton].
    + destruct (Hs ptr b Hptr Hb) as (Hlt & t & Ht & Hp).
      split; [lia |]. exists t. split; [| done].
      rewrite Hold; [done | lia].
    + cbn in Hb. apply elem_of_seq in Hb. split; [lia |].
      destruct (Hnew (b - nextBox s)%nat) as (t & Ht & Hp); [lia |].
      exists t. split; [| done].
      by replace (nextBox s + (b - nextBox s))%nat with b in Ht by lia.
  - rewrite Hi, registry_boxes_app. apply NoDup_app.
    split; [done |]. split.
    + intros b (ptr & Hptr & Hb)%elem_of_registry_boxes Hb'.
      destruct (Hs ptr b Hptr Hb) as [Hlt _].
      cbn in Hb'. rewrite app_nil_r in Hb'.
      apply elem_of_seq in Hb'. lia.
    + cbn. rewrite app_nil_r. apply NoDup_seq.
Qed.

Lemma registry_sound_push el wr s :
  registry_sound s →
  registry_sound (images_push {| img := el; wrapper := wr; boxes := [] |} s).
Proof.
  intros Hs. apply (registry_sound_add s _ el wr 0 Hs); cbn.
  - done.
  - lia.
  - intros; lia.
  - done.
Qed.

Lemma applyError_sound w el wr error :
  preserves registry_sound (applyError w el wr error).
Proof.
  intros s c s' Hs Hrun.
  destruct (getSizes w el) as [[nw nh] |] eqn:Hsz.
  - destruct (applyError_run w el wr nw nh Hsz error s)
      as (s1 & Hrun1 & Hi & Hn & Hnew & Hold & _).
    rewrite Hrun1 in Hrun. injection Hrun as <- <-.
    apply (registry_sound_add s s1 el wr 1 Hs); [done | lia | |].
    + intros i Hlt. replace i with 0%nat by lia. rewrite Nat.add_0_r.
      by exists (error_box wr nw nh error).
    + intros b Hb. apply Hold. lia.
  - unfold applyError, getSizes_of in Hrun. rewrite Hsz in Hrun.
    run_m in Hrun. injection Hrun as <- <-.
    by apply registry_sound_push.
Qed.

Lemma applyOcr_sound w el wr resp :
  preserves registry_sound (applyOcr w el wr resp).
Proof.
  intros s c s' Hs Hrun.
  destruct resp as [resp |].
  2:{ unfold applyOcr in Hrun. run_m in Hrun. injection Hrun as <- <-.
      by apply registry_sound_push. }
  destruct (getSizes w el) as [[nw nh] |] eqn:Hsz.
  - destruct (applyOcr_run w el wr nw nh Hsz resp s)
      as (s1 & Hrun1 & Hi & Hn & Hnew & Hold & _).
    rewrite Hrun1 in Hrun. injection Hrun as <- <-.
    apply (registry_sound_add s s1 el wr (length (result resp)) Hs);
      [done | done | | done].
    intros i [r Hr]%lookup_lt_is_Some_2.
    exists (ocr_box (showTranslated s) wr nw nh r). split; [| done].
    by apply Hnew.
  - unfold applyOcr in Hrun. run_m in Hrun.
    pose proof (applyOcr_regions_throw w el wr (length (images s))
                  (result resp)
                  (images_push {| img := el; wrapper := wr; boxes := [] |} s)
                  Hsz) as E.
    rewrite Hrun in E. cbn in E. subst s'.
    by apply registry_sound_push.
Qed.

Lemma render_sound w el error resp :
  preserves registry_sound (render w el error resp).
Proof.
  unfold render. apply preserves_bind.
  { apply preserves_modify. same_registry. }
  intros _. destruct (wrapImage w el) as [[newImg wr] |].
  - apply preserves_bind.
    + destruct (truthy error).
      * apply preserves_bind; [apply applyError_sound |].
        intros _. apply preserves_modify. same_registry.
      * apply preserves_bind; [apply applyOcr_sound |].
        intros _. apply preserves_modify. same_registry.
    + intros _. apply preserves_bind; [| intros; apply preserves_ret].
      apply preserves_modify. same_registry.
  - apply preserves_bind; [| intros; apply preserves_ret].
    apply preserves_modify. same_registry.
Qed.

Lemma destroyTextboxes_sound w node s :
  registry_sound s → registry_sound (destroyTextboxes w node s).
Proof.
  intros [Hs Hdup].
  destruct (decide (tagName w node ∈ ["IMG"; "CANVAS"])) as [Htag | Htag].
  2:{ by rewrite destroyTextboxes_other. }
  rewrite destroyTextboxes_run by done. split; cbn.
  - intros ptr b [Hne Hptr]%list_elem_of_filter Hb.
    destruct (Hs ptr b Hptr Hb) as (Hlt & t & Ht & Hp).
    split; [done |]. exists t. split; [| done].
    rewrite (foldl_alter_lookup detach _ detach_idem).
    rewrite bool_decide_eq_false_2; [done |].
    intros (ptr' & [He Hptr']%list_elem_of_filter & Hb')%elem_of_registry_boxes.
    apply Hne. rewrite <- He. f_equal.
    by apply (registry_boxes_unique (images s) ptr ptr' b).
  - by apply registry_boxes_filter.
Qed.

Lemma relabel_sound (f : Textdiv → option string) s :
  (∀ txt t, f (with_innerText txt t) = f t) →
  registry_sound s → registry_sound (relabel f s).
Proof.
  intros Hf [Hs Hdup].
  assert (Hn : nextBox (relabel f s) = nextBox s).
  { unfold relabel. by rewrite forEach_entries_alter. }
  split.
  - intros ptr b Hptr Hb.
    destruct (relabel_textdivs f s b Hf) as [Hi Ht].
    rewrite Hi in Hptr. destruct (Hs ptr b Hptr Hb) as (Hlt & t & Hl & Hp).
    rewrite Hn. split; [done |]. rewrite Hl in Ht.
    destruct (bool_decide _); cbn in Ht; eexists; (split; [exact Ht | done]).
  - by destruct (relabel_textdivs f s 0%nat Hf) as [-> _].
Qed.

Lemma disableOCR_sound s : registry_sound s → registry_sound (disableOCR s).
Proof.
  intros Hs. destruct (OCR s) eqn:E.
  - destruct (disableOCR_enabled s E) as (_ & Hi & _).
    split; rewrite Hi; [by intros ptr b ?%elem_of_nil | constructor].
  - unfold disableOCR. by rewrite E.
Qed.

(** X15. In every state the script can reach, the registry and the
    document agree on the overlay boxes: every box that a registry entry
    lists is a node in the document under the wrapper of that entry, no box
    is listed twice, in one entry or in two, and every overlay box in the
    document is listed.  So the teardown of one image's entries leaves the
    boxes of every other entry where they are, and no box is left in the
    document without an entry that will remove it. *)
Theorem registry_matches_document (s : State) :
  reachable s →
  registry_sound s ∧
  ∀ b, attached s b ↔ b ∈ registry_boxes (images s).
Proof.
  intros Hr.
  assert (Hs : registry_sound s).
  { induction Hr as [| w ev s _ IH].
    - split; [by intros ptr b ?%elem_of_nil | constructor].
    - revert IH. apply step_heap.
      + intros s1 s2 Hi Ht Hn _. by apply registry_sound_ext.
      + intros x s1. same_registry.
      + apply render_sound.
      + apply destroyTextboxes_sound.
      + apply relabel_sound.
      + apply disableOCR_sound. }
  split; [exact Hs |]. intros b. rewrite elem_of_registry_boxes. split.
  - apply (reachable_boxes_owned s Hr).
  - intros (ptr & Hptr & Hb).
    destruct (proj1 Hs ptr b Hptr Hb) as (_ & t & Ht & Hp).
    by exists t, (wrapper ptr).
Qed.

Lemma registry_matches_document_witness :
  registry_sound (run page src_swap initial) ∧
  ∀ b, attached (run page src_swap initial) b
       ↔ b ∈ registry_boxes (images (run page src_swap initial)).
Proof.
  apply registry_matches_document.
  unfold run, src_swap. cbn [foldl]. repeat apply reachable_step.
  apply reachable_initial.
Defined.

(** *** Processed elements and their entries *)

(** However a renderer ends, it has pushed one entry for its element. *)
Lemma applyOcr_entry w el wr resp s c s1 :
  applyOcr w el wr resp s = (c, s1) →
  ∃ bs, images s1 = images s ++ [ {| img := el; wrapper := wr; boxes := bs |} ].
Proof.
  intros Hrun. destruct resp as [resp |].
  2:{ unfold applyOcr in Hrun. run_m in Hrun. injection Hrun as <- <-.
      by exists []. }
  destruct (getSizes w el) as [[nw nh] |] eqn:Hsz.
  - destruct (applyOcr_run w el wr nw nh Hsz resp s) as (s2 & Hrun2 & Hi & _).
    rewrite Hrun2 in Hrun. injection Hrun as <- <-. eauto.
  - destruct (result resp) as [| r rs] eqn:Hr.
    + rewrite applyOcr_empty in Hrun by done. injection Hrun as <- <-.
      by exists [].
    + rewrite applyOcr_throws in Hrun by (done || by rewrite Hr).
      injection Hrun as <- <-. by exists [].
Qed.

Lemma applyError_entry w el wr error s c s1 :
  applyError w el wr error s = (c, s1) →
  ∃ bs, images s1 = images s ++ [ {| img := el; wrapper := wr; boxes := bs |} ].
Proof.
  intros Hrun. destruct (getSizes w el) as [[nw nh] |] eqn:Hsz.
  - destruct (applyError_run w el wr nw nh Hsz error s)
      as (s2 & Hrun2 & Hi & _).
    rewrite Hrun2 in Hrun. injection Hrun as <- <-. eauto.
  - rewrite applyError_throws in Hrun by done. injection Hrun as <- <-.
    by exists [].
Qed.

Lemma processed_registered_ext s s' :
  images s' = images s → processedImages s' = processedImages s →
  processed_registered s → processed_registered s'.
Proof. unfold processed_registered. by intros -> ->. Qed.

Local Ltac same_processed :=
  first [ apply processed_registered_ext; reflexivity
        | intros ?; apply processed_registered_ext; reflexivity ].

Lemma processed_registered_grow s s' ptr :
  images s' = images s ++ [ptr] → processedImages s' = processedImages s →
  processed_registered s → processed_registered s'.
Proof.
  intros Hi Hp Hs x Hx. rewrite Hp in Hx. rewrite Hi.
  destruct (Hs x Hx) as (p & Hin & He). exists p.
  split; [apply elem_of_app; by left | done].
Qed.

Lemma render_registered w el error resp :
  wraps_in_place w →
  preserves processed_registered (render w el error resp).
Proof.
  intros Hw. unfold render. apply preserves_bind.
  { apply preserves_modify. same_processed. }
  intros _. destruct (wrapImage w el) as [[newImg wr] |] eqn:Hwrap.
  2:{ apply preserves_bind; [| intros; apply preserves_ret].
      apply preserves_modify. same_processed. }
  apply Hw in Hwrap as ->.
  apply preserves_bind.
  2:{ intros _. apply preserves_bind; [| intros; apply preserves_ret].
      apply preserves_modify. same_processed. }
  destruct (truthy error).
  - apply preserves_bind; [| intros _; apply preserves_modify; same_processed].
    intros s c s1 Hs Hrun.
    destruct (applyError_entry _ _ _ _ _ _ _ Hrun) as [bs Hi].
    destruct (applyError_frame _ _ _ _ _ _ _ Hrun) as (_&_&_&_&Hp&_).
    by apply (processed_registered_grow s s1 _ Hi Hp).
  - intros s c s' Hs. rewrite bind_unfold.
    destruct (applyOcr w el wr resp s) as [[[] |] s1] eqn:Hrun;
      destruct (applyOcr_entry _ _ _ _ _ _ _ Hrun) as [bs Hi];
      destruct (applyOcr_frame _ _ _ _ _ _ _ Hrun) as (_&_&_&_&Hp&_);
      intros [= <- <-].
    + intros x [->%elem_of_singleton | Hx]%elem_of_union; cbn.
      * eexists. rewrite Hi.
        split; [apply elem_of_app; right; apply list_elem_of_here | done].
      * by apply (processed_registered_grow s s1 _ Hi Hp Hs).
    + by apply (processed_registered_grow s s1 _ Hi Hp).
Qed.

Lemma processed_delete_registered x s :
  processed_registered s → processed_registered (processed_delete x s).
Proof. intros Hs y [Hy _]%elem_of_difference. by apply Hs. Qed.

Lemma destroyTextboxes_registered w node s :
  processed_registered s → processed_registered (destroyTextboxes w node s).
Proof.
  intros Hs.
  destruct (decide (tagName w node ∈ ["IMG"; "CANVAS"])) as [Htag | Htag].
  2:{ by rewrite destroyTextboxes_other. }
  rewrite destroyTextboxes_run by done.
  intros x [Hx Hne%not_elem_of_singleton]%elem_of_difference.
  destruct (Hs x Hx) as (p & Hin & He). exists p. split; [| done].
  cbn. apply list_elem_of_filter. split; [congruence | done].
Qed.

Lemma relabel_registered (f : Textdiv → option string) s :
  processed_registered s → processed_registered (relabel f s).
Proof.
  unfold relabel. rewrite forEach_entries_alter. revert s. same_processed.
Qed.

(** Disabling leaves no processed element that owned an entry. *)
Lemma disableOCR_registered s :
  processed_registered s →
  processed_registered (disableOCR s) ∧
  (OCR s = true → processedImages (disableOCR s) = ∅).
Proof.
  intros Hs. destruct (OCR s) eqn:E.
  - assert (He : processedImages (disableOCR s) = ∅).
    { destruct (disableOCR_sets s E) as [-> _].
      apply set_eq. intros x. split; [| by intros ?%elem_of_empty].
      intros [Hx Hn]%elem_of_difference. destruct Hn.
      destruct (Hs x Hx) as (p & Hin & <-).
      apply elem_of_list_to_set, list_elem_of_fmap. eauto. }
    split; [| done]. intros x Hx. rewrite He in Hx.
    by apply elem_of_empty in Hx.
  - unfold disableOCR. rewrite E. by split.
Qed.

(** X16. When wrapping returns the element it was given, every element in
    the processed set owns a registry entry, in every state a run of the
    event loop reaches; so disabling an enabled session empties the
    processed set and the next enabling submits every image afresh. *)
Theorem disable_empties_processed (w : World) (evs : list Event) :
  wraps_in_place w →
  let s := run w evs initial in
  processed_registered s ∧
  (OCR s = true → processedImages (disableOCR s) = ∅).
Proof.
  intros Hw s.
  assert (Hs : processed_registered s).
  { apply run_heap.
    - intros s1 s2 Hi _ _ Hp. by apply processed_registered_ext.
    - apply processed_delete_registered.
    - intros; by apply render_registered.
    - apply destroyTextboxes_registered.
    - intros; by apply relabel_registered.
    - intros; by apply disableOCR_registered.
    - by intros x ?%elem_of_empty. }
  split; [done |]. by apply disableOCR_registered.
Qed.

Lemma disable_empties_processed_witness :
  processed_registered (run page src_swap initial) ∧
  processedImages (disableOCR (run page src_swap initial)) = ∅.
Proof.
  assert (Hw : wraps_in_place page).
  { intros el newImg wr [= <- _]. reflexivity. }
  destruct (disable_empties_processed page src_swap Hw) as [H1 H2].
  split; [exact H1 |]. apply H2. vm_compute. reflexivity.
Defined.

(** X17. The processed flag is put on the element given to [wrapImage],
    the registry entry on the element [wrapImage] returns.  When the two
    differ and the given element owns no entry, a successful recognition
    followed by disabling leaves the given element in the processed set:
    disabling clears the flags of the entries' elements only.  The next
    submission of the element is then skipped at the guard. *)
Theorem processed_survives_disable (w w' : World) (el newImg wr : Elem)
    (nw nh : Z) (resp : OcrResponse) (s : State) :
  wrapImage w el = Some (newImg, wr) → newImg ≠ el →
  getSizes w newImg = Some (nw, nh) →
  OCR s = true → entries_of el s = [] →
  let s' := (processImage_recognised w el (Fulfilled resp) s).2 in
  el ∈ processedImages (disableOCR s') ∧
  processImage w' el (disableOCR s') = disableOCR s'.
Proof.
  intros Hwrap Hne Hsz Hon Hnone s'.
  destruct (processImage_recognised_success w el s resp newImg wr nw nh
              Hwrap Hsz) as (s1 & Hrun & Hi & _ & _ & Hp & _ & Hocr & _).
  subst s'. rewrite Hrun. cbn [snd].
  assert (Hin : el ∈ processedImages (disableOCR s1)).
  { destruct (disableOCR_sets s1) as [-> _]; [congruence |].
    apply elem_of_difference. split.
    - rewrite Hp. apply elem_of_union. left. by apply elem_of_singleton.
    - rewrite Hi, fmap_app, elem_of_list_to_set, elem_of_app.
      intros [(p & He & Hptr)%list_elem_of_fmap | Hl].
      + assert (Hf : p ∈ entries_of el s)
          by (apply list_elem_of_filter; split; [done | done]).
        rewrite Hnone in Hf. by apply elem_of_nil in Hf.
      + cbn in Hl. apply list_elem_of_singleton in Hl. congruence. }
  split; [done |].
  unfold processImage, spawn. rewrite processImage_begin_cases.
  by rewrite (proj2 (processed_has_true _ _) Hin).
Qed.

Lemma processed_survives_disable_witness :
  1%nat ∈ processedImages
    (disableOCR
       (processImage_recognised replacing_page 1%nat (Fulfilled one_region)
          in_flight).2) ∧
  processImage page 1%nat
    (disableOCR
       (processImage_recognised replacing_page 1%nat (Fulfilled one_region)
          in_flight).2)
  = disableOCR
      (processImage_recognised replacing_page 1%nat (Fulfilled one_region)
         in_flight).2.
Proof.
  apply (processed_survives_disable replacing_page page 1%nat 51%nat 101%nat
           200 200 one_region in_flight).
  - reflexivity.
  - lia.
  - reflexivity.
  - vm_compute. reflexivity.
  - vm_compute. reflexivity.
Defined.

(** ** The classes the script puts on elements *)

#[export] Instance classes_kept_reflexive : Reflexive classes_kept.
Proof. by intros s x c. Qed.

#[export] Instance classes_kept_transitive : Transitive classes_kept.
Proof. intros s1 s2 s3 H1 H2 x c Hc Hx. by apply H2, H1. Qed.

Lemma classes_kept_same s s' : classList s' = classList s → classes_kept s s'.
Proof. intros E x c _. by rewrite E. Qed.

Lemma destroyTextboxes_classList w node s :
  classList (destroyTextboxes w node s) = classList s.
Proof.
  destruct (decide (tagName w node ∈ ["IMG"; "CANVAS"])) as [Htag | Htag].
  - by rewrite destroyTextboxes_run.
  - by rewrite destroyTextboxes_other.
Qed.

Lemma disable_loop_classList (i : nat) : ∀ s,
  classList (disable_loop i s) = classList s.
Proof.
  induction i as [| i IH]; intros s; [done |].
  cbn [disable_loop]. rewrite IH. unfold disable_one.
  destruct (images s !! i) as [ptr |]; [| done].
  cbn. by rewrite remove_boxes_run.
Qed.

Lemma disableOCR_classList s : classList (disableOCR s) = classList s.
Proof.
  unfold disableOCR. destruct (negb (OCR s)); [done |].
  cbn. by rewrite disable_loop_classList.
Qed.

Lemma on_mutation_classList w mutation s :
  classList (on_mutation w mutation s) = classList s.
Proof.
  destruct mutation as [added removed | target name | target]; cbn [on_mutation].
  - rewrite forEach_frame.
    + apply forEach_frame. intros node s0.
      destruct (bool_decide (nodeType w node = ELEMENT_NODE)); [| done].
      destruct (isImageNode w node) eqn:E; [apply processImage_frame |].
      unfold processImagesInSubtree. rewrite E.
      apply forEach_frame. intros; apply process_unprocessed_frame.
    + intros node s0.
      destruct (bool_decide (nodeType w node = ELEMENT_NODE)); [| done].
      destruct (isImageNode w node); [apply destroyTextboxes_classList |].
      apply forEach_frame. intros; apply destroyTextboxes_classList.
  - destruct (isImageNode w target && _); [| done].
    by destruct (processImage_frame w target (processed_delete target s))
      as (_&_&_&_&_&_&_&->).
  - done.
Qed.

Lemma onMessage_classList w msg s :
  classList (onMessage w msg s) = classList s.
Proof.
  destruct msg; cbn [onMessage]; try done.
  - unfold enableOCR. destruct (OCR s); [done |]. cbn.
    rewrite !forEach_frame; [done | |]; intros; apply processImage_frame.
  - apply disableOCR_classList.
  - unfold show_original, relabel. by rewrite forEach_entries_alter.
  - unfold show_translated, relabel. by rewrite forEach_entries_alter.
Qed.

Lemma spawn_classList (m : M Step) s : classList (spawn m s) = classList (m s).2.
Proof. unfold spawn. by destruct (m s) as [[[p |] |] s1]. Qed.

Lemma finally_processing_classList el (m : M Step) s :
  classList (finally_processing el m s).2 = classList (m s).2.
Proof.
  unfold finally_processing. by destruct (m s) as [[[p |] |] s1].
Qed.

Lemma render_classes w el error resp :
  keeps classes_kept (render w el error resp).
Proof.
  assert (Hsame : ∀ f : State → State,
            (∀ s, classList (f s) = classList s) →
            keeps classes_kept (modify f)).
  { intros f Hf. apply keeps_modify. intros s. apply classes_kept_same, Hf. }
  assert (Hadd : ∀ y, keeps classes_kept
            (modify (upd_classList (λ X, {[y]} ∪ X)))).
  { intros y. apply keeps_modify. intros s x c _ Hx.
    apply elem_of_union. by right. }
  unfold render. apply keeps_bind; [apply _ | by apply Hsame |].
  intros _. destruct (wrapImage w el) as [[newImg wr] |].
  - apply keeps_bind; [apply _ | |].
    + destruct (truthy error).
      * apply keeps_bind; [apply _ | | intros _; apply Hadd].
        intros s c s' H. apply classes_kept_same.
        by destruct (applyError_frame _ _ _ _ _ _ _ H)
          as (_&_&_&_&_&_&_&->&_).
      * apply keeps_bind; [apply _ | | intros _; by apply Hsame].
        intros s c s' H. apply classes_kept_same.
        by destruct (applyOcr_frame _ _ _ _ _ _ _ H)
          as (_&_&_&_&_&_&_&->&_).
    + intros _. apply keeps_bind; [apply _ | by apply Hsame |].
      intros _. apply (keeps_ret classes_kept).
  - apply keeps_bind; [apply _ | by apply Hsame |].
    intros _. apply (keeps_ret classes_kept).
Qed.

Lemma recognised_classes el r : keeps classes_kept (recognised el r).
Proof.
  assert (Hrem : ∀ s, classes_kept s
            (upd_classList (λ X, X ∖ {[(el, "ocr-loading")]}) s)).
  { intros s x c Hc Hx. apply elem_of_difference. split; [done |].
    intros [= _ ->]%elem_of_singleton. done. }
  intros s c s'. destruct r as [resp | err].
  - rewrite recognised_fulfilled. intros [= <- <-]. apply Hrem.
  - rewrite recognised_rejected.
    destruct (catch_getOcr err s) as [[e |] se] eqn:Hc;
      pose proof (catch_getOcr_frame _ _ _ _ Hc) as ->;
      intros [= <- <-]; apply (Hrem (emit log_error_call s)).
Qed.

Lemma processImage_recognised_classes w el r s :
  classes_kept s (processImage_recognised w el r s).2.
Proof.
  intros x c Hc Hx. unfold processImage_recognised.
  rewrite finally_processing_classList.
  destruct (('(error, resp) ← recognised el r; render w el error resp) s)
    as [c1 s1] eqn:Hm. cbn [snd].
  revert Hm x c Hc Hx.
  apply (keeps_bind classes_kept); [apply recognised_classes |].
  intros [error resp]. apply render_classes.
Qed.

Lemma step_classes w ev s : classes_kept s (step w ev s).
Proof.
  assert (Hun : ∀ i, classList (unpark i s) = classList s) by done.
  destruct ev; cbn [step].
  - by apply classes_kept_same.
  - apply classes_kept_same, onMessage_classList.
  - destruct (observing s); [| done]. apply classes_kept_same.
    unfold observer_callback. apply forEach_frame.
    intros; apply on_mutation_classList.
  - destruct (bool_decide (intervals s = 0%nat)); [done |].
    apply classes_kept_same. unfold periodicCheck.
    destruct (negb (OCR s)); [done |].
    apply forEach_frame. intros; apply process_unprocessed_frame.
  - destruct (bool_decide (target ∈ loadListeners s)); [| done].
    apply classes_kept_same. unfold onImageReload.
    destruct (processImage_frame w target
      (destroyTextboxes w target
         (processing_delete target (processed_delete target s))))
      as (_&_&_&_&_&_&_&->).
    by rewrite destroyTextboxes_classList.
  - destruct (pending s !! i) as [[] |]; try done.
    apply classes_kept_same.
    rewrite spawn_classList. unfold processImage_loaded.
    rewrite finally_processing_classList. unfold size_gate.
    by destruct (width w e * height w e <? 100 * 100).
  - destruct (pending s !! i) as [[] |]; try done.
    intros x c Hc Hx.
    rewrite spawn_classList. unfold processImage_encoded.
    rewrite finally_processing_classList.
    destruct r; cbn; [| done]. apply elem_of_union. by right.
  - destruct (pending s !! i) as [[] |]; try done.
    intros x c Hc Hx. rewrite spawn_classList.
    by apply processImage_recognised_classes.
  - destruct (pending s !! i) as [[] |]; try done.
    apply classes_kept_same. unfold translation_done. by destruct r.
Qed.

(** X18. The script never takes a class other than [ocr-loading] off an
    element: a class that is on an element stays on it through every turn
    of the event loop.  In particular the class [ocr-error], put on when an
    error overlay is rendered, is still on the element after a later retry
    succeeded, after its boxes were destroyed and after the session was
    disabled. *)
Theorem error_class_sticks (w : World) (evs : list Event) (s : State)
    (x : Elem) (c : string) :
  c ≠ "ocr-loading" →
  (x, c) ∈ classList s → (x, c) ∈ classList (run w evs s).
Proof.
  intros Hc. unfold run. revert s.
  induction evs as [| ev evs IH]; intros s Hx; [done |].
  cbn [foldl]. by apply IH, step_classes.
Qed.

Lemma error_class_sticks_witness :
  (1%nat, "ocr-error")
    ∈ classList
        (run page [interval_tick; base64_settled 0 (Fulfilled "data");
                   ocr_settled 0 (Fulfilled one_region);
                   message disable_ocr]
           (run page [message enable_ocr; base64_settled 0 (Fulfilled "data");
                      ocr_settled 0 (Rejected network_down)] initial)) ∧
  1%nat ∈ processedImages
    (run page [interval_tick; base64_settled 0 (Fulfilled "data");
               ocr_settled 0 (Fulfilled one_region)]
       (run page [message enable_ocr; base64_settled 0 (Fulfilled "data");
                  ocr_settled 0 (Rejected network_down)] initial)).
Proof.
  split.
  - apply error_class_sticks; [done |].
    apply (bool_decide_unpack _). vm_compute. exact I.
  - apply (bool_decide_unpack _). vm_compute. exact I.
Defined.
